(** * Asynchronous sharded training core of Marian ([AsyncGraphGroup])

    A shallow embedding of [src/training/graph_group.h]: the constructor,
    the first-execution set-up of shards, gradients, shadow parameters and
    sparse buffers, the four store operations ([fetchParams],
    [pushGradients], [sparseFetchParams], [sparsePush]), the moving average
    and the per-thread task of [execute].

    Conventions.
    - [int] and [size_t] values are [Z]; [size_t] arithmetic wraps and
      [int] arithmetic is checked, as written out in [CInt].  The sizes of
      tensors and vectors are taken to fit in [int].
    - [float] and [double] values are [spec_float] with the binary32 and
      binary64 operations of the standard library's [SpecFloat].
    - A [Tensor] is the list of its elements.  Indexing a [std::vector]
      outside its bounds, dividing by zero and converting an out-of-range
      floating-point value to [int] are undefined in the source; the model
      returns [None] there.
    - The worker threads spawned by one store operation each lock and touch
      one shard only, so one operation is modelled as the loop over the
      shards in index order.
    - The optimizer, the sparse tensor and the gradient dropper are classes
      whose code lives outside this header; they are the fields of the
      class [Kernels]. *)

From Stdlib Require Import ZArith Lia Bool.
From Stdlib Require Import Floats.SpecFloat.
From Stdlib Require DecimalString OrdersEx.
From stdpp Require Import base option list strings.

Open Scope Z_scope.

(** ** Machine integers *)

Module CInt.

Definition int_min : Z := - 2 ^ 31.
Definition int_max : Z := 2 ^ 31 - 1.
Definition size_t_range : Z := 2 ^ 64.

Definition in_int (z : Z) : Prop := int_min <= z <= int_max.

(** The result of an [int] operation whose exact value is [z]: signed
    overflow is undefined. *)
Definition checked (z : Z) : option Z :=
  if (int_min <=? z) && (z <=? int_max) then Some z else None.

(** Conversion to [size_t], the usual arithmetic conversion when an [int]
    meets a [size_t] operand. *)
Definition to_size_t (z : Z) : Z := z mod size_t_range.

(** [a % b] on [int]: truncated remainder; [b = 0] is undefined. *)
Definition int_rem (a b : Z) : option Z :=
  if b =? 0 then None else Some (Z.rem a b).

(** [a / b] on [size_t]. *)
Definition size_t_div (a b : Z) : option Z :=
  if b =? 0 then None else Some (a / b).

(** [a % b] on [size_t]. *)
Definition size_t_rem (a b : Z) : option Z :=
  if b =? 0 then None else Some (a mod b).

End CInt.

(** ** Floating point *)

Module FP.

Definition float : Type := spec_float.
Definition double : Type := spec_float.

Definition f32_add : float -> float -> float := SFadd 24 128.
Definition f32_sub : float -> float -> float := SFsub 24 128.
Definition f32_mul : float -> float -> float := SFmul 24 128.
Definition f32_div : float -> float -> float := SFdiv 24 128.
Definition f32_of_Z (z : Z) : float := binary_normalize 24 128 z 0 false.

Definition f64_sub : double -> double -> double := SFsub 53 1024.
Definition f64_mul : double -> double -> double := SFmul 53 1024.
Definition f64_div : double -> double -> double := SFdiv 53 1024.
Definition f64_of_Z (z : Z) : double := binary_normalize 53 1024 z 0 false.

Definition f32_zero : float := S754_zero false.
(** [1.f] *)
Definition f32_one : float := S754_finite false 8388608 (-23).
Definition f64_zero : double := S754_zero false.
(** [1.0] *)
Definition f64_one : double := S754_finite false 4503599627370496 (-52).
(** [1.2], the double nearest to 12/10 *)
Definition f64_1_2 : double := S754_finite false 5404319552844595 (-52).
(** [1.5] *)
Definition f64_1_5 : double := S754_finite false 6755399441055744 (-52).

(** [std::min(a, b)] is [(b < a) ? b : a]. *)
Definition f32_min (a b : float) : float := if SFltb b a then b else a.

(** [x > 0.0] *)
Definition gt_zero (x : double) : bool := SFltb f64_zero x.

(** Contextual conversion of a [double] to [bool]: [x != 0]. *)
Definition to_bool (x : double) : bool := negb (SFeqb x f64_zero).

(** The integer part of a finite value, rounding toward zero. *)
Definition trunc (x : spec_float) : option Z :=
  match x with
  | S754_zero _ => Some 0
  | S754_finite s m e =>
      Some (cond_Zopp s
              (match e with
               | Zneg p => Z.pos m / 2 ^ Z.pos p
               | _ => Z.pos m * 2 ^ e
               end))
  | _ => None
  end.

(** Conversion of a [double] to [int]: truncation; a value outside [int]
    (or an infinity or NaN) is undefined. *)
Definition to_int (x : double) : option Z :=
  z ← trunc x;
  CInt.checked z.

(** [(float)x] for a [double] [x]: rounding to binary32. *)
Definition f32_of_f64 (x : double) : float :=
  match x with
  | S754_finite s m e => binary_round 24 128 s m e
  | _ => x
  end.

(** [ceil] on [double]. *)
Definition f64_ceil (x : double) : double :=
  match x with
  | S754_finite s m (Zneg p) =>
      binary_normalize 53 1024
        (- ((- cond_Zopp s (Z.pos m)) / 2 ^ Z.pos p)) 0 s
  | _ => x
  end.

End FP.

Export FP (float, double).

(** A tensor, as the list of its elements. *)
Abbreviation Tensor := (list float).

(** A ghost table with one row per history buffer and one entry per shard
    (see [tag_at] below). *)
Abbreviation Tags := (list (list Z)).


(** ** Tensors *)

(** A tensor is a buffer of fixed size: every write into an existing tensor
    ([copyFrom], an in-place kernel) replaces its leading elements and keeps
    its size. *)
Definition overwrite (dst src : Tensor) : Tensor :=
  take (length dst) src ++ drop (length src) dst.

(** [t->set(0)] *)
Definition set_zero (t : Tensor) : Tensor :=
  replicate (length t) FP.f32_zero.

(** A freshly allocated tensor of [size] elements (its content is not
    initialised by the source; it is written before it is read). *)
Definition allocate (size : Z) : Tensor :=
  replicate (Z.to_nat size) FP.f32_zero.

(** [t->subtensor(pos, size)], read as a value. *)
Definition subtensor (t : Tensor) (pos size : Z) : option Tensor :=
  if (pos <? 0) || (size <? 0) then None
  else sublist_lookup (Z.to_nat pos) (Z.to_nat size) t.

(** Writing [new] through the view [t->subtensor(pos, length new)]. *)
Definition write_subtensor (t : Tensor) (pos : Z) (new : Tensor) : Tensor :=
  list_inserts (Z.to_nat pos) new t.

(** [Element(_1 = _2 - _3, out, a, b)] *)
Definition Element_sub (out a b : Tensor) : Tensor :=
  overwrite out (zip_with FP.f32_sub a b).

(** [Element(_1 += _2, out, a)] *)
Definition Element_add (out a : Tensor) : Tensor :=
  overwrite out (zip_with FP.f32_add out a).

(** [Element(_1 = (decay * _1) + ((1.f - decay) * _2), out, a)] *)
Definition Element_blend (decay : float) (out a : Tensor) : Tensor :=
  overwrite out
    (zip_with
       (fun o x =>
          FP.f32_add (FP.f32_mul decay o)
            (FP.f32_mul (FP.f32_sub FP.f32_one decay) x))
       out a).

(** The values and gradients of one [ExpressionGraph], as flat buffers. *)
Record Graph := mkGraph { vals : Tensor; grads : Tensor }.

(** ** The classes defined outside this header *)

Class Kernels := {
  (** [OptimizerBase]: the state of one optimizer. *)
  OptimizerBase : Type;
  (** [Optimizer(options_)] *)
  Optimizer : OptimizerBase;
  (** [opt->update(params, grads, scale)], or without [scale] when [None]:
      the new optimizer state and what it writes into the two buffers. *)
  opt_update :
    OptimizerBase -> Tensor -> Tensor -> option float ->
    OptimizerBase * Tensor * Tensor;
  (** [SparseTensorBase] *)
  SparseTensor : Type;
  (** [new SparseTensorCPU(capacity, device)] *)
  sp_new : Z -> Z -> SparseTensor;
  sp_capacity : SparseTensor -> Z;
  sp_new_capacity : forall c d, sp_capacity (sp_new c d) = c;
  (** [dst->copyFrom(src)] *)
  sp_copyFrom : SparseTensor -> SparseTensor -> SparseTensor;
  (** [t->subtensor(pos, size, idx)] *)
  sp_subtensor : SparseTensor -> Z -> Z -> Z -> SparseTensor;
  (** [t->toDense(dense, offset)]: what it writes into [dense]. *)
  sp_toDense : SparseTensor -> Tensor -> Z -> Tensor;
  (** [t->scatterAdd(dense)]: what it writes into [dense]. *)
  sp_scatterAdd : SparseTensor -> Tensor -> Tensor;
  (** [GradientDropBase]: the state of one dropper. *)
  GradientDrop : Type;
  (** [GradientDrop(new GradientDropCPU())] *)
  GradientDrop_new : GradientDrop;
  (** [dropper->dropGraph(t, destination, rate)]: the new dropper state and
      what it writes into [t] and into [destination]. *)
  dropGraph :
    GradientDrop -> Tensor -> SparseTensor -> double ->
    GradientDrop * Tensor * SparseTensor;
}.

(** The options read by the constructors. *)
Record Config := mkConfig {
  opt_devices : list Z;            (* "devices" *)
  opt_moving_average : bool;       (* "moving-average" *)
  opt_moving_decay : double;       (* "moving-decay" *)
  opt_drop_rate : double;          (* "drop-rate" *)
  opt_tau : Z;                     (* "tau" *)
  opt_batch_flexible_lr : bool;    (* "batch-flexible-lr" *)
  opt_batch_normal_words : float;  (* "batch-normal-words" *)
}.

(** ** The state of an [AsyncGraphGroup] *)

Section Model.
Context `{K : Kernels}.

(** The fields of [GraphGroup] and [AsyncGraphGroup] that the code below
    reads or writes, under their names.  Builders, allocators, mutexes, the
    thread pool and the scheduler carry no data of the model. *)
Record AsyncGraphGroup := mkAsyncGraphGroup {
  scale_lr : bool;
  average_batch_words : float;
  opt_ : OptimizerBase;
  first_ : bool;
  graphs_ : list Graph;
  devices_ : list Z;
  localSparseGrads_ : list SparseTensor;
  sparseGrads_ : list SparseTensor;
  tmpSparseDelta : list SparseTensor;
  localSparseDelta : list (list SparseTensor);
  globalVersionNumber : list Z;
  localVersionNumbers : list (list Z);
  fetchDropper : list (list GradientDrop);
  tmpTensor : list Tensor;
  params_ : list (list Tensor);
  grads_ : list Tensor;
  shardOpt_ : list OptimizerBase;
  shardSize_ : Z;
  paramsAvg_ : list Tensor;
  movingAvg_ : bool;
  mvDecay_ : float;
  drop_rate_ : double;
  history_size_ : Z;
  tau_ : Z;
}.

(** Assignments to the fields that change after construction. *)

Definition set_opt_ v (g : AsyncGraphGroup) : AsyncGraphGroup :=
  mkAsyncGraphGroup (scale_lr g) (average_batch_words g) v (first_ g)
    (graphs_ g) (devices_ g) (localSparseGrads_ g) (sparseGrads_ g)
    (tmpSparseDelta g) (localSparseDelta g) (globalVersionNumber g)
    (localVersionNumbers g) (fetchDropper g) (tmpTensor g) (params_ g)
    (grads_ g) (shardOpt_ g) (shardSize_ g) (paramsAvg_ g) (movingAvg_ g)
    (mvDecay_ g) (drop_rate_ g) (history_size_ g) (tau_ g).

Definition set_first_ v (g : AsyncGraphGroup) : AsyncGraphGroup :=
  mkAsyncGraphGroup (scale_lr g) (average_batch_words g) (opt_ g) v (graphs_
    g) (devices_ g) (localSparseGrads_ g) (sparseGrads_ g) (tmpSparseDelta
    g) (localSparseDelta g) (globalVersionNumber g) (localVersionNumbers g)
    (fetchDropper g) (tmpTensor g) (params_ g) (grads_ g) (shardOpt_ g)
    (shardSize_ g) (paramsAvg_ g) (movingAvg_ g) (mvDecay_ g) (drop_rate_ g)
    (history_size_ g) (tau_ g).

Definition set_graphs_ v (g : AsyncGraphGroup) : AsyncGraphGroup :=
  mkAsyncGraphGroup (scale_lr g) (average_batch_words g) (opt_ g) (first_ g)
    v (devices_ g) (localSparseGrads_ g) (sparseGrads_ g) (tmpSparseDelta g)
    (localSparseDelta g) (globalVersionNumber g) (localVersionNumbers g)
    (fetchDropper g) (tmpTensor g) (params_ g) (grads_ g) (shardOpt_ g)
    (shardSize_ g) (paramsAvg_ g) (movingAvg_ g) (mvDecay_ g) (drop_rate_ g)
    (history_size_ g) (tau_ g).

Definition set_localSparseGrads_ v (g : AsyncGraphGroup) : AsyncGraphGroup :=
  mkAsyncGraphGroup (scale_lr g) (average_batch_words g) (opt_ g) (first_ g)
    (graphs_ g) (devices_ g) v (sparseGrads_ g) (tmpSparseDelta g)
    (localSparseDelta g) (globalVersionNumber g) (localVersionNumbers g)
    (fetchDropper g) (tmpTensor g) (params_ g) (grads_ g) (shardOpt_ g)
    (shardSize_ g) (paramsAvg_ g) (movingAvg_ g) (mvDecay_ g) (drop_rate_ g)
    (history_size_ g) (tau_ g).

Definition set_sparseGrads_ v (g : AsyncGraphGroup) : AsyncGraphGroup :=
  mkAsyncGraphGroup (scale_lr g) (average_batch_words g) (opt_ g) (first_ g)
    (graphs_ g) (devices_ g) (localSparseGrads_ g) v (tmpSparseDelta g)
    (localSparseDelta g) (globalVersionNumber g) (localVersionNumbers g)
    (fetchDropper g) (tmpTensor g) (params_ g) (grads_ g) (shardOpt_ g)
    (shardSize_ g) (paramsAvg_ g) (movingAvg_ g) (mvDecay_ g) (drop_rate_ g)
    (history_size_ g) (tau_ g).

Definition set_tmpSparseDelta v (g : AsyncGraphGroup) : AsyncGraphGroup :=
  mkAsyncGraphGroup (scale_lr g) (average_batch_words g) (opt_ g) (first_ g)
    (graphs_ g) (devices_ g) (localSparseGrads_ g) (sparseGrads_ g) v
    (localSparseDelta g) (globalVersionNumber g) (localVersionNumbers g)
    (fetchDropper g) (tmpTensor g) (params_ g) (grads_ g) (shardOpt_ g)
    (shardSize_ g) (paramsAvg_ g) (movingAvg_ g) (mvDecay_ g) (drop_rate_ g)
    (history_size_ g) (tau_ g).

Definition set_localSparseDelta v (g : AsyncGraphGroup) : AsyncGraphGroup :=
  mkAsyncGraphGroup (scale_lr g) (average_batch_words g) (opt_ g) (first_ g)
    (graphs_ g) (devices_ g) (localSparseGrads_ g) (sparseGrads_ g)
    (tmpSparseDelta g) v (globalVersionNumber g) (localVersionNumbers g)
    (fetchDropper g) (tmpTensor g) (params_ g) (grads_ g) (shardOpt_ g)
    (shardSize_ g) (paramsAvg_ g) (movingAvg_ g) (mvDecay_ g) (drop_rate_ g)
    (history_size_ g) (tau_ g).

Definition set_globalVersionNumber v (g : AsyncGraphGroup) : AsyncGraphGroup :=
  mkAsyncGraphGroup (scale_lr g) (average_batch_words g) (opt_ g) (first_ g)
    (graphs_ g) (devices_ g) (localSparseGrads_ g) (sparseGrads_ g)
    (tmpSparseDelta g) (localSparseDelta g) v (localVersionNumbers g)
    (fetchDropper g) (tmpTensor g) (params_ g) (grads_ g) (shardOpt_ g)
    (shardSize_ g) (paramsAvg_ g) (movingAvg_ g) (mvDecay_ g) (drop_rate_ g)
    (history_size_ g) (tau_ g).

Definition set_localVersionNumbers v (g : AsyncGraphGroup) : AsyncGraphGroup :=
  mkAsyncGraphGroup (scale_lr g) (average_batch_words g) (opt_ g) (first_ g)
    (graphs_ g) (devices_ g) (localSparseGrads_ g) (sparseGrads_ g)
    (tmpSparseDelta g) (localSparseDelta g) (globalVersionNumber g) v
    (fetchDropper g) (tmpTensor g) (params_ g) (grads_ g) (shardOpt_ g)
    (shardSize_ g) (paramsAvg_ g) (movingAvg_ g) (mvDecay_ g) (drop_rate_ g)
    (history_size_ g) (tau_ g).

Definition set_fetchDropper v (g : AsyncGraphGroup) : AsyncGraphGroup :=
  mkAsyncGraphGroup (scale_lr g) (average_batch_words g) (opt_ g) (first_ g)
    (graphs_ g) (devices_ g) (localSparseGrads_ g) (sparseGrads_ g)
    (tmpSparseDelta g) (localSparseDelta g) (globalVersionNumber g)
    (localVersionNumbers g) v (tmpTensor g) (params_ g) (grads_ g)
    (shardOpt_ g) (shardSize_ g) (paramsAvg_ g) (movingAvg_ g) (mvDecay_ g)
    (drop_rate_ g) (history_size_ g) (tau_ g).

Definition set_tmpTensor v (g : AsyncGraphGroup) : AsyncGraphGroup :=
  mkAsyncGraphGroup (scale_lr g) (average_batch_words g) (opt_ g) (first_ g)
    (graphs_ g) (devices_ g) (localSparseGrads_ g) (sparseGrads_ g)
    (tmpSparseDelta g) (localSparseDelta g) (globalVersionNumber g)
    (localVersionNumbers g) (fetchDropper g) v (params_ g) (grads_ g)
    (shardOpt_ g) (shardSize_ g) (paramsAvg_ g) (movingAvg_ g) (mvDecay_ g)
    (drop_rate_ g) (history_size_ g) (tau_ g).

Definition set_params_ v (g : AsyncGraphGroup) : AsyncGraphGroup :=
  mkAsyncGraphGroup (scale_lr g) (average_batch_words g) (opt_ g) (first_ g)
    (graphs_ g) (devices_ g) (localSparseGrads_ g) (sparseGrads_ g)
    (tmpSparseDelta g) (localSparseDelta g) (globalVersionNumber g)
    (localVersionNumbers g) (fetchDropper g) (tmpTensor g) v (grads_ g)
    (shardOpt_ g) (shardSize_ g) (paramsAvg_ g) (movingAvg_ g) (mvDecay_ g)
    (drop_rate_ g) (history_size_ g) (tau_ g).

Definition set_grads_ v (g : AsyncGraphGroup) : AsyncGraphGroup :=
  mkAsyncGraphGroup (scale_lr g) (average_batch_words g) (opt_ g) (first_ g)
    (graphs_ g) (devices_ g) (localSparseGrads_ g) (sparseGrads_ g)
    (tmpSparseDelta g) (localSparseDelta g) (globalVersionNumber g)
    (localVersionNumbers g) (fetchDropper g) (tmpTensor g) (params_ g) v
    (shardOpt_ g) (shardSize_ g) (paramsAvg_ g) (movingAvg_ g) (mvDecay_ g)
    (drop_rate_ g) (history_size_ g) (tau_ g).

Definition set_shardOpt_ v (g : AsyncGraphGroup) : AsyncGraphGroup :=
  mkAsyncGraphGroup (scale_lr g) (average_batch_words g) (opt_ g) (first_ g)
    (graphs_ g) (devices_ g) (localSparseGrads_ g) (sparseGrads_ g)
    (tmpSparseDelta g) (localSparseDelta g) (globalVersionNumber g)
    (localVersionNumbers g) (fetchDropper g) (tmpTensor g) (params_ g)
    (grads_ g) v (shardSize_ g) (paramsAvg_ g) (movingAvg_ g) (mvDecay_ g)
    (drop_rate_ g) (history_size_ g) (tau_ g).

Definition set_shardSize_ v (g : AsyncGraphGroup) : AsyncGraphGroup :=
  mkAsyncGraphGroup (scale_lr g) (average_batch_words g) (opt_ g) (first_ g)
    (graphs_ g) (devices_ g) (localSparseGrads_ g) (sparseGrads_ g)
    (tmpSparseDelta g) (localSparseDelta g) (globalVersionNumber g)
    (localVersionNumbers g) (fetchDropper g) (tmpTensor g) (params_ g)
    (grads_ g) (shardOpt_ g) v (paramsAvg_ g) (movingAvg_ g) (mvDecay_ g)
    (drop_rate_ g) (history_size_ g) (tau_ g).

Definition set_paramsAvg_ v (g : AsyncGraphGroup) : AsyncGraphGroup :=
  mkAsyncGraphGroup (scale_lr g) (average_batch_words g) (opt_ g) (first_ g)
    (graphs_ g) (devices_ g) (localSparseGrads_ g) (sparseGrads_ g)
    (tmpSparseDelta g) (localSparseDelta g) (globalVersionNumber g)
    (localVersionNumbers g) (fetchDropper g) (tmpTensor g) (params_ g)
    (grads_ g) (shardOpt_ g) (shardSize_ g) v (movingAvg_ g) (mvDecay_ g)
    (drop_rate_ g) (history_size_ g) (tau_ g).

(** ** Construction *)

(** [history_size_] is 1 by default; the constructor replaces it by
    [devices_.size() * 1.5], computed in [double] and converted to [int],
    when [drop_rate_ > 0.0]. *)
Definition initial_history_size (drop_rate : double) (ndevices : Z)
  : option Z :=
  if FP.gt_zero drop_rate
  then FP.to_int (FP.f64_mul (FP.f64_of_Z ndevices) FP.f64_1_5)
  else Some 1.

(** [AsyncGraphGroup(options, args...)] *)
Definition AsyncGraphGroup_new (options : Config) : option AsyncGraphGroup :=
  let devices := opt_devices options in
  h ← initial_history_size (opt_drop_rate options) (Z.of_nat (length devices));
  Some
    {| scale_lr := opt_batch_flexible_lr options;
       average_batch_words := opt_batch_normal_words options;
       opt_ := Optimizer;
       first_ := true;
       graphs_ := (fun _ => mkGraph [] []) <$> devices;
       devices_ := devices;
       localSparseGrads_ := [];
       sparseGrads_ := [];
       tmpSparseDelta := [];
       localSparseDelta := [];
       globalVersionNumber := [];
       localVersionNumbers := [];
       fetchDropper := [];
       tmpTensor := [];
       params_ := replicate (Z.to_nat h) [];
       grads_ := [];
       shardOpt_ := (fun _ => Optimizer) <$> devices;
       shardSize_ := 0;
       paramsAvg_ := [];
       movingAvg_ := opt_moving_average options;
       mvDecay_ := FP.f32_of_f64 (opt_moving_decay options);
       drop_rate_ := opt_drop_rate options;
       history_size_ := h;
       tau_ := opt_tau options |}.

(** ** First execution: shards, gradients, shadow parameters, sparse buffers *)

(** The sizes the sharding loops give the shards, one per device:
    [size = min(shardSize_, totalSize); totalSize -= size]. *)
Fixpoint shard_sizes (shardSize : Z) (devices : list Z) (totalSize : Z)
  : list Z :=
  match devices with
  | [] => []
  | device :: rest =>
      let size := Z.min shardSize totalSize in
      size :: shard_sizes shardSize rest (totalSize - size)
  end.

(** The slices [subtensor(pos, size)] of [values] that the parameter
    sharding copies, one per device, [pos] advancing by [size]. *)
Fixpoint shard_slices (values : Tensor) (shardSize : Z) (devices : list Z)
    (totalSize pos : Z) : list Tensor :=
  match devices with
  | [] => []
  | device :: rest =>
      let size := Z.min shardSize totalSize in
      take (Z.to_nat size) (drop (Z.to_nat pos) values)
        :: shard_slices values shardSize rest (totalSize - size) (pos + size)
  end.

(** [shardSize_ = ceil(totalSize / devices_.size())]: the quotient is taken
    in [size_t], then passed through [ceil] on [double] and back to [int]. *)
Definition shard_size (totalSize ndevices : Z) : option Z :=
  q ← CInt.size_t_div (CInt.to_size_t totalSize) ndevices;
  FP.to_int (FP.f64_ceil (FP.f64_of_Z q)).

(** The inner loop [for(h_id = 0; h_id < history_size_; h_id++)] of the
    sharding: one copy of the slice is appended to each of the first
    [history_size_] rows of [params_]. *)
Definition push_back_history (h : Z) (param : option Tensor)
    (params : list (list Tensor)) : option (list (list Tensor)) :=
  if h <=? 0 then Some params
  else
    p ← param;
    if (Z.to_nat h <=? length params)%nat
    then Some (imap (fun i row =>
                       if (i <? Z.to_nat h)%nat then row ++ [p] else row)
                 params)
    else None.

(** The loop [for(auto device : devices_)] of the parameter sharding, with
    its running [totalSize] and [pos]. *)
Fixpoint shard_params (values : Tensor) (drop : bool) (h shardSize : Z)
    (devices : list Z) (totalSize pos : Z)
    (params : list (list Tensor)) (tmp : list Tensor)
  : option (list (list Tensor) * list Tensor) :=
  match devices with
  | [] => Some (params, tmp)
  | device :: rest =>
      let size := Z.min shardSize totalSize in
      let totalSize := totalSize - size in
      params ← push_back_history h (subtensor values pos size) params;
      let tmp := if drop then tmp ++ [allocate size] else tmp in
      shard_params values drop h shardSize rest totalSize (pos + size)
        params tmp
  end.

(** The loop that allocates [grads_]. *)
Fixpoint shard_grads (shardSize : Z) (devices : list Z) (totalSize : Z)
    (gs : list Tensor) : list Tensor :=
  match devices with
  | [] => gs
  | device :: rest =>
      let size := Z.min shardSize totalSize in
      shard_grads shardSize rest (totalSize - size) (gs ++ [allocate size])
  end.

(** The loop that allocates [paramsAvg_] and copies [params_[0][i]] into
    each shadow shard. *)
Fixpoint shard_avg (row0 : list Tensor) (shardSize : Z) (devices : list Z)
    (totalSize : Z) (i : nat) (avg : list Tensor) : option (list Tensor) :=
  match devices with
  | [] => Some avg
  | device :: rest =>
      let size := Z.min shardSize totalSize in
      p ← row0 !! i;
      shard_avg row0 shardSize rest (totalSize - size) (S i)
        (avg ++ [overwrite (allocate size) p])
  end.

(** [int sparseCap = totalSize * 1.2 * (1.0 - drop_rate_)] *)
Definition sparse_capacity (totalSize : Z) (drop_rate : double) : option Z :=
  FP.to_int
    (FP.f64_mul (FP.f64_mul (FP.f64_of_Z totalSize) FP.f64_1_2)
       (FP.f64_sub FP.f64_one drop_rate)).

(** [sparseCap / devices_.size()], a division in [size_t]. *)
Definition sparse_sub_capacity (sparseCap ndevices : Z) : option Z :=
  CInt.size_t_div (CInt.to_size_t sparseCap) ndevices.

(** The loop that allocates the sparse buffers, one round per device. *)
Fixpoint alloc_sparse (sparseCap subCap : Z) (n : nat) (devices : list Z)
    (g : AsyncGraphGroup) : AsyncGraphGroup :=
  match devices with
  | [] => g
  | device :: rest =>
      let g := set_sparseGrads_
                 (sparseGrads_ g ++ [sp_new sparseCap device]) g in
      let g := set_localSparseGrads_
                 (localSparseGrads_ g ++ [sp_new sparseCap device]) g in
      let g := set_tmpSparseDelta
                 (tmpSparseDelta g ++ [sp_new subCap device]) g in
      let g := set_localSparseDelta
                 (localSparseDelta g ++ [replicate n (sp_new subCap device)])
                 g in
      alloc_sparse sparseCap subCap n rest g
  end.

(** The first loop of the block: the graphs are built and run forward (by
    the collaborators, leaving [built]), and a version counter and a row of
    local versions are pushed for each graph. *)
Definition init_versions (built : list Graph) (g : AsyncGraphGroup)
  : option AsyncGraphGroup :=
  let n := length (graphs_ g) in
  if negb (length built =? n)%nat then None
  else
    let g := set_graphs_ built g in
    let g := set_globalVersionNumber
               (globalVersionNumber g ++ replicate n 0) g in
    Some (set_localVersionNumbers
            (localVersionNumbers g ++ replicate n (replicate n 0)) g).

(** [if(params_[0].size() == 0) { ... }] *)
Definition init_params (g : AsyncGraphGroup) : option AsyncGraphGroup :=
  row0 ← params_ g !! 0%nat;
  if (length row0 =? 0)%nat
  then
    graph0 ← graphs_ g !! 0%nat;
    let totalSize := Z.of_nat (length (vals graph0)) in
    s ← shard_size totalSize (Z.of_nat (length (devices_ g)));
    '(ps, tmp) ← shard_params (vals graph0) (FP.to_bool (drop_rate_ g))
                   (history_size_ g) s (devices_ g) totalSize 0 (params_ g)
                   (tmpTensor g);
    Some (set_tmpTensor tmp (set_params_ ps (set_shardSize_ s g)))
  else Some g.

(** [if(grads_.size() == 0) { ... }] *)
Definition init_grads (g : AsyncGraphGroup) : option AsyncGraphGroup :=
  if (length (grads_ g) =? 0)%nat
  then
    graph0 ← graphs_ g !! 0%nat;
    Some (set_grads_
            (shard_grads (shardSize_ g) (devices_ g)
               (Z.of_nat (length (vals graph0))) (grads_ g)) g)
  else Some g.

(** [if(movingAvg_) { if(paramsAvg_.size() == 0) { ... } }] *)
Definition init_avg (g : AsyncGraphGroup) : option AsyncGraphGroup :=
  if movingAvg_ g && (length (paramsAvg_ g) =? 0)%nat
  then
    graph0 ← graphs_ g !! 0%nat;
    row0 ← params_ g !! 0%nat;
    avg ← shard_avg row0 (shardSize_ g) (devices_ g)
            (Z.of_nat (length (vals graph0))) 0%nat (paramsAvg_ g);
    Some (set_paramsAvg_ avg g)
  else Some g.

(** [if(drop_rate_ && first_) { ... }] *)
Definition init_sparse (g : AsyncGraphGroup) : option AsyncGraphGroup :=
  if FP.to_bool (drop_rate_ g) && first_ g
  then
    graph0 ← graphs_ g !! 0%nat;
    cap ← sparse_capacity (Z.of_nat (length (vals graph0))) (drop_rate_ g);
    sub ← sparse_sub_capacity cap (Z.of_nat (length (devices_ g)));
    Some (alloc_sparse cap sub (length (devices_ g)) (devices_ g) g)
  else Some g.

(** The block [if(first_) { ... }] of [execute]. *)
Definition execute_first (built : list Graph) (g : AsyncGraphGroup)
  : option AsyncGraphGroup :=
  if negb (first_ g) then Some g
  else
    g ← init_versions built g;
    g ← init_params g;
    g ← init_grads g;
    g ← init_avg g;
    g ← init_sparse g;
    Some (set_first_ false g).

(** ** The store operations *)

(** [l[i]] for an [int] index. *)
Definition lookupZ {A} (l : list A) (i : Z) : option A :=
  if i <? 0 then None else l !! Z.to_nat i.

(** [params_[version][idx]] *)
Definition param_at (ps : list (list Tensor)) (version : Z) (idx : nat)
  : option Tensor :=
  row ← lookupZ ps version;
  row !! idx.

(** Writing [t] into the buffer [params_[version][idx]]. *)
Definition set_param_at (ps : list (list Tensor)) (version : Z) (idx : nat)
    (t : Tensor) : list (list Tensor) :=
  alter (fun row => <[idx := t]> row) (Z.to_nat version) ps.

(** The loop [for(idx = 0; idx < devices_.size(); idx++) { ...; pos +=
    shardSize_; }] that every store operation runs, one thread per round. *)
Fixpoint for_shards {A} (body : nat -> Z -> A -> option A) (n idx : nat)
    (pos shardSize : Z) (a : A) : option A :=
  match n with
  | O => Some a
  | S n' =>
      a' ← body idx pos a;
      for_shards body n' (S idx) (pos + shardSize) shardSize a'
  end.

(** [batch_words/average_batch_words] when [scale_lr], no factor
    otherwise. *)
Definition lr_scale (g : AsyncGraphGroup) (batch_words : Z) : option float :=
  if scale_lr g
  then Some (FP.f32_div (FP.f32_of_Z batch_words) (average_batch_words g))
  else None.

(** [decay = min(mvDecay_, (float)(batches + 1) / (float)(batches + 10))] *)
Definition moving_decay (mvDecay : float) (batches : Z) : float :=
  FP.f32_min mvDecay
    (FP.f32_div (FP.f32_of_Z (CInt.to_size_t (batches + 1)))
       (FP.f32_of_Z (CInt.to_size_t (batches + 10)))).

(** [updateMovingAverage(paramsAvg, params, batches)]: what it leaves in
    [paramsAvg]. *)
Definition updateMovingAverage (g : AsyncGraphGroup)
    (paramsAvg params : Tensor) (batches : Z) : Tensor :=
  Element_blend (moving_decay (mvDecay_ g) batches) paramsAvg params.

(** The tail shared by the two pushes: the optimizer step on
    [params_[latestVersion][idx]] with [grads_[idx] = grad], then the moving
    average.  [batches] is [scheduler_->numberOfBatches()]. *)
Definition apply_update (batch_words batches : Z) (idx : nat)
    (latestVersion : Z) (grad : Tensor) (g : AsyncGraphGroup)
  : option AsyncGraphGroup :=
  p ← param_at (params_ g) latestVersion idx;
  o ← shardOpt_ g !! idx;
  let '(o', p', grad') := opt_update o p grad (lr_scale g batch_words) in
  let p1 := overwrite p p' in
  let g := set_shardOpt_ (<[idx := o']> (shardOpt_ g)) g in
  let g := set_params_ (set_param_at (params_ g) latestVersion idx p1) g in
  let g := set_grads_ (<[idx := overwrite grad grad']> (grads_ g)) g in
  if movingAvg_ g
  then
    avg ← paramsAvg_ g !! idx;
    Some (set_paramsAvg_
            (<[idx := updateMovingAverage g avg p1 batches]> (paramsAvg_ g))
            g)
  else Some g.

(** The version step of a push: [pastVersion = globalVersionNumber[idx] %
    history_size_], [latestVersion = ++globalVersionNumber[idx] %
    history_size_], and the copy of the past buffer into the latest one.
    Returns [latestVersion] with the new state. *)
Definition bump_version (idx : nat) (g : AsyncGraphGroup)
  : option (Z * AsyncGraphGroup) :=
  v ← globalVersionNumber g !! idx;
  pastVersion ← CInt.int_rem v (history_size_ g);
  v' ← CInt.checked (v + 1);
  latestVersion ← CInt.int_rem v' (history_size_ g);
  let g := set_globalVersionNumber (<[idx := v']> (globalVersionNumber g)) g in
  latest ← param_at (params_ g) latestVersion idx;
  past ← param_at (params_ g) pastVersion idx;
  Some (latestVersion,
        set_params_
          (set_param_at (params_ g) latestVersion idx (overwrite latest past))
          g).

(** The thread body of [fetchParams]. *)
Definition fetchParams_shard (params : list Tensor) (idx : nat) (pos : Z)
    (oldParams : Tensor) : option Tensor :=
  p ← params !! idx;
  view ← subtensor oldParams pos (Z.of_nat (length p));
  Some (write_subtensor oldParams pos (overwrite view p)).

(** [fetchParams(oldParams, params)]: what it leaves in [oldParams]. *)
Definition fetchParams (g : AsyncGraphGroup) (oldParams : Tensor)
    (params : list Tensor) : option Tensor :=
  for_shards (fetchParams_shard params) (length (devices_ g)) 0 0
    (shardSize_ g) oldParams.

(** The thread body of [pushGradients]. *)
Definition pushGradients_shard (newGrads : Tensor) (batch_words batches : Z)
    (idx : nat) (pos : Z) (g : AsyncGraphGroup) : option AsyncGraphGroup :=
  grad ← grads_ g !! idx;
  src ← subtensor newGrads pos (Z.of_nat (length grad));
  let grad := overwrite grad src in
  '(latestVersion, g) ←
     (if 1 <? history_size_ g then bump_version idx g else Some (0, g));
  apply_update batch_words batches idx latestVersion grad g.

(** [pushGradients(newGrads, batch_words)] *)
Definition pushGradients (g : AsyncGraphGroup) (newGrads : Tensor)
    (batch_words batches : Z) : option AsyncGraphGroup :=
  for_shards (pushGradients_shard newGrads batch_words batches)
    (length (devices_ g)) 0 0 (shardSize_ g) g.

(** The history slot [currVersion] a sparse fetch subtracts, for a shard at
    version [gv] and a worker that last saw [lv]: [lv % history_size_], or
    [(1 + gv) % history_size_] when [gv - lv >= history_size_]. *)
Definition chosen_version (h gv lv : Z) : option Z :=
  currVersion ← CInt.int_rem lv h;
  gap ← CInt.checked (gv - lv);
  if h <=? gap
  then next ← CInt.checked (1 + gv); CInt.int_rem next h
  else Some currVersion.

(** The thread body of [sparseFetchParams]; the state is the group together
    with the destination [oldParams]. *)
Definition sparseFetchParams_shard (worker_id : Z) (idx : nat) (pos : Z)
    (s : AsyncGraphGroup * Tensor) : option (AsyncGraphGroup * Tensor) :=
  let '(g, oldParams) := s in
  gv ← globalVersionNumber g !! idx;
  latestVersion ← CInt.int_rem gv (history_size_ g);
  locals ← lookupZ (localVersionNumbers g) worker_id;
  lv ← locals !! idx;
  currVersion ← chosen_version (history_size_ g) gv lv;
  if gv =? lv then Some (g, oldParams)
  else
    tmp ← tmpTensor g !! idx;
    latest ← param_at (params_ g) latestVersion idx;
    curr ← param_at (params_ g) currVersion idx;
    let delta := Element_sub tmp latest curr in
    droppers ← lookupZ (fetchDropper g) worker_id;
    dropper ← droppers !! idx;
    tsd ← tmpSparseDelta g !! idx;
    let '(dropper', delta', tsd') :=
      dropGraph dropper delta tsd (drop_rate_ g) in
    deltas ← lookupZ (localSparseDelta g) worker_id;
    lsd ← deltas !! idx;
    let lsd' := sp_copyFrom lsd tsd' in
    grad ← grads_ g !! idx;
    view ← subtensor oldParams pos (Z.of_nat (length grad));
    let w := Z.to_nat worker_id in
    let g := set_tmpTensor (<[idx := overwrite delta delta']> (tmpTensor g)) g in
    let g := set_fetchDropper
               (<[w := <[idx := dropper']> droppers]> (fetchDropper g)) g in
    let g := set_tmpSparseDelta (<[idx := tsd']> (tmpSparseDelta g)) g in
    let g := set_localSparseDelta
               (<[w := <[idx := lsd']> deltas]> (localSparseDelta g)) g in
    let g := set_localVersionNumbers
               (<[w := <[idx := gv]> locals]> (localVersionNumbers g)) g in
    Some (g,
          write_subtensor oldParams pos
            (overwrite view (sp_scatterAdd lsd' view))).

(** [sparseFetchParams(oldParams, worker_id)] *)
Definition sparseFetchParams (g : AsyncGraphGroup) (oldParams : Tensor)
    (worker_id : Z) : option (AsyncGraphGroup * Tensor) :=
  if (length (graphs_ g) <? 2)%nat then Some (g, oldParams)
  else
    for_shards (sparseFetchParams_shard worker_id) (length (devices_ g)) 0 0
      (shardSize_ g) (g, oldParams).

(** The thread body of [sparsePush]. *)
Definition sparsePush_shard (newGrads : SparseTensor)
    (batch_words batches : Z) (idx : nat) (pos : Z) (g : AsyncGraphGroup)
  : option AsyncGraphGroup :=
  grad ← grads_ g !! idx;
  let subGrad :=
    sp_subtensor newGrads pos (Z.of_nat (length grad)) (Z.of_nat idx) in
  sg ← sparseGrads_ g !! idx;
  let sg := sp_copyFrom sg subGrad in
  let g := set_sparseGrads_ (<[idx := sg]> (sparseGrads_ g)) g in
  let grad := overwrite grad (sp_toDense sg grad (- pos)) in
  '(latestVersion, g) ← bump_version idx g;
  apply_update batch_words batches idx latestVersion grad g.

(** [opt_->update(graphs_[0], scale)]: the optimizer of the group applied to
    the values and gradients of the first graph. *)
Definition update_graph0 (batch_words : Z) (g : AsyncGraphGroup)
  : option AsyncGraphGroup :=
  graph0 ← graphs_ g !! 0%nat;
  let '(o', p', grad') :=
    opt_update (opt_ g) (vals graph0) (grads graph0) (lr_scale g batch_words)
  in
  let graph0' :=
    mkGraph (overwrite (vals graph0) p') (overwrite (grads graph0) grad') in
  Some (set_graphs_ (<[0%nat := graph0']> (graphs_ g)) (set_opt_ o' g)).

(** [sparsePush(newGrads, batch_words)] *)
Definition sparsePush (g : AsyncGraphGroup) (newGrads : SparseTensor)
    (batch_words batches : Z) : option AsyncGraphGroup :=
  if (length (graphs_ g) <? 2)%nat
  then update_graph0 batch_words g
  else
    for_shards (sparsePush_shard newGrads batch_words batches)
      (length (devices_ g)) 0 0 (shardSize_ g) g.

(** ** The task of [execute] *)

(** The group together with [static size_t i], the counter of the task
    lambda that hands out graph replicas. *)
Record Shared := mkShared { group : AsyncGraphGroup; static_i : Z }.

(** The [thread_local] variables of the task lambda ([graph], [t],
    [num_seen_words], [accGradients], [dropper], [my_id]), under a [tl_]
    prefix.  [tl_graph] is the index in [graphs_] of the replica the thread
    is bound to. *)
Record Worker := mkWorker {
  tl_graph : option nat;
  tl_t : Z;
  tl_num_seen_words : Z;
  tl_accGradients : option Tensor;
  tl_dropper : option GradientDrop;
  tl_my_id : Z;
}.

(** A thread that has not run the task yet. *)
Definition Worker_new : Worker := mkWorker None 0 0 None None 0.

(** What the collaborators contribute to one run of the task: the gradient
    [backward] leaves for the fetched values, [batch->words()],
    [scheduler_->numberOfBatches()], and, when a scheduler is set, its
    answers to [saving()] and [validating()]. *)
Record Step := mkStep {
  backward : Tensor -> Tensor;
  words : Z;
  batches : Z;
  scheduler : option (bool * bool);
}.

Inductive FetchKind := DenseFetch | SparseFetch.
Inductive PushKind := DensePush | SparsePush.

(** What one run of the task did: the fetch from the parameter store, if
    any; the gradient of this batch; and, if it pushed, the kind of push,
    the dense gradient it handed over and the word count. *)
Record Trace := mkTrace {
  tr_fetch : option FetchKind;
  tr_grads : Tensor;
  tr_push : option (PushKind * Tensor * Z);
}.

(** [if(!graph) { my_id = i; graph = graphs_[i]; builder = builders_[i++]; }]
    and [if(!dropper) { ...; fetchDropper.push_back(tmp); }] *)
Definition bind_worker (s : Shared) (w : Worker) : option (Shared * Worker) :=
  '(s, w) ←
    match tl_graph w with
    | Some _ => Some (s, w)
    | None =>
        _ ← lookupZ (graphs_ (group s)) (static_i s);
        Some (mkShared (group s) (CInt.to_size_t (static_i s + 1)),
              mkWorker (Some (Z.to_nat (static_i s))) (tl_t w)
                (tl_num_seen_words w) (tl_accGradients w) (tl_dropper w)
                (static_i s))
    end;
  match tl_dropper w with
  | Some _ => Some (s, w)
  | None =>
      let g := group s in
      let tmp := replicate (length (devices_ g)) GradientDrop_new in
      Some (mkShared (set_fetchDropper (fetchDropper g ++ [tmp]) g)
              (static_i s),
            mkWorker (tl_graph w) (tl_t w) (tl_num_seen_words w)
              (tl_accGradients w) (Some GradientDrop_new) (tl_my_id w))
  end.

(** Which fetch the task performs at local step [t]: the block
    [if(t % tau_ == 0) { if(drop_rate_ && t > 0) ... else ... }]. *)
Definition fetch_kind (g : AsyncGraphGroup) (t : Z)
  : option (option FetchKind) :=
  r ← CInt.size_t_rem t (tau_ g);
  if r =? 0
  then Some (Some (if FP.to_bool (drop_rate_ g) && (0 <? t)
                   then SparseFetch else DenseFetch))
  else Some None.

(** The fetch itself, into the values of graph [gi]. *)
Definition task_fetch (gi : nat) (w : Worker) (g : AsyncGraphGroup)
  : option (AsyncGraphGroup * option FetchKind) :=
  k ← fetch_kind g (tl_t w);
  graph ← graphs_ g !! gi;
  match k with
  | None => Some (g, None)
  | Some SparseFetch =>
      '(g, v) ← sparseFetchParams g (vals graph) (tl_my_id w);
      Some (set_graphs_ (<[gi := mkGraph v (grads graph)]> (graphs_ g)) g,
            Some SparseFetch)
  | Some DenseFetch =>
      gv ← lookupZ (globalVersionNumber g) (tl_my_id w);
      version ← CInt.int_rem gv (history_size_ g);
      row ← lookupZ (params_ g) version;
      v ← fetchParams g (vals graph) row;
      Some (set_graphs_ (<[gi := mkGraph v (grads graph)]> (graphs_ g)) g,
            Some DenseFetch)
  end.

(** The block [if(tau_ > 1) { ... } else { ... }] and [t++]: the thread's
    variables afterwards and the tensor [gradients] refers to. *)
Definition accumulate (tau : Z) (graph_grads : Tensor) (batch_words : Z)
    (w : Worker) : option (Worker * Tensor) :=
  '(acc, gradients, seen) ←
    (if 1 <? tau
     then
       acc ← (if tl_t w =? 0
              then Some (set_zero graph_grads)
              else tl_accGradients w);
       let acc := Element_add acc graph_grads in
       Some (Some acc, acc,
             CInt.to_size_t (tl_num_seen_words w + batch_words))
     else Some (tl_accGradients w, graph_grads, batch_words));
  Some (mkWorker (tl_graph w) (CInt.to_size_t (tl_t w + 1)) seen acc
          (tl_dropper w) (tl_my_id w),
        gradients).

(** Storing [gradients] back where it lives: the accumulator when
    [tau_ > 1], the gradients of the graph otherwise. *)
Definition store_gradients (gi : nat) (gradients : Tensor)
    (s : AsyncGraphGroup * Worker) : AsyncGraphGroup * Worker :=
  let '(g, w) := s in
  if 1 <? tau_ g
  then (g, mkWorker (tl_graph w) (tl_t w) (tl_num_seen_words w)
             (Some gradients) (tl_dropper w) (tl_my_id w))
  else (set_graphs_
          (alter (fun graph => mkGraph (vals graph) gradients) gi (graphs_ g))
          g, w).

(** The block [if(t % tau_ == 0) { push; num_seen_words = 0;
    if(tau_ > 1) gradients->set(0); }] after [t++].  [gradients] is the
    tensor the variable of that name refers to. *)
Definition task_push (gi : nat) (gradients : Tensor) (nbatches : Z)
    (g : AsyncGraphGroup) (w : Worker)
  : option (AsyncGraphGroup * Worker * option (PushKind * Tensor * Z)) :=
  r ← CInt.size_t_rem (tl_t w) (tau_ g);
  if r =? 0
  then
    '(g, w, kind) ←
      (if FP.to_bool (drop_rate_ g)
       then
         dropper ← tl_dropper w;
         lsg ← lookupZ (localSparseGrads_ g) (tl_my_id w);
         let '(dropper', gradients', lsg') :=
           dropGraph dropper gradients lsg (drop_rate_ g) in
         let g := set_localSparseGrads_
                    (<[Z.to_nat (tl_my_id w) := lsg']> (localSparseGrads_ g))
                    g in
         let w := mkWorker (tl_graph w) (tl_t w) (tl_num_seen_words w)
                    (tl_accGradients w) (Some dropper') (tl_my_id w) in
         let '(g, w) :=
           store_gradients gi (overwrite gradients gradients') (g, w) in
         g ← sparsePush g lsg' (tl_num_seen_words w) nbatches;
         Some (g, w, SparsePush)
       else
         g ← pushGradients g gradients (tl_num_seen_words w) nbatches;
         Some (g, w, DensePush));
    let pushed := (kind, gradients, tl_num_seen_words w) in
    let acc :=
      if 1 <? tau_ g then set_zero <$> tl_accGradients w
      else tl_accGradients w in
    Some (g,
          mkWorker (tl_graph w) (tl_t w) 0 acc (tl_dropper w) (tl_my_id w),
          Some pushed)
  else Some (g, w, None).

(** The scheduler block: before [save] and before [validate] the shadow
    parameters are fetched into the graph when [movingAvg_] is set. *)
Definition task_scheduler (gi : nat) (sched : option (bool * bool))
    (g : AsyncGraphGroup) : option AsyncGraphGroup :=
  match sched with
  | None => Some g
  | Some (saving, validating) =>
      let pull (go : bool) (g : AsyncGraphGroup) :=
        if go && movingAvg_ g
        then
          graph ← graphs_ g !! gi;
          v ← fetchParams g (vals graph) (paramsAvg_ g);
          Some (set_graphs_ (<[gi := mkGraph v (grads graph)]> (graphs_ g)) g)
        else Some g in
      g ← pull saving g;
      pull validating g
  end.

(** The task lambda of [execute], run once by a thread with variables [w]. *)
Definition task (step : Step) (s : Shared) (w : Worker)
  : option (Shared * Worker * Trace) :=
  '(s, w) ← bind_worker s w;
  gi ← tl_graph w;
  '(g, fetched) ← task_fetch gi w (group s);
  graph ← graphs_ g !! gi;
  let graph_grads := overwrite (grads graph) (backward step (vals graph)) in
  let g := set_graphs_
             (<[gi := mkGraph (vals graph) graph_grads]> (graphs_ g)) g in
  '(w, gradients) ← accumulate (tau_ g) graph_grads (words step) w;
  '(g, w, pushed) ← task_push gi gradients (batches step) g w;
  g ← task_scheduler gi (scheduler step) g;
  Some (mkShared g (static_i s), w, mkTrace fetched graph_grads pushed).

(** ** Interleavings *)

(** The threads of concurrent store operations interleave shard by shard:
    each thread body runs under the mutex of its shard.  A step of the group
    is therefore one thread body, or one of the writes the task makes
    outside the store operations.

    [Tags] is a ghost table for the ring of history buffers: the version
    number of the parameters that [params_[h][idx]] holds. *)

(** The ghost effect of [bump_version]: the buffer it makes the latest one
    holds the new version. *)
Definition tag_bump (g : AsyncGraphGroup) (idx : nat) (tags : Tags) : Tags :=
  match globalVersionNumber g !! idx with
  | Some v =>
      alter (fun row => <[idx := v + 1]> row)
        (Z.to_nat (Z.rem (v + 1) (history_size_ g))) tags
  | None => tags
  end.

(** The version held by the history buffer [slot] of shard [idx]. *)
Definition tag_at (tags : Tags) (slot : Z) (idx : nat) : option Z :=
  row ← lookupZ tags slot;
  row !! idx.

Inductive shard_step
  : AsyncGraphGroup * Tags -> AsyncGraphGroup * Tags -> Prop :=
| step_pushGradients g tags newGrads batch_words nbatches idx pos g' :
    (idx < length (devices_ g))%nat ->
    pushGradients_shard newGrads batch_words nbatches idx pos g = Some g' ->
    shard_step (g, tags)
      (g', if 1 <? history_size_ g then tag_bump g idx tags else tags)
| step_sparsePush g tags newGrads batch_words nbatches idx pos g' :
    (idx < length (devices_ g))%nat ->
    (2 <= length (graphs_ g))%nat ->
    sparsePush_shard newGrads batch_words nbatches idx pos g = Some g' ->
    shard_step (g, tags) (g', tag_bump g idx tags)
| step_update_graph0 g tags batch_words g' :
    (length (graphs_ g) < 2)%nat ->
    update_graph0 batch_words g = Some g' ->
    shard_step (g, tags) (g', tags)
| step_sparseFetchParams g tags worker_id idx pos oldParams g' oldParams' :
    (idx < length (devices_ g))%nat ->
    (2 <= length (graphs_ g))%nat ->
    sparseFetchParams_shard worker_id idx pos (g, oldParams)
      = Some (g', oldParams') ->
    shard_step (g, tags) (g', tags)
| step_bind g tags i w g' i' w' :
    bind_worker (mkShared g i) w = Some (mkShared g' i', w') ->
    shard_step (g, tags) (g', tags)
| step_graphs g tags gs :
    length gs = length (graphs_ g) ->
    shard_step (g, tags) (set_graphs_ gs g, tags)
| step_localSparseGrads g tags k x :
    shard_step (g, tags)
      (set_localSparseGrads_ (<[k := x]> (localSparseGrads_ g)) g, tags).

(** The states a run can be in: those of a group that was constructed and
    executed for the first time, the ring holding version 0 everywhere, and
    every state a step leads to from there. *)
Inductive reachable : AsyncGraphGroup -> Tags -> Prop :=
| reach_first options built g0 g :
    AsyncGraphGroup_new options = Some g0 ->
    execute_first built g0 = Some g ->
    reachable g
      (replicate (Z.to_nat (history_size_ g))
         (replicate (length (devices_ g)) 0))
| reach_step g tags g' tags' :
    reachable g tags ->
    shard_step (g, tags) (g', tags') ->
    reachable g' tags'.

(** The group right after its first execution, in closed form: [s] is the
    shard size, [cap] and [sub] the two capacities of the sparse buffers
    (used when the drop rate is not zero). *)
Definition first_state (options : Config) (built : list Graph)
    (s cap sub : Z) : AsyncGraphGroup :=
  let devices := opt_devices options in
  let n := length devices in
  let values := default [] (vals <$> built !! 0%nat) in
  let total := Z.of_nat (length values) in
  let sizes := shard_sizes s devices total in
  let row := shard_slices values s devices total 0 in
  let drop := FP.to_bool (opt_drop_rate options) in
  let h := default 0 (initial_history_size (opt_drop_rate options)
                        (Z.of_nat n)) in
  {| scale_lr := opt_batch_flexible_lr options;
     average_batch_words := opt_batch_normal_words options;
     opt_ := Optimizer;
     first_ := false;
     graphs_ := built;
     devices_ := devices;
     localSparseGrads_ := if drop then sp_new cap <$> devices else [];
     sparseGrads_ := if drop then sp_new cap <$> devices else [];
     tmpSparseDelta := if drop then sp_new sub <$> devices else [];
     localSparseDelta :=
       if drop then (fun d => replicate n (sp_new sub d)) <$> devices else [];
     globalVersionNumber := replicate n 0;
     localVersionNumbers := replicate n (replicate n 0);
     fetchDropper := [];
     tmpTensor := if drop then allocate <$> sizes else [];
     params_ := replicate (Z.to_nat h) row;
     grads_ := allocate <$> sizes;
     shardOpt_ := (fun _ => Optimizer) <$> devices;
     shardSize_ := s;
     paramsAvg_ := if opt_moving_average options then row else [];
     movingAvg_ := opt_moving_average options;
     mvDecay_ := FP.f32_of_f64 (opt_moving_decay options);
     drop_rate_ := opt_drop_rate options;
     history_size_ := h;
     tau_ := opt_tau options |}.

(** A push, dense or sparse, with its arguments. *)
Inductive Push :=
| Dense (newGrads : Tensor) (batch_words nbatches : Z)
| Sparse (newGrads : SparseTensor) (batch_words nbatches : Z).

Definition push (g : AsyncGraphGroup) (p : Push) : option AsyncGraphGroup :=
  match p with
  | Dense newGrads batch_words nbatches =>
      pushGradients g newGrads batch_words nbatches
  | Sparse newGrads batch_words nbatches =>
      sparsePush g newGrads batch_words nbatches
  end.

(** Whether the push runs [++globalVersionNumber[idx]]: the dense one under
    [history_size_ > 1], the sparse one unless [graphs_.size() < 2]. *)
Definition bumps (g : AsyncGraphGroup) (p : Push) : bool :=
  match p with
  | Dense _ _ _ => 1 <? history_size_ g
  | Sparse _ _ _ => negb (length (graphs_ g) <? 2)%nat
  end.

(** How many of the pushes [ps] run [++globalVersionNumber[idx]]. *)
Definition bump_count (g : AsyncGraphGroup) (ps : list Push) : Z :=
  Z.of_nat (length (List.filter (bumps g) ps)).

(** Pushes one after the other. *)
Fixpoint pushes (g : AsyncGraphGroup) (ps : list Push)
  : option AsyncGraphGroup :=
  match ps with
  | [] => Some g
  | p :: ps => g' ← push g p; pushes g' ps
  end.

(** Runs of the task by one thread, one per step, with their traces. *)
Fixpoint run_task (steps : list Step) (s : Shared) (w : Worker)
  : option (Shared * Worker * list Trace) :=
  match steps with
  | [] => Some (s, w, [])
  | step :: steps =>
      '(s, w, tr) ← task step s w;
      '(s, w, trs) ← run_task steps s w;
      Some (s, w, tr :: trs)
  end.


End Model.

Arguments AsyncGraphGroup : clear implicits.
Arguments Shared : clear implicits.
Arguments Worker : clear implicits.
Arguments Trace : clear implicits.
Arguments Push : clear implicits.

(** * Saving *)

(** [std::string::replace(pos, len, str)]: the [len] characters from [pos]
    on, or those there are, give way to [str]; a [pos] behind the end of
    the string throws [std::out_of_range]. *)
Definition replace (s : string) (pos len : Z) (str : string)
  : option string :=
  let size := Z.of_nat (String.length s) in
  if size <? pos then None
  else
    let n := Z.min len (size - pos) in
    Some (String.substring 0 (Z.to_nat pos) s
          +:+ str
          +:+ String.substring (Z.to_nat (pos + n))
                (Z.to_nat (size - (pos + n))) s).

(** [std::to_string] of a [size_t]. *)
Definition to_string (n : Z) : string :=
  DecimalString.NilZero.string_of_uint (N.to_uint (Z.to_N n)).

(** The files [save(graph, final)] has the builder write, in order, the
    same in [SingletonGraph] and in [AsyncGraphGroup]: the model file, and
    before it, unless the save is final or the option [overwrite] is set,
    a copy for the iteration whose name is [name] with its last four
    characters replaced.  [numberOfBatches] is the scheduler's count as a
    string, or [unknown] (in the source, when no scheduler is set). *)
Definition save_names (overwrite : bool) (name : string) (final : bool)
    (numberOfBatches : string) : option (list string) :=
  if overwrite then Some [name]
  else if final then Some [name]
  else
    nameOverwrite ←
      replace name (CInt.to_size_t (Z.of_nat (String.length name) - 4)) 4
        (".iter" +:+ numberOfBatches +:+ ".npz");
    Some [nameOverwrite; name].

(** * [SingletonGraph]

    The group of one graph, without shards and versions.  The model is that
    of runs without the option [multinode], in which the pointer
    [multinode] stays null and none of its hooks runs. *)

Module Singleton.
Section Model.
Context `{K : Kernels}.

(** The options [overwrite] and [model], under an [opt_] prefix, and the
    members of the class.
    [mvAvgGraph_] holds the values of the parameters of the shadow graph,
    and is [None] while the pointer is null. *)
Record SingletonGraph := mkSingletonGraph {
  opt_overwrite : bool;
  opt_model : string;
  scale_lr : bool;
  average_batch_words : float;
  opt_ : OptimizerBase;
  graph_ : Graph;
  mvAvgGraph_ : option Tensor;
  mvAvg_ : bool;
  mvDecay_ : float;
}.

(** The constructor; [built] is the graph as the builder leaves it at the
    first run. *)
Definition SingletonGraph_new (options : Config) (overwrite : bool)
    (model : string) (built : Graph) : SingletonGraph :=
  {| opt_overwrite := overwrite;
     opt_model := model;
     scale_lr := opt_batch_flexible_lr options;
     average_batch_words := opt_batch_normal_words options;
     opt_ := Optimizer;
     graph_ := built;
     mvAvgGraph_ := None;
     mvAvg_ := opt_moving_average options;
     mvDecay_ := FP.f32_of_f64 (opt_moving_decay options) |}.

(** What one run did for the scheduler: the files saved, with the values
    written to each, and the values handed to the validation. *)
Record Trace := mkTrace {
  tr_saved : list (string * Tensor);
  tr_validated : option Tensor;
}.

(** [updateMovingAverage(mvAvgParams, params, batches)]: what it leaves in
    [mvAvgParams]. *)
Definition updateMovingAverage (sg : SingletonGraph)
    (mvAvgParams params : Tensor) (batches : Z) : Tensor :=
  Element_blend (moving_decay (mvDecay_ sg) batches) mvAvgParams params.

(** [save(graph, final)]: the builder is given [graph_] for every file,
    whatever the argument [graph] is. *)
Definition save_graph (sg : SingletonGraph) (graph : option Tensor)
    (final : bool) (numberOfBatches : string)
  : option (list (string * Tensor)) :=
  names ← save_names (opt_overwrite sg) (opt_model sg) final numberOfBatches;
  Some ((fun name => (name, vals (graph_ sg))) <$> (names : list string)).

(** [save(final)] *)
Definition save (sg : SingletonGraph) (final : bool)
    (numberOfBatches : string) : option (list (string * Tensor)) :=
  let saveGraph :=
    if mvAvg_ sg then mvAvgGraph_ sg else Some (vals (graph_ sg)) in
  save_graph sg saveGraph final numberOfBatches.

(** [execute(batch)]: the gradient of the batch, the optimizer's update,
    the moving average, the scheduler.  The step count of the moving
    average is read from the scheduler, which has to be set by then. *)
Definition execute (step : Step) (sg : SingletonGraph)
  : option (SingletonGraph * Trace) :=
  let graph := graph_ sg in
  let graph_grads := overwrite (grads graph) (backward step (vals graph)) in
  let scale :=
    if scale_lr sg
    then Some (FP.f32_div (FP.f32_of_Z (words step))
                 (average_batch_words sg))
    else None in
  let '(o', p', grad') :=
    opt_update (opt_ sg) (vals graph) graph_grads scale in
  let graph :=
    mkGraph (overwrite (vals graph) p') (overwrite graph_grads grad') in
  mvAvgGraph ←
    (if mvAvg_ sg
     then
       match mvAvgGraph_ sg with
       | None => Some (Some (vals graph))
       | Some avg =>
           _ ← scheduler step;
           Some (Some (updateMovingAverage sg avg (vals graph)
                         (batches step)))
       end
     else Some (mvAvgGraph_ sg));
  let sg :=
    mkSingletonGraph (opt_overwrite sg) (opt_model sg) (scale_lr sg)
      (average_batch_words sg) o' graph mvAvgGraph (mvAvg_ sg)
      (mvDecay_ sg) in
  match scheduler step with
  | None => Some (sg, mkTrace [] None)
  | Some (saving, validating) =>
      saved ←
        (if saving then save sg false (to_string (batches step))
         else Some []);
      let validated :=
        if validating
        then if mvAvg_ sg then mvAvgGraph_ sg else Some (vals (graph_ sg))
        else None in
      Some (sg, mkTrace saved validated)
  end.

(** Runs one after the other, with their traces. *)
Fixpoint run (steps : list Step) (sg : SingletonGraph)
  : option (SingletonGraph * list Trace) :=
  match steps with
  | [] => Some (sg, [])
  | step :: steps =>
      '(sg, tr) ← execute step sg;
      '(sg, trs) ← run steps sg;
      Some (sg, tr :: trs)
  end.

End Model.

Arguments SingletonGraph : clear implicits.

End Singleton.
(** * Regularisers

    The classes of the regulariser header that [graph_group.h] carries:
    [IRegulariser] with its map of partial penalties, the five classes
    that derive from it and [RegulariserFactory].

    The expressions are nodes of the expression graph, whose code lives
    outside this header; its operators are the fields of the class
    [Engine].  An operator gives [None] where the engine aborts (shapes
    that do not fit, an axis or a dimension that does not exist).  An
    [Expr] is a shared pointer to a node, [None] for the null pointer;
    handing a null pointer to an operator, or calling a member through it,
    is undefined, and the model returns [None] there as well. *)

Module Regulariser.

Class Engine := {
  Node : Type;
  (** [W->name()] *)
  name : Node -> string;
  (** [W->shape()[i]] *)
  shape : Node -> Z -> option Z;
  abs : Node -> option Node;
  sqrt : Node -> option Node;
  square : Node -> option Node;
  (** [sum(a, ax)], the axis an [int] *)
  sum : Node -> Z -> option Node;
  (** [a + b] and [a * b] on expressions *)
  plus : Node -> Node -> option Node;
  times : Node -> Node -> option Node;
  (** [x * a] for a [float] [x] *)
  scaled : FP.float -> Node -> option Node;
  reshape : Node -> list Z -> option Node;
  transpose : Node -> list Z -> option Node;
}.

(** [a * b] and [a / b] on [int]: overflow and a zero divisor are
    undefined, the quotient is truncated. *)
Definition int_mul (a b : Z) : option Z := CInt.checked (a * b).

Definition int_div (a b : Z) : option Z :=
  if b =? 0 then None else CInt.checked (Z.quot a b).

(** The conversion of a [size_t] to [int], which keeps the low 32 bits. *)
Definition int_of_size_t (z : Z) : Z := (z + 2 ^ 31) mod 2 ^ 32 - 2 ^ 31.

(** [std::sqrt] of an [int], a [double]. *)
Definition sqrt_int (n : Z) : FP.double := SFsqrt 53 1024 (FP.f64_of_Z n).

(** [std::map<std::string, T>]: the entries in the order of their keys,
    which is the order of iteration.  [emplace] keeps an entry that has
    the key already. *)
Fixpoint emplace {A : Type} (key : string) (value : A)
    (m : list (string * A)) : list (string * A) :=
  match m with
  | [] => [(key, value)]
  | (k, v) :: m' =>
      match String.compare key k with
      | Lt => (key, value) :: m
      | Eq => m
      | Gt => (k, v) :: emplace key value m'
      end
  end.

Section Model.
Context `{E : Engine}.

Definition Expr : Type := option Node.

(** The class of a regulariser object, which selects its
    [calculatePenalty]. *)
Inductive Kind :=
  | LhalfRegulariser
  | L1Regulariser
  | L2Regulariser
  | ElasticRegulariser
  | GroupLassoRegulariser.

(** [options_] is read for the option [transformer-head-dim] only, [None]
    when the option is not set. *)
Record IRegulariser := mkIRegulariser {
  kind : Kind;
  transformer_head_dim : option Z;
  lambda_ : FP.float;
  type_ : string;
  partialPenalties_ : list (string * Expr);
}.

Definition set_partialPenalties (r : IRegulariser)
    (m : list (string * Expr)) : IRegulariser :=
  {| kind := kind r;
     transformer_head_dim := transformer_head_dim r;
     lambda_ := lambda_ r;
     type_ := type_ r;
     partialPenalties_ := m |}.

(** The constructor, the same in the five classes. *)
Definition IRegulariser_new (k : Kind) (head_dim : option Z)
    (lambda : FP.float) (type : string) : IRegulariser :=
  {| kind := k;
     transformer_head_dim := head_dim;
     lambda_ := lambda;
     type_ := type;
     partialPenalties_ := [] |}.

Definition getLambda (r : IRegulariser) : FP.float := lambda_ r.

Definition getType (r : IRegulariser) : string := type_ r.

Definition getPartialPenalties (r : IRegulariser) : list (string * Expr) :=
  partialPenalties_ r.

Definition clear (r : IRegulariser) : IRegulariser :=
  set_partialPenalties r [].

(** One round of the loop of [getTotalPenalty]. *)
Definition add_penalty (lambda : FP.float) (totalPenalty : Expr)
    (partialPenalty : string * Expr) : option Expr :=
  match totalPenalty with
  | None => Some partialPenalty.2
  | Some t =>
      p ← partialPenalty.2;
      s ← scaled lambda p;
      a ← plus t s;
      Some (Some a)
  end.

Fixpoint add_penalties (lambda : FP.float) (totalPenalty : Expr)
    (m : list (string * Expr)) : option Expr :=
  match m with
  | [] => Some totalPenalty
  | partialPenalty :: m' =>
      t ← add_penalty lambda totalPenalty partialPenalty;
      add_penalties lambda t m'
  end.

Definition getTotalPenalty (r : IRegulariser) : option Node :=
  totalPenalty ← add_penalties (lambda_ r) None (partialPenalties_ r);
  t ← totalPenalty;
  scaled (lambda_ r) t.

(** [LhalfRegulariser::calculatePenalty], the expression [p]. *)
Definition Lhalf_penalty (W : Node) : option Node :=
  a ← abs W;
  q ← sqrt a;
  s ← sum q (-1);
  t ← sum s (-2);
  square t.

(** [L1Regulariser::calculatePenalty], the expression [p]. *)
Definition L1_penalty (W : Node) : option Node :=
  a ← abs W;
  s ← sum a (-1);
  sum s (-2).

(** [L2Regulariser::calculatePenalty], the expression [p]. *)
Definition L2_penalty (W : Node) : option Node :=
  m ← times W W;
  s ← sum m (-1);
  sum s (-2).

(** [ElasticRegulariser::calculatePenalty], the expression [p]. *)
Definition Elastic_penalty (W : Node) : option Node :=
  p1 ← L1_penalty W;
  p2 ← L2_penalty W;
  plus p1 p2.

(** [axisL2] and [axisL1], which are [size_t]. *)
Definition axes (rows : bool) : Z * Z :=
  if negb rows
  then (CInt.to_size_t (-2), CInt.to_size_t (-1))
  else (CInt.to_size_t (-1), CInt.to_size_t (-2)).

Definition rowcolRootPenalty (W : Node) (b : Expr) (rows : bool)
  : option Node :=
  let '(axisL2, axisL1) := axes rows in
  a ← abs W;
  q ← sqrt a;
  WSum ← sum q (int_of_size_t axisL2);
  WSum ← (if negb rows
          then b' ← b; ab ← abs b'; sb ← sqrt ab; plus WSum sb
          else Some WSum);
  sq ← square WSum;
  p ← sum sq (int_of_size_t axisL1);
  d ← shape W 0;
  scaled (FP.f32_of_f64 (sqrt_int d)) p.

Definition layerPenalty (W : Node) (b : Expr) (rows : bool)
  : option Node :=
  let '(axisL2, axisL1) := axes rows in
  ww ← times W W;
  WSum ← sum ww (int_of_size_t axisL2);
  WSum ← (if negb rows
          then b' ← b; bb ← times b' b'; plus WSum bb
          else Some WSum);
  s ← sum WSum (int_of_size_t axisL1);
  p ← sqrt s;
  d ← shape W 0;
  scaled (FP.f32_of_f64 (sqrt_int d)) p.

Definition rowcolPenalty (W : Node) (b : Expr) (rows : bool)
  : option Node :=
  let '(axisL2, axisL1) := axes rows in
  ww ← times W W;
  WSum ← sum ww (int_of_size_t axisL2);
  WSum ← (if negb rows
          then b' ← b; bb ← times b' b'; plus WSum bb
          else Some WSum);
  q ← sqrt WSum;
  p ← sum q (int_of_size_t axisL1);
  d ← (if negb rows then shape W 0 else shape W 1);
  scaled (FP.f32_of_f64 (sqrt_int d)) p.

Definition headPenalty (head_dim : option Z) (W : Node) (b : Expr)
    (rows : bool) : option Node :=
  h ← shape W 0;
  blockH ← shape W 0;
  blockW ← head_dim;
  d1 ← shape W 1;
  size ← int_mul h d1;
  bwh ← int_mul blockW h;
  innerShape ← int_div size bwh;
  bhw ← int_mul blockH blockW;
  blockNum ← int_div size bhw;
  hb ← int_div h blockH;
  reshaped ← reshape W [hb; blockH; innerShape; blockW];
  transposed ← transpose reshaped [0; 2; 1; 3];
  heads ← reshape transposed [1; blockNum; blockH; blockW];
  hh ← times heads heads;
  s ← sum hh (-2);
  WSum ← sum s (-1);
  WSum ← (if negb rows
          then
            b' ← b;
            bd ← shape b' 1;
            n ← int_div bd blockW;
            bBlocks ← reshape b' [n; 1; blockW];
            bb ← times bBlocks bBlocks;
            bSum ← sum bb (-1);
            plus WSum bSum
          else Some WSum);
  q ← sqrt WSum;
  p ← sum q (-3);
  scaled (FP.f32_of_f64 (sqrt_int bhw)) p.

(** [GroupLassoRegulariser::calculatePenalty], the expression [p], which
    stays null for a type that is none of the four. *)
Definition GroupLasso_penalty (r : IRegulariser) (W : Node) (b : Expr)
    (rows : bool) : option Expr :=
  if String.eqb (type_ r) "rowcol" then Some <$> rowcolPenalty W b rows
  else if String.eqb (type_ r) "heads"
  then Some <$> headPenalty (transformer_head_dim r) W b rows
  else if String.eqb (type_ r) "rowcol-root"
  then Some <$> rowcolRootPenalty W b rows
  else if String.eqb (type_ r) "layer" then Some <$> layerPenalty W b rows
  else Some None.

(** The expression [p] of [calculatePenalty], by the class of [r]. *)
Definition penalty (r : IRegulariser) (W : Node) (b : Expr) (rows : bool)
  : option Expr :=
  match kind r with
  | LhalfRegulariser => Some <$> Lhalf_penalty W
  | L1Regulariser => Some <$> L1_penalty W
  | L2Regulariser => Some <$> L2_penalty W
  | ElasticRegulariser => Some <$> Elastic_penalty W
  | GroupLassoRegulariser => GroupLasso_penalty r W b rows
  end.

(** [calculatePenalty(W, b, rows)]: the expression returned and the
    regulariser afterwards. *)
Definition calculatePenalty (r : IRegulariser) (W b : Expr) (rows : bool)
  : option (Expr * IRegulariser) :=
  W' ← W;
  p ← penalty r W' b rows;
  Some (p, set_partialPenalties r (emplace (name W') p (partialPenalties_ r))).

(** Calls of [calculatePenalty] one after the other, each with its [W],
    [b] and [rows]. *)
Fixpoint calculatePenalties (r : IRegulariser)
    (calls : list (Expr * Expr * bool)) : option IRegulariser :=
  match calls with
  | [] => Some r
  | (W, b, rows) :: calls' =>
      '(_, r') ← calculatePenalty r W b rows;
      calculatePenalties r' calls'
  end.

(** [RegulariserFactory::construct], [None] for the null pointer it
    returns; [head_dim] stands for the options of the factory.  The graph
    it is given is not used. *)
Definition construct (head_dim : option Z) (lambda : FP.float)
    (type : string) : option IRegulariser :=
  if String.eqb type "l1"
  then Some (IRegulariser_new L1Regulariser head_dim lambda type)
  else if String.eqb type "l2"
  then Some (IRegulariser_new L2Regulariser head_dim lambda type)
  else if String.eqb type "lhalf"
  then Some (IRegulariser_new LhalfRegulariser head_dim lambda type)
  else if String.eqb type "elastic"
  then Some (IRegulariser_new ElasticRegulariser head_dim lambda type)
  else if String.eqb type "rowcol"
  then Some (IRegulariser_new GroupLassoRegulariser head_dim lambda type)
  else if String.eqb type "rowcol-root"
  then Some (IRegulariser_new GroupLassoRegulariser head_dim lambda type)
  else if String.eqb type "layer"
  then Some (IRegulariser_new GroupLassoRegulariser head_dim lambda type)
  else if String.eqb type "heads"
  then Some (IRegulariser_new GroupLassoRegulariser head_dim lambda type)
  else None.

(** ** Notions of the statements *)

(** The name of the parameter of a call, when [W] is not null. *)
Definition call_name (call : Expr * Expr * bool) : option string :=
  name <$> call.1.1.

(** [t + lambda * p1 + ... + lambda * pn], as the engine builds it from
    the left. *)
Fixpoint weighted (lambda : FP.float) (t : Node) (ps : list Node)
  : option Node :=
  match ps with
  | [] => Some t
  | p :: ps' =>
      s ← scaled lambda p;
      a ← plus t s;
      weighted lambda a ps'
  end.

(** A group-lasso regulariser has one of the four types. *)
Definition typed (r : IRegulariser) : Prop :=
  kind r = GroupLassoRegulariser ->
  type_ r ∈ ["rowcol"; "heads"; "rowcol-root"; "layer"].

End Model.

(** The value at a key of a map, [None] when the map has no such key. *)
Fixpoint find {A : Type} (key : string) (m : list (string * A))
  : option A :=
  match m with
  | [] => None
  | (k, v) :: m' => if String.eqb key k then Some v else find key m'
  end.

(** The keys of a map grow strictly. *)
Fixpoint sorted {A : Type} (m : list (string * A)) : Prop :=
  match m with
  | [] => True
  | (k, _) :: m' =>
      Forall (fun e => String.compare k e.1 = Lt) m' /\ sorted m'
  end.

Arguments IRegulariser : clear implicits.
Arguments Expr : clear implicits.

End Regulariser.


(** ** A small instance of the outside classes

    Plain gradient descent, a sparse tensor that lists its non-zero entries
    and a dropper that keeps every entry: enough to run the model on
    concrete groups. *)

Module Demo.

(** [p - scale * g], with factor 1 when no scale is given. *)
Definition sgd (p grad : Tensor) (scale : option float) : Tensor :=
  zip_with
    (fun x d =>
       FP.f32_sub x
         (match scale with Some c => FP.f32_mul c d | None => d end))
    p grad.

(** A capacity and the entries (index, value). *)
Definition Entries : Type := Z * list (Z * float).

Definition in_range (pos size : Z) (e : Z * float) : bool :=
  (pos <=? e.1) && (e.1 <? pos + size).

Definition add_entry (offset : Z) (dense : Tensor) (e : Z * float) : Tensor :=
  let i := e.1 + offset in
  if i <? 0 then dense
  else alter (fun x => FP.f32_add x e.2) (Z.to_nat i) dense.

Definition entries (t : Tensor) : list (Z * float) :=
  filter (fun e => negb (SFeqb e.2 FP.f32_zero)) (imap (fun i x => (Z.of_nat i, x)) t).

#[export] Instance kernels : Kernels := {|
  OptimizerBase := unit;
  Optimizer := tt;
  opt_update := fun o p grad scale => (o, sgd p grad scale, grad);
  SparseTensor := Entries;
  sp_new := fun capacity _ => (capacity, []);
  sp_capacity := fst;
  sp_new_capacity := fun _ _ => eq_refl;
  sp_copyFrom := fun dst src => (dst.1, src.2);
  sp_subtensor := fun t pos size _ => (t.1, filter (in_range pos size) t.2);
  sp_toDense := fun t dense offset =>
    foldl (add_entry offset) (set_zero dense) t.2;
  sp_scatterAdd := fun t dense => foldl (add_entry 0) dense t.2;
  GradientDrop := unit;
  GradientDrop_new := tt;
  dropGraph := fun d t destination _ => (d, t, (destination.1, entries t));
|}.

(** Single-precision constants. *)
Definition f (z : Z) : float := FP.f32_of_Z z.
(** [0.1f] *)
Definition f_0_1 : float := S754_finite false 13421773 (-27).
(** [0.05f] *)
Definition f_0_05 : float := S754_finite false 13421773 (-28).
(** [0.5] and [-0.5] in double precision *)
Definition d_0_5 : double := S754_finite false 4503599627370496 (-53).
Definition d_m0_5 : double := S754_finite true 4503599627370496 (-53).

Definition options (devices : list Z) (avg : bool) (decay drop : double)
    (tau : Z) : Config :=
  mkConfig devices avg decay drop tau false (f 1).

(** A group of [devices] constructed from [options] and executed for the
    first time on graphs whose values are [values]. *)
Definition started (devices : list Z) (avg : bool) (decay drop : double)
    (tau : Z) (values : Tensor) : option (AsyncGraphGroup kernels) :=
  g ← AsyncGraphGroup_new (options devices avg decay drop tau);
  execute_first ((fun _ => mkGraph values (set_zero values)) <$> devices) g.

(** The graphs the builders leave: one per device, all with the same
    values. *)
Definition graphs_of (devices : list Z) (values : Tensor) : list Graph :=
  (fun _ => mkGraph values (set_zero values)) <$> devices.

(** A group without devices, for the results that are not defined. *)
Definition blank : AsyncGraphGroup kernels :=
  first_state (options [] false FP.f64_zero FP.f64_zero 1) [] 0 0 0.

Definition the (o : option (AsyncGraphGroup kernels))
  : AsyncGraphGroup kernels :=
  default blank o.

(** Two devices, five parameters, a moving average, no dropping, windows of
    two batches. *)
Definition dense_options : Config :=
  options [0; 1] true d_0_5 FP.f64_zero 2.
Definition dense_values : Tensor := [f 1; f 2; f 3; f 4; f 5].
Definition dense_new : AsyncGraphGroup kernels :=
  the (AsyncGraphGroup_new dense_options).
Definition dense : AsyncGraphGroup kernels :=
  the (execute_first (graphs_of [0; 1] dense_values) dense_new).

(** Two devices, four parameters, half of the gradient dropped. *)
Definition sparse_options : Config :=
  options [0; 1] false d_0_5 d_0_5 1.
Definition sparse_values : Tensor := [f 1; f 2; f 3; f 4].
Definition sparse_new : AsyncGraphGroup kernels :=
  the (AsyncGraphGroup_new sparse_options).
Definition sparse : AsyncGraphGroup kernels :=
  the (execute_first (graphs_of [0; 1] sparse_values) sparse_new).

(** One device, dropping. *)
Definition single_options : Config := options [0] false d_0_5 d_0_5 1.
Definition single : AsyncGraphGroup kernels :=
  the (execute_first (graphs_of [0] [f 1; f 2])
         (the (AsyncGraphGroup_new single_options))).

(** The sparse group once a thread has bound itself to a graph, which adds
    its row of droppers. *)
Definition binding : Shared kernels * Worker kernels :=
  default (mkShared sparse 0, Worker_new)
    (bind_worker (mkShared sparse 0) Worker_new).
Definition bound : AsyncGraphGroup kernels := group binding.1.

(** A sparse gradient with one entry in the first shard, and the thread body
    of its push on shard 0. *)
Definition sparse_grad : Entries := (2, [(0, f 1)]).
Definition pushed0 (g : AsyncGraphGroup kernels) : AsyncGraphGroup kernels :=
  the (sparsePush_shard sparse_grad 1 0 0%nat 0 g).
Definition sparse1 : AsyncGraphGroup kernels := pushed0 bound.
Definition sparse2 : AsyncGraphGroup kernels := pushed0 sparse1.
Definition sparse3 : AsyncGraphGroup kernels := pushed0 sparse2.
Definition tags0 : Tags := replicate 3 (replicate 2 0).
Definition tags1 : Tags := tag_bump bound 0 tags0.
Definition tags2 : Tags := tag_bump sparse1 0 tags1.
Definition tags3 : Tags := tag_bump sparse2 0 tags2.

(** Two batches for one thread of the dense group. *)
Definition ones : Tensor := [f 1; f 1; f 1; f 1; f 1].
Definition step1 : Step := mkStep (fun _ => ones) 7 0 None.
Definition step2 : Step :=
  mkStep (fun _ => [f 2; f 0; f 2; f 0; f 2]) 5 0 None.

(** A sparse and a dense push. *)
Definition sparse_push : Push kernels := Sparse (K:=kernels) sparse_grad 1 0.
Definition dense_push : Push kernels := Dense (K:=kernels) ones 1 0.

(** The dense group after the thread body of a push on shard 0. *)
Definition dense1 : AsyncGraphGroup kernels :=
  the (pushGradients_shard ones 1 0 0%nat 0 dense).

(** The sparse group after three pushes on shard 0, fetched by worker 0. *)
Definition fetched3 : AsyncGraphGroup kernels * Tensor :=
  default (sparse3, sparse_values)
    (sparseFetchParams sparse3 sparse_values 0).

(** The dense group after the scheduler block of a run that saves. *)
Definition pulled : AsyncGraphGroup kernels :=
  the (task_scheduler 0%nat (Some (true, false)) dense).

(** A single graph with a moving average, and two runs of it, the first
    one saving and validating. *)
Definition single_graph : Singleton.SingletonGraph kernels :=
  Singleton.SingletonGraph_new dense_options false "model.npz"
    (mkGraph [f 1; f 2] [f 0; f 0]).
Definition single_step1 : Step :=
  mkStep (fun _ => [f 1; f 1]) 3 0 (Some (true, true)).
Definition single_step2 : Step :=
  mkStep (fun _ => [f 1; f 0]) 3 1 (Some (false, false)).
Definition single_run1 : Singleton.SingletonGraph kernels * Singleton.Trace :=
  default (single_graph, Singleton.mkTrace [] None)
    (Singleton.execute single_step1 single_graph).
Definition single_run2 : Singleton.SingletonGraph kernels * Singleton.Trace :=
  default (single_graph, Singleton.mkTrace [] None)
    (Singleton.execute single_step2 single_run1.1).

End Demo.
(** * A symbolic engine

    An engine for the examples, whose nodes are the expressions as
    written: every operator builds its node, and a parameter has a name
    and two dimensions. *)

Module Symbolic.

Inductive Term :=
  | Param (n : string) (rows cols : Z)
  | Abs (a : Term)
  | Sqrt (a : Term)
  | Square (a : Term)
  | Sum (a : Term) (ax : Z)
  | Plus (a b : Term)
  | Times (a b : Term)
  | Scaled (x : FP.float) (a : Term)
  | Reshape (a : Term) (dims : list Z)
  | Transpose (a : Term) (axes : list Z).

#[export] Instance engine : Regulariser.Engine := {|
  Regulariser.Node := Term;
  Regulariser.name t := match t with Param n _ _ => n | _ => "none" end;
  Regulariser.shape t i :=
    match t with
    | Param _ rows cols =>
        if i =? 0 then Some rows else if i =? 1 then Some cols else None
    | _ => None
    end;
  Regulariser.abs a := Some (Abs a);
  Regulariser.sqrt a := Some (Sqrt a);
  Regulariser.square a := Some (Square a);
  Regulariser.sum a ax := Some (Sum a ax);
  Regulariser.plus a b := Some (Plus a b);
  Regulariser.times a b := Some (Times a b);
  Regulariser.scaled x a := Some (Scaled x a);
  Regulariser.reshape a dims := Some (Reshape a dims);
  Regulariser.transpose a axes := Some (Transpose a axes);
|}.

Definition IRegulariser : Type := Regulariser.IRegulariser engine.

(** Two parameters, and a second node with the name of the first. *)
Definition decoder_W : Term := Param "decoder_W" 2 3.
Definition encoder_W : Term := Param "encoder_W" 4 4.
Definition decoder_W' : Term := Param "decoder_W" 5 5.

Definition call (W : Term) : Regulariser.Expr engine
                             * Regulariser.Expr engine * bool :=
  (Some W, None, true).

Definition lambda : FP.float := FP.f32_of_Z 2.

Definition l1 : IRegulariser :=
  Regulariser.IRegulariser_new Regulariser.L1Regulariser None lambda "l1".

(** A group-lasso regulariser of a type the factory does not know. *)
Definition lasso : IRegulariser :=
  Regulariser.IRegulariser_new Regulariser.GroupLassoRegulariser None lambda
    "columns".

(** A group-lasso regulariser over the heads, of dimension 2. *)
Definition heads : IRegulariser :=
  Regulariser.IRegulariser_new Regulariser.GroupLassoRegulariser (Some 2)
    lambda "heads".

Definition heads_call : Regulariser.Expr engine * IRegulariser :=
  default (None, heads)
    (Regulariser.calculatePenalty heads (Some encoder_W) None true).

Definition after_calls (r : IRegulariser)
    (calls : list (Regulariser.Expr engine * Regulariser.Expr engine * bool))
  : IRegulariser :=
  default r (Regulariser.calculatePenalties r calls).

End Symbolic.


(** * Properties *)

(** ** Exact floating-point computations on small integers *)

Section FloatFacts.

Lemma digits2_pos_log2 (m : positive) :
  Z.pos (digits2_pos m) = Z.log2 (Z.pos m) + 1.
Proof.
  induction m as [m IH|m IH|]; cbn [digits2_pos].
  - rewrite Pos2Z.inj_succ, IH.
    change (Z.pos m~1) with (2 * Z.pos m + 1).
    rewrite Z.log2_succ_double by lia. lia.
  - rewrite Pos2Z.inj_succ, IH.
    change (Z.pos m~0) with (2 * Z.pos m).
    rewrite Z.log2_double by lia. lia.
  - reflexivity.
Qed.

Lemma pos_iter_xO (m d : positive) :
  Z.pos (Pos.iter xO m d) = Z.pos m * 2 ^ Z.pos d.
Proof.
  induction d as [|d IH] using Pos.peano_ind.
  - cbn. lia.
  - rewrite Pos.iter_succ, Pos2Z.inj_xO, IH, Pos2Z.inj_succ,
      Z.pow_succ_r by lia.
    lia.
Qed.

(** A shift register with no bit lost so far. *)
Definition exact_rec (m : Z) : shr_record := Build_shr_record m false false.

Lemma shr_1_pow2 (a j : Z) :
  0 <= a -> 1 <= j ->
  shr_1 (exact_rec (a * 2 ^ j)) = exact_rec (a * 2 ^ (j - 1)).
Proof.
  intros Ha Hj. replace (a * 2 ^ j) with (2 * (a * 2 ^ (j - 1))).
  2:{ replace j with (Z.succ (j - 1)) at 2 by lia.
      rewrite Z.pow_succ_r by lia. ring. }
  assert (0 <= a * 2 ^ (j - 1))
    by (apply Z.mul_nonneg_nonneg; [|apply Z.pow_nonneg]; lia).
  destruct (a * 2 ^ (j - 1)) as [|q|q]; try lia; reflexivity.
Qed.

Lemma iter_pos_shr_pow2 (p : positive) : forall a j,
  0 <= a -> Z.pos p <= j ->
  SpecFloat.iter_pos shr_1 p (exact_rec (a * 2 ^ j))
  = exact_rec (a * 2 ^ (j - Z.pos p)).
Proof.
  induction p as [p IH|p IH|]; intros a j Ha Hj; cbn [SpecFloat.iter_pos].
  - assert (Z.pos p~1 = 2 * Z.pos p + 1) by reflexivity.
    rewrite shr_1_pow2 by lia. rewrite IH by lia. rewrite IH by lia.
    replace (j - 1 - Z.pos p - Z.pos p) with (j - Z.pos p~1) by lia.
    reflexivity.
  - assert (Z.pos p~0 = 2 * Z.pos p) by reflexivity.
    rewrite IH by lia. rewrite IH by lia.
    replace (j - Z.pos p - Z.pos p) with (j - Z.pos p~0) by lia.
    reflexivity.
  - apply shr_1_pow2; lia.
Qed.

(** Rounding a mantissa of [prec] bits followed by [k] zero bits loses
    nothing. *)
Lemma binary_round_aux_exact (prec emax : Z) (s : bool) (a k e : Z) :
  0 < prec -> 0 < a -> 0 <= k ->
  Z.log2 a + 1 = prec ->
  3 - emax - prec <= e + k <= emax - prec ->
  binary_round_aux prec emax s (a * 2 ^ k) e loc_Exact
  = S754_finite s (Z.to_pos a) (e + k).
Proof.
  intros Hprec Ha Hk Hlog He.
  assert (Hdig : forall x, 0 < x -> Zdigits2 x = Z.log2 x + 1).
  { intros [|x|x] Hx; try lia. apply digits2_pos_log2. }
  assert (Hlogk : Z.log2 (a * 2 ^ k) = Z.log2 a + k).
  { rewrite Z.log2_mul_pow2; lia. }
  assert (Hpos : 0 < a * 2 ^ k)
    by (apply Z.mul_pos_pos; [|apply Z.pow_pos_nonneg]; lia).
  unfold binary_round_aux, shr_fexp, fexp, emin.
  rewrite (Hdig _ Hpos), Hlogk. cbn [shr_record_of_loc].
  replace (Z.max (Z.log2 a + k + 1 + e - prec) (3 - emax - prec) - e)
    with k by lia.
  fold (exact_rec (a * 2 ^ k)).
  assert (Hshr : shr (exact_rec (a * 2 ^ k)) e k = (exact_rec a, e + k)).
  { unfold shr. destruct k as [|p|p]; try lia.
    - rewrite Z.mul_1_r, Z.add_0_r. reflexivity.
    - rewrite iter_pos_shr_pow2 by lia.
      rewrite Z.sub_diag, Z.mul_1_r. reflexivity. }
  rewrite Hshr. cbn [exact_rec shr_m loc_of_shr_record round_nearest_even].
  rewrite (Hdig _ Ha). cbn [shr_record_of_loc].
  replace (Z.max (Z.log2 a + 1 + (e + k) - prec) (3 - emax - prec) - (e + k))
    with 0 by lia.
  cbn [shr shr_m].
  destruct a as [|q|q]; try lia.
  replace (e + k <=? emax - prec) with true by (symmetry; apply Z.leb_le; lia).
  reflexivity.
Qed.

(** The double of a positive integer below [2^53]: its mantissa is the
    integer shifted to 53 bits. *)
Lemma f64_of_Z_pos (n : Z) :
  0 < n < 2 ^ 53 ->
  FP.f64_of_Z n
  = S754_finite false (Z.to_pos (n * 2 ^ (52 - Z.log2 n))) (Z.log2 n - 52).
Proof.
  intros [Hn Hlt].
  assert (Hlog : 0 <= Z.log2 n < 53).
  { split; [apply Z.log2_nonneg|]. apply Z.log2_lt_pow2; lia. }
  destruct n as [|m|m]; try lia.
  unfold FP.f64_of_Z, binary_normalize, binary_round, shl_align, fexp, emin.
  rewrite digits2_pos_log2.
  replace (Z.max (Z.log2 (Z.pos m) + 1 + 0 - 53) (3 - 1024 - 53) - 0)
    with (Z.log2 (Z.pos m) - 52) by lia.
  replace (Z.max (Z.log2 (Z.pos m) + 1 + 0 - 53) (3 - 1024 - 53))
    with (Z.log2 (Z.pos m) - 52) by lia.
  destruct (Z.log2 (Z.pos m) - 52) as [|d|d] eqn:Hd; try lia.
  - replace (52 - Z.log2 (Z.pos m)) with 0 by lia.
    rewrite <- (Z.mul_1_r (Z.pos m)) at 1. change 1 with (2 ^ 0) at 1.
    rewrite binary_round_aux_exact; try lia.
    rewrite Z.pow_0_r, Z.mul_1_r. reflexivity.
  - rewrite <- (Z.mul_1_r (Z.pos (Pos.iter xO m d))).
    change 1 with (2 ^ 0) at 1.
    rewrite binary_round_aux_exact; try lia.
    + rewrite pos_iter_xO. replace (52 - Z.log2 (Z.pos m)) with (Z.pos d) by lia.
      f_equal; lia.
    + rewrite pos_iter_xO, Z.log2_mul_pow2; lia.
Qed.

Lemma trunc_f64_of_Z (n : Z) :
  0 <= n < 2 ^ 53 -> FP.trunc (FP.f64_of_Z n) = Some n.
Proof.
  intros [Hn Hlt]. destruct (Z.eq_dec n 0) as [->|Hn0]; [reflexivity|].
  rewrite f64_of_Z_pos by lia.
  assert (Hlog : 0 <= Z.log2 n < 53).
  { split; [apply Z.log2_nonneg|]. apply Z.log2_lt_pow2; lia. }
  assert (Hp : 0 < n * 2 ^ (52 - Z.log2 n))
    by (apply Z.mul_pos_pos; [|apply Z.pow_pos_nonneg]; lia).
  unfold FP.trunc, cond_Zopp. rewrite Z2Pos.id by lia. f_equal.
  destruct (Z.log2 n - 52) as [|p|p] eqn:He; try lia.
  - replace (52 - Z.log2 n) with 0 by lia. rewrite Z.pow_0_r. lia.
  - replace (52 - Z.log2 n) with (Z.pos p) by lia.
    apply Z.div_mul. lia.
Qed.

Lemma f64_ceil_of_Z (n : Z) :
  0 <= n < 2 ^ 53 -> FP.f64_ceil (FP.f64_of_Z n) = FP.f64_of_Z n.
Proof.
  intros [Hn Hlt]. destruct (Z.eq_dec n 0) as [->|Hn0]; [reflexivity|].
  rewrite f64_of_Z_pos at 1 by lia.
  assert (Hlog : 0 <= Z.log2 n < 53).
  { split; [apply Z.log2_nonneg|]. apply Z.log2_lt_pow2; lia. }
  assert (Hp : 0 < n * 2 ^ (52 - Z.log2 n))
    by (apply Z.mul_pos_pos; [|apply Z.pow_pos_nonneg]; lia).
  unfold FP.f64_ceil.
  destruct (Z.log2 n - 52) as [|p|p] eqn:He; try lia.
  - rewrite f64_of_Z_pos by lia. rewrite He. reflexivity.
  - unfold cond_Zopp. rewrite Z2Pos.id by lia.
    replace (52 - Z.log2 n) with (Z.pos p) by lia.
    rewrite <- Z.mul_opp_l, Z.div_mul, Z.opp_involutive by lia.
    reflexivity.
Qed.

(** [n * 1.5] in double precision, converted to [int], is [3 n / 2]. *)
Lemma to_int_mul_1_5 (n : Z) :
  0 <= n -> 3 * n / 2 <= CInt.int_max ->
  FP.to_int (FP.f64_mul (FP.f64_of_Z n) FP.f64_1_5) = Some (3 * n / 2).
Proof.
  intros Hn Hmax. unfold CInt.int_max in Hmax.
  destruct (Z.eq_dec n 0) as [->|Hn0]; [reflexivity|].
  assert (Hn31 : n < 2 ^ 31).
  { pose proof (Z.div_le_lower_bound (3 * n) 2 n). lia. }
  assert (Hlog : 0 <= Z.log2 n < 31).
  { split; [apply Z.log2_nonneg|]. apply Z.log2_lt_pow2; lia. }
  rewrite f64_of_Z_pos by lia.
  set (L := Z.log2 n) in *.
  set (L3 := Z.log2 (3 * n)).
  assert (HL3 : L + 1 <= L3 <= L + 2).
  { unfold L3, L. split.
    - replace (Z.log2 n + 1) with (Z.log2 (2 * n))
        by (rewrite Z.log2_double; lia).
      apply Z.log2_le_mono. lia.
    - replace (Z.log2 n + 2) with (Z.log2 (2 * (2 * n)))
        by (rewrite !Z.log2_double; lia).
      apply Z.log2_le_mono. lia. }
  assert (Hp : 0 < n * 2 ^ (52 - L))
    by (apply Z.mul_pos_pos; [|apply Z.pow_pos_nonneg]; lia).
  unfold FP.f64_mul, FP.f64_1_5, SFmul. cbn [xorb].
  rewrite Pos2Z.inj_mul, Z2Pos.id by lia.
  replace (n * 2 ^ (52 - L) * 6755399441055744)
    with ((3 * n * 2 ^ (52 - L3)) * 2 ^ (51 - L + L3)).
  2:{ rewrite <- Z.mul_assoc, <- Z.pow_add_r by lia.
      replace (52 - L3 + (51 - L + L3)) with ((52 - L) + 51) by lia.
      rewrite Z.pow_add_r by lia. change (2 ^ 51) with 2251799813685248.
      ring. }
  assert (Hq : 0 < 3 * n * 2 ^ (52 - L3))
    by (apply Z.mul_pos_pos; [|apply Z.pow_pos_nonneg]; lia).
  assert (Hlg : Z.log2 (3 * n * 2 ^ (52 - L3)) + 1 = 53).
  { rewrite Z.log2_mul_pow2 by lia. fold L3. lia. }
  rewrite binary_round_aux_exact by (assumption || lia).
  unfold FP.to_int, FP.trunc, cond_Zopp.
  rewrite Z2Pos.id by lia.
  replace (L - 52 + -52 + (51 - L + L3)) with (L3 - 53) by lia.
  destruct (L3 - 53) as [|p|p] eqn:He; try lia.
  replace (Z.pos p) with (1 + (52 - L3)) by lia.
  rewrite Z.pow_add_r by lia. change (2 ^ 1) with 2.
  rewrite Z.div_mul_cancel_r by lia.
  cbn [mbind option_bind]. unfold CInt.checked, CInt.int_min, CInt.int_max.
  assert (0 <= 3 * n / 2) by (apply Z.div_pos; lia).
  destruct (Z.leb_spec (- 2 ^ 31) (3 * n / 2)); try lia.
  destruct (Z.leb_spec (3 * n / 2) (2 ^ 31 - 1)); try lia.
  reflexivity.
Qed.

End FloatFacts.

Section Proofs.
Context `{K : Kernels}.

#[local] Arguments Nat.ltb : simpl never.
#[local] Arguments Nat.leb : simpl never.
#[local] Arguments lookup : simpl never.
#[local] Arguments list_lookup : simpl never.

(** Inverts one layer of a computation in the option monad that is known to
    succeed. *)
Ltac inv_step H :=
  match type of H with
  | Some _ = Some _ => progress simplify_eq
  | None = Some _ => discriminate H
  | (mbind _ ?x) = Some _ =>
      let E := fresh "E" in
      destruct x eqn:E; cbn [mbind option_bind] in H; [|discriminate H]
  | (match ?x with _ => _ end) = Some _ =>
      let E := fresh "E" in destruct x eqn:E
  end.

Ltac inv_all H := repeat inv_step H.

(** The same on every hypothesis. *)
Ltac inv_opt :=
  repeat match goal with
    | H : Some _ = Some _ |- _ => progress simplify_eq
    | H : None = Some _ |- _ => discriminate H
    | H : (mbind _ ?x) = Some _ |- _ =>
        destruct x eqn:?; cbn [mbind option_bind] in H; [|discriminate H]
    | H : (match ?x with _ => _ end) = Some _ |- _ => destruct x eqn:?
    end.

(** ** Tensors keep their size *)

Lemma length_overwrite (dst src : Tensor) :
  length (overwrite dst src) = length dst.
Proof.
  unfold overwrite. rewrite length_app, length_take, length_drop. lia.
Qed.

Lemma overwrite_same_length (dst src : Tensor) :
  length src = length dst -> overwrite dst src = src.
Proof.
  intros Hl. unfold overwrite.
  rewrite <- Hl, firstn_all, Hl, drop_all. apply app_nil_r.
Qed.

Lemma length_set_zero (t : Tensor) : length (set_zero t) = length t.
Proof. apply length_replicate. Qed.

Lemma subtensor_length (t : Tensor) (pos size : Z) (v : Tensor) :
  subtensor t pos size = Some v -> length v = Z.to_nat size.
Proof.
  unfold subtensor. destruct (_ || _); [discriminate|].
  apply sublist_lookup_length.
Qed.

(** ** What no operation changes *)

(** The fields written by the constructors only, and the number of
    graphs. *)
Record same_config (g g' : AsyncGraphGroup K) : Prop := {
  sc_scale_lr : scale_lr g' = scale_lr g;
  sc_average : average_batch_words g' = average_batch_words g;
  sc_devices : devices_ g' = devices_ g;
  sc_movingAvg : movingAvg_ g' = movingAvg_ g;
  sc_mvDecay : mvDecay_ g' = mvDecay_ g;
  sc_drop_rate : drop_rate_ g' = drop_rate_ g;
  sc_history : history_size_ g' = history_size_ g;
  sc_tau : tau_ g' = tau_ g;
  sc_shardSize : shardSize_ g' = shardSize_ g;
  sc_graphs : length (graphs_ g') = length (graphs_ g);
}.

Lemma same_config_refl g : same_config g g.
Proof. split; reflexivity. Qed.

Lemma same_config_trans g1 g2 g3 :
  same_config g1 g2 -> same_config g2 g3 -> same_config g1 g3.
Proof.
  intros [] []. split; etransitivity; eassumption.
Qed.

Ltac config := split; cbn; rewrite ?length_insert, ?length_alter; reflexivity.

Lemma apply_update_config bw nb idx lv grad g g' :
  apply_update bw nb idx lv grad g = Some g' -> same_config g g'.
Proof. unfold apply_update. intros H. inv_all H; config. Qed.

Lemma bump_version_config idx g lv g' :
  bump_version idx g = Some (lv, g') -> same_config g g'.
Proof. unfold bump_version. intros H. inv_all H; config. Qed.

Lemma pushGradients_shard_config newGrads bw nb idx pos g g' :
  pushGradients_shard newGrads bw nb idx pos g = Some g' -> same_config g g'.
Proof.
  unfold pushGradients_shard. intros H.
  do 2 inv_step H. destruct (1 <? history_size_ g).
  - inv_step H. destruct p as [lv g1]. cbn in H.
    eapply same_config_trans;
      [eapply bump_version_config|eapply apply_update_config]; eassumption.
  - simpl in H. eapply apply_update_config; eassumption.
Qed.

Lemma sparsePush_shard_config newGrads bw nb idx pos g g' :
  sparsePush_shard newGrads bw nb idx pos g = Some g' -> same_config g g'.
Proof.
  unfold sparsePush_shard. intros H.
  do 3 inv_step H. destruct p as [lv g1]. cbn in H.
  eapply same_config_trans; [|eapply apply_update_config; eassumption].
  eapply same_config_trans; [|eapply bump_version_config; eassumption].
  config.
Qed.

Lemma sparseFetchParams_shard_config w idx pos g old g' old' :
  sparseFetchParams_shard w idx pos (g, old) = Some (g', old') ->
  same_config g g'.
Proof.
  unfold sparseFetchParams_shard. intros H. inv_all H; config.
Qed.

Lemma update_graph0_config bw g g' :
  update_graph0 bw g = Some g' -> same_config g g'.
Proof. unfold update_graph0. intros H. inv_all H; config. Qed.

Lemma bind_worker_config g i w g' i' w' :
  bind_worker (mkShared g i) w = Some (mkShared g' i', w') ->
  same_config g g'.
Proof.
  unfold bind_worker. intros H. inv_opt; cbn in *; inv_opt; config.
Qed.

Lemma shard_step_config g tags g' tags' :
  shard_step (g, tags) (g', tags') -> same_config g g'.
Proof.
  inversion 1; subst;
    eauto using pushGradients_shard_config, sparsePush_shard_config,
      update_graph0_config, sparseFetchParams_shard_config,
      bind_worker_config.
  - split; cbn; congruence.
  - config.
Qed.

(** ** Construction and first execution *)

Lemma alloc_sparse_config cap sub n devices g :
  same_config g (alloc_sparse cap sub n devices g).
Proof.
  revert g. induction devices as [|d devices IH]; intros g; cbn.
  - apply same_config_refl.
  - eapply same_config_trans; [|apply IH]. config.
Qed.

(** What first execution leaves alone: the options and the number of
    graphs. *)
Record same_options (g g' : AsyncGraphGroup K) : Prop := {
  so_scale_lr : scale_lr g' = scale_lr g;
  so_average : average_batch_words g' = average_batch_words g;
  so_devices : devices_ g' = devices_ g;
  so_movingAvg : movingAvg_ g' = movingAvg_ g;
  so_mvDecay : mvDecay_ g' = mvDecay_ g;
  so_drop_rate : drop_rate_ g' = drop_rate_ g;
  so_history : history_size_ g' = history_size_ g;
  so_tau : tau_ g' = tau_ g;
  so_graphs : length (graphs_ g') = length (graphs_ g);
}.

Lemma same_options_refl g : same_options g g.
Proof. split; reflexivity. Qed.

Lemma same_options_trans g1 g2 g3 :
  same_options g1 g2 -> same_options g2 g3 -> same_options g1 g3.
Proof. intros [] []. split; etransitivity; eassumption. Qed.

Lemma same_config_options g g' : same_config g g' -> same_options g g'.
Proof. intros []. split; assumption. Qed.

Lemma init_versions_options built g g' :
  init_versions built g = Some g' -> same_options g g'.
Proof.
  unfold init_versions. intros H.
  destruct (length built =? length (graphs_ g))%nat eqn:E; [|discriminate].
  apply Nat.eqb_eq in E. cbn in H. inv_opt. split; cbn; congruence.
Qed.

Lemma init_params_options g g' :
  init_params g = Some g' -> same_options g g'.
Proof. unfold init_params. intros H. inv_opt; split; reflexivity. Qed.

Lemma init_grads_options g g' :
  init_grads g = Some g' -> same_options g g'.
Proof. unfold init_grads. intros H. inv_opt; split; reflexivity. Qed.

Lemma init_avg_options g g' :
  init_avg g = Some g' -> same_options g g'.
Proof. unfold init_avg. intros H. inv_opt; split; reflexivity. Qed.

Lemma init_sparse_options g g' :
  init_sparse g = Some g' -> same_options g g'.
Proof.
  unfold init_sparse. intros H. inv_opt.
  - apply same_config_options, alloc_sparse_config.
  - apply same_options_refl.
Qed.

Lemma execute_first_options built g g' :
  execute_first built g = Some g' -> same_options g g'.
Proof.
  unfold execute_first. intros H.
  destruct (negb (first_ g)); inv_opt; [apply same_options_refl|].
  eapply same_options_trans; [eapply init_versions_options; eassumption|].
  eapply same_options_trans; [eapply init_params_options; eassumption|].
  eapply same_options_trans; [eapply init_grads_options; eassumption|].
  eapply same_options_trans; [eapply init_avg_options; eassumption|].
  eapply same_options_trans; [eapply init_sparse_options; eassumption|].
  split; reflexivity.
Qed.

Lemma AsyncGraphGroup_new_history options g :
  AsyncGraphGroup_new options = Some g ->
  initial_history_size (opt_drop_rate options)
    (Z.of_nat (length (opt_devices options))) = Some (history_size_ g).
Proof. unfold AsyncGraphGroup_new. intros H. inv_opt. reflexivity. Qed.

Lemma initial_history_size_value (drop_rate : double) (n : Z) :
  0 <= n -> 3 * n / 2 <= CInt.int_max ->
  initial_history_size drop_rate n
  = Some (if FP.gt_zero drop_rate then 3 * n / 2 else 1).
Proof.
  intros Hn Hmax. unfold initial_history_size.
  destruct (FP.gt_zero drop_rate); [|reflexivity].
  apply to_int_mul_1_5; assumption.
Qed.

(** C9 (amended).  The history depth is fixed by the constructor: it is 1
    unless the drop rate is greater than zero, and the integer part of
    1.5 times the number of devices (that is, [3 n / 2]) when the drop rate
    is greater than zero; with a single device it is 1 either way.  Neither
    the first execution nor any later step of the group changes it. *)
Theorem history_size_construction (options : Config) :
  let n := Z.of_nat (length (opt_devices options)) in
  3 * n / 2 <= CInt.int_max ->
  exists g,
    AsyncGraphGroup_new options = Some g /\
    history_size_ g
    = (if FP.gt_zero (opt_drop_rate options) then 3 * n / 2 else 1) /\
    (n = 1 -> history_size_ g = 1) /\
    (forall built g',
        execute_first built g = Some g' ->
        history_size_ g' = history_size_ g) /\
    (forall g1 tags1 g2 tags2,
        shard_step (g1, tags1) (g2, tags2) ->
        history_size_ g2 = history_size_ g1).
Proof.
  intros n Hmax.
  pose proof (initial_history_size_value (opt_drop_rate options) n
                ltac:(lia) Hmax) as Hh.
  unfold AsyncGraphGroup_new. fold n. rewrite Hh. cbn [mbind option_bind].
  eexists. split; [reflexivity|]. cbn [history_size_].
  split; [reflexivity|]. split; [|split].
  - intros ->. destruct (FP.gt_zero _); reflexivity.
  - intros built g' H. apply execute_first_options in H. apply H.
  - intros g1 tags1 g2 tags2 H. apply shard_step_config in H. apply H.
Qed.

(** ** The sharding loops *)

Lemma length_shard_sizes s devices t :
  length (shard_sizes s devices t) = length devices.
Proof.
  revert t. induction devices as [|d devices IH]; intros t; cbn;
    [reflexivity|]. now rewrite IH.
Qed.

Lemma length_shard_slices values s devices : forall t pos,
  length (shard_slices values s devices t pos) = length devices.
Proof.
  induction devices as [|d devices IH]; intros t pos; cbn;
    [reflexivity|]. now rewrite IH.
Qed.

(** [ceil] changes nothing: the quotient it is given is already an
    integer, so the shard size is the rounded-down quotient. *)
Lemma shard_size_floor (totalSize n : Z) :
  0 <= totalSize <= CInt.int_max -> 0 < n ->
  shard_size totalSize n = Some (totalSize / n).
Proof.
  intros [Ht Hmax] Hn. unfold CInt.int_max in Hmax.
  unfold shard_size, CInt.size_t_div, CInt.to_size_t, CInt.size_t_range.
  destruct (Z.eqb_spec n 0) as [|_]; [lia|].
  rewrite Z.mod_small by lia. cbn [mbind option_bind].
  assert (Hq : 0 <= totalSize / n <= totalSize).
  { split; [apply Z.div_pos; lia|]. apply Z.div_le_upper_bound; nia. }
  rewrite f64_ceil_of_Z by lia.
  unfold FP.to_int. rewrite trunc_f64_of_Z by lia. cbn [mbind option_bind].
  unfold CInt.checked, CInt.int_min, CInt.int_max.
  destruct (Z.leb_spec (- 2 ^ 31) (totalSize / n)); try lia.
  destruct (Z.leb_spec (totalSize / n) (2 ^ 31 - 1)); try lia.
  reflexivity.
Qed.

(** With the rounded-down shard size every shard gets exactly that size. *)
Lemma shard_sizes_floor (devices : list Z) (s t : Z) :
  0 <= s -> Z.of_nat (length devices) * s <= t ->
  shard_sizes s devices t = replicate (length devices) s.
Proof.
  revert t. induction devices as [|d devices IH]; intros t Hs Ht;
    [reflexivity|].
  cbn [shard_sizes length replicate]. cbn [length] in Ht.
  rewrite Z.min_l by lia. f_equal. apply IH; lia.
Qed.

Lemma push_back_history_lookup h p params ps :
  push_back_history h (Some p) params = Some ps ->
  length ps = length params /\
  forall i row, params !! i = Some row ->
    ps !! i = Some (if (i <? Z.to_nat h)%nat then row ++ [p] else row).
Proof.
  unfold push_back_history. intros H.
  destruct (Z.leb_spec h 0).
  - inv_opt. split; [reflexivity|]. intros i row Hi.
    replace (Z.to_nat h) with 0%nat by lia. assumption.
  - cbn in H. inv_opt. split; [apply length_imap|].
    intros i row Hi. rewrite list_lookup_imap, Hi. reflexivity.
Qed.

Lemma subtensor_Some (t : Tensor) (pos size : Z) (v : Tensor) :
  subtensor t pos size = Some v ->
  0 <= pos /\ 0 <= size /\
  (Z.to_nat pos + Z.to_nat size <= length t)%nat /\
  v = take (Z.to_nat size) (drop (Z.to_nat pos) t).
Proof.
  unfold subtensor. intros H.
  destruct (Z.ltb_spec pos 0); [discriminate|].
  destruct (Z.ltb_spec size 0); [discriminate|].
  cbn in H. apply sublist_lookup_Some' in H. intuition lia.
Qed.

Lemma subtensor_is_Some (t : Tensor) (pos size : Z) :
  0 <= pos -> 0 <= size ->
  (Z.to_nat pos + Z.to_nat size <= length t)%nat ->
  subtensor t pos size = Some (take (Z.to_nat size) (drop (Z.to_nat pos) t)).
Proof.
  intros Hp Hs Hl. unfold subtensor.
  destruct (Z.ltb_spec pos 0); [lia|].
  destruct (Z.ltb_spec size 0); [lia|].
  cbn. apply sublist_lookup_Some. assumption.
Qed.

(** The rows of [params_] after the sharding loop: each of the first
    [history_size_] rows has received the slices [shard_slices], whose
    sizes are [shard_sizes]; the scratch tensors are one per device when
    dropping. *)
Lemma shard_params_rows values drop h s devices :
  forall t pos params tmp ps tmp',
  shard_params values drop h s devices t pos params tmp = Some (ps, tmp') ->
  0 < h ->
  ps = imap (fun i row =>
               if (i <? Z.to_nat h)%nat
               then row ++ shard_slices values s devices t pos else row)
         params /\
  tmp' = tmp ++ (if drop then allocate <$> shard_sizes s devices t else []) /\
  Forall2 (fun x size => length x = Z.to_nat size)
    (shard_slices values s devices t pos) (shard_sizes s devices t) /\
  Forall (fun size => 0 <= size) (shard_sizes s devices t).
Proof.
  induction devices as [|d devices IH]; intros t pos params tmp ps tmp' H Hh.
  - cbn in H. injection H as <- <-. cbn [shard_slices shard_sizes fmap list_fmap].
    split; [|split; [|split; constructor]].
    + apply list_eq. intros i. rewrite list_lookup_imap.
      destruct (params !! i) as [row|]; [|reflexivity].
      cbn [fmap option_fmap option_map]. rewrite app_nil_r.
      destruct (i <? Z.to_nat h)%nat; reflexivity.
    + destruct drop; now rewrite app_nil_r.
  - cbn [shard_params] in H. inv_step H.
    destruct (subtensor values pos (Z.min s t)) as [p|] eqn:Ep.
    2:{ unfold push_back_history in E. destruct (Z.leb_spec h 0); [lia|].
        discriminate. }
    pose proof (subtensor_length _ _ _ _ Ep) as Hlen.
    apply subtensor_Some in Ep. destruct Ep as (Hpos & Hsize & _ & ->).
    pose proof (push_back_history_lookup _ _ _ _ E) as [El Ei].
    apply IH in H; [|assumption]. destruct H as (-> & -> & Hsz & Hnn).
    cbn [shard_slices shard_sizes]. split; [|split; [|split]].
    + apply list_eq. intros i. rewrite !list_lookup_imap.
      destruct (params !! i) as [row|] eqn:Hi.
      * rewrite (Ei _ _ Hi). cbn [fmap option_fmap option_map].
        destruct (i <? Z.to_nat h)%nat; [|reflexivity].
        rewrite <- app_assoc. reflexivity.
      * assert (l !! i = None) as ->; [|reflexivity].
        apply lookup_ge_None. apply lookup_ge_None in Hi. lia.
    + destruct drop; [|reflexivity]. now rewrite <- app_assoc.
    + constructor; assumption.
    + constructor; assumption.
Qed.

(** The slices are consecutive: together they are the stretch of [values]
    that starts at [pos] and has the sum of their sizes. *)
Lemma concat_shard_slices values s devices : forall t pos,
  0 <= pos ->
  Forall (fun size => 0 <= size) (shard_sizes s devices t) ->
  concat (shard_slices values s devices t pos)
  = take (Z.to_nat (foldr Z.add 0 (shard_sizes s devices t)))
      (drop (Z.to_nat pos) values).
Proof.
  induction devices as [|d devices IH]; intros t pos Hpos Hnn;
    cbn [shard_slices shard_sizes concat foldr].
  - reflexivity.
  - inversion Hnn as [|? ? Hsz Hrest]; subst.
    assert (Hsum : 0 <= foldr Z.add 0 (shard_sizes s devices (t - Z.min s t))).
    { clear -Hrest. induction Hrest; cbn; lia. }
    rewrite IH by (assumption || lia).
    rewrite (Z2Nat.inj_add (Z.min s t)) by lia.
    rewrite (Z2Nat.inj_add pos) by lia.
    rewrite <- take_take_drop, drop_drop. reflexivity.
Qed.

Lemma length_shard_grads s devices : forall t gs,
  length (shard_grads s devices t gs) = (length gs + length devices)%nat.
Proof.
  induction devices as [|d devices IH]; intros t gs; cbn; [lia|].
  rewrite IH, length_app. cbn. lia.
Qed.

Lemma shard_grads_sizes s devices : forall t gs,
  exists new,
    shard_grads s devices t gs = gs ++ new /\
    Forall2 (fun x size => length x = Z.to_nat size) new
      (shard_sizes s devices t).
Proof.
  induction devices as [|d devices IH]; intros t gs; cbn.
  - exists []. rewrite app_nil_r. split; [reflexivity|constructor].
  - destruct (IH (t - Z.min s t) (gs ++ [allocate (Z.min s t)]))
      as (new & -> & Hnew).
    exists (allocate (Z.min s t) :: new). rewrite <- app_assoc.
    split; [reflexivity|]. constructor; [|assumption].
    apply length_replicate.
Qed.

(** The shadow parameters after their loop: a copy of each tensor of
    [row0] whose size is the one the loop recomputes. *)
Lemma shard_avg_copies row0 s devices : forall t i avg avg',
  shard_avg row0 s devices t i avg = Some avg' ->
  Forall2 (fun x size => length x = Z.to_nat size) (drop i row0)
    (shard_sizes s devices t) ->
  avg' = avg ++ drop i row0.
Proof.
  induction devices as [|d devices IH]; intros t i avg avg' H Hsz.
  - cbn in *. inv_opt. inversion Hsz as [Hd|]. now rewrite app_nil_r.
  - cbn [shard_avg] in H. inv_step H. cbn [shard_sizes] in Hsz.
    rewrite (drop_S _ _ _ E) in Hsz. inversion Hsz as [|? ? ? ? Hlen Hrest];
      subst.
    rewrite (IH _ _ _ _ H Hrest), <- app_assoc.
    rewrite (drop_S _ _ _ E). cbn. f_equal. f_equal.
    apply overwrite_same_length. unfold allocate. rewrite length_replicate.
    assumption.
Qed.

(** ** The state after the first execution *)

Lemma alloc_sparse_eq cap sub n devices : forall g,
  alloc_sparse cap sub n devices g
  = set_localSparseDelta
      (localSparseDelta g ++ ((fun d => replicate n (sp_new sub d)) <$> devices))
      (set_tmpSparseDelta (tmpSparseDelta g ++ (sp_new sub <$> devices))
         (set_localSparseGrads_
            (localSparseGrads_ g ++ (sp_new cap <$> devices))
            (set_sparseGrads_ (sparseGrads_ g ++ (sp_new cap <$> devices))
               g))).
Proof.
  induction devices as [|d devices IH]; intros g.
  - destruct g. cbn. rewrite !app_nil_r. reflexivity.
  - cbn [alloc_sparse]. rewrite IH. cbn. rewrite <- !app_assoc. reflexivity.
Qed.

Lemma shard_grads_eq s devices : forall t gs,
  shard_grads s devices t gs = gs ++ (allocate <$> shard_sizes s devices t).
Proof.
  induction devices as [|d devices IH]; intros t gs; cbn.
  - now rewrite app_nil_r.
  - rewrite IH, <- app_assoc. reflexivity.
Qed.

Lemma init_versions_eq built g g' :
  init_versions built g = Some g' ->
  length built = length (graphs_ g) /\
  g' = set_localVersionNumbers
         (localVersionNumbers g
          ++ replicate (length (graphs_ g))
               (replicate (length (graphs_ g)) 0))
         (set_globalVersionNumber
            (globalVersionNumber g ++ replicate (length (graphs_ g)) 0)
            (set_graphs_ built g)).
Proof.
  unfold init_versions. intros H.
  destruct (Nat.eqb_spec (length built) (length (graphs_ g))); [|discriminate].
  cbn [negb] in H. apply (inj Some) in H. subst g'. split; [assumption|].
  reflexivity.
Qed.

Lemma init_params_eq g g' :
  init_params g = Some g' ->
  (0 < Z.to_nat (history_size_ g))%nat ->
  params_ g = replicate (Z.to_nat (history_size_ g)) [] ->
  exists graph0 s,
    graphs_ g !! 0%nat = Some graph0 /\
    let total := Z.of_nat (length (vals graph0)) in
    shard_size total (Z.of_nat (length (devices_ g))) = Some s /\
    Forall2 (fun x size => length x = Z.to_nat size)
      (shard_slices (vals graph0) s (devices_ g) total 0)
      (shard_sizes s (devices_ g) total) /\
    Forall (fun size => 0 <= size) (shard_sizes s (devices_ g) total) /\
    g' = set_tmpTensor
           (tmpTensor g
            ++ (if FP.to_bool (drop_rate_ g)
                then allocate <$> shard_sizes s (devices_ g) total else []))
           (set_params_
              (replicate (Z.to_nat (history_size_ g))
                 (shard_slices (vals graph0) s (devices_ g) total 0))
              (set_shardSize_ s g)).
Proof.
  unfold init_params. intros H Hh Hp. rewrite Hp in H.
  rewrite lookup_replicate_2 in H by assumption.
  cbn [mbind option_bind length Nat.eqb] in H.
  destruct (graphs_ g !! 0%nat) as [graph0|]; [|discriminate].
  cbn [mbind option_bind] in H.
  destruct (shard_size _ _) as [s|] eqn:Hs; [|discriminate].
  cbn [mbind option_bind] in H.
  destruct (shard_params _ _ _ _ _ _ _ _ _) as [[ps tmp]|] eqn:Hps;
    [|discriminate].
  cbn [mbind option_bind] in H. apply (inj Some) in H. subst g'.
  apply shard_params_rows in Hps; [|lia].
  destruct Hps as (-> & -> & Hsz & Hnn).
  exists graph0, s.
  split_and!; try assumption; try reflexivity.
  f_equal. f_equal.
  apply list_eq. intros i. rewrite list_lookup_imap.
  destruct (Nat.lt_ge_cases i (Z.to_nat (history_size_ g))) as [Hi|Hi].
  - rewrite !lookup_replicate_2 by assumption.
    cbn [fmap option_fmap option_map app].
    destruct (Nat.ltb_spec i (Z.to_nat (history_size_ g))); [reflexivity|lia].
  - rewrite !(proj1 (lookup_replicate_None _ _ _)) by assumption.
    reflexivity.
Qed.

Lemma init_grads_eq g g' :
  init_grads g = Some g' ->
  grads_ g = [] ->
  exists graph0,
    graphs_ g !! 0%nat = Some graph0 /\
    g' = set_grads_
           (allocate <$>
              shard_sizes (shardSize_ g) (devices_ g)
                (Z.of_nat (length (vals graph0)))) g.
Proof.
  unfold init_grads. intros H Hg. rewrite Hg in H.
  cbn [length Nat.eqb] in H.
  destruct (graphs_ g !! 0%nat) as [graph0|]; [|discriminate].
  cbn [mbind option_bind] in H. apply (inj Some) in H. subst g'.
  exists graph0. split; [reflexivity|].
  rewrite shard_grads_eq. reflexivity.
Qed.

Lemma init_avg_eq g g' graph0 (row : list Tensor) :
  init_avg g = Some g' ->
  paramsAvg_ g = [] ->
  graphs_ g !! 0%nat = Some graph0 ->
  params_ g !! 0%nat = Some row ->
  Forall2 (fun x size => length x = Z.to_nat size) row
    (shard_sizes (shardSize_ g) (devices_ g)
       (Z.of_nat (length (vals graph0)))) ->
  g' = if movingAvg_ g then set_paramsAvg_ row g else g.
Proof.
  unfold init_avg. intros H Ha Hg0 Hrow Hsz. rewrite Ha in H.
  destruct (movingAvg_ g); cbn [andb length Nat.eqb mbind option_bind] in H.
  - rewrite Hg0 in H. cbn [mbind option_bind] in H.
    rewrite Hrow in H. cbn [mbind option_bind] in H.
    destruct (shard_avg _ _ _ _ _ _) as [avg|] eqn:Havg; [|discriminate].
    cbn [mbind option_bind] in H. apply (inj Some) in H. subst g'.
    apply shard_avg_copies in Havg; [|exact Hsz]. subst avg. reflexivity.
  - apply (inj Some) in H. congruence.
Qed.

Lemma init_sparse_eq g g' graph0 :
  init_sparse g = Some g' ->
  first_ g = true ->
  graphs_ g !! 0%nat = Some graph0 ->
  if FP.to_bool (drop_rate_ g)
  then exists cap sub,
      sparse_capacity (Z.of_nat (length (vals graph0))) (drop_rate_ g)
      = Some cap /\
      sparse_sub_capacity cap (Z.of_nat (length (devices_ g))) = Some sub /\
      g' = alloc_sparse cap sub (length (devices_ g)) (devices_ g) g
  else g' = g.
Proof.
  unfold init_sparse. intros H Hf Hg0. rewrite Hf in H.
  destruct (FP.to_bool (drop_rate_ g)); cbn [andb mbind option_bind] in H.
  - rewrite Hg0 in H. cbn [mbind option_bind] in H.
    destruct (sparse_capacity _ _) as [cap|] eqn:Hcap; [|discriminate].
    cbn [mbind option_bind] in H.
    destruct (sparse_sub_capacity _ _) as [sub|] eqn:Hsub; [|discriminate].
    cbn [mbind option_bind] in H. apply (inj Some) in H. subst g'.
    exists cap, sub. split_and!; reflexivity || assumption.
  - apply (inj Some) in H. congruence.
Qed.

Lemma init_params_nonempty g g' :
  init_params g = Some g' -> (0 < length (params_ g))%nat.
Proof.
  unfold init_params. intros H.
  destruct (params_ g !! 0%nat) eqn:E; [|discriminate].
  apply lookup_lt_Some in E. assumption.
Qed.

(** A constructed group that has been executed once is [first_state] for a
    shard size and capacities that the conversions define. *)
Lemma first_execution options built g0 g :
  AsyncGraphGroup_new options = Some g0 ->
  execute_first built g0 = Some g ->
  let devices := opt_devices options in
  let n := Z.of_nat (length devices) in
  exists graph0 s cap sub,
    built !! 0%nat = Some graph0 /\
    length built = length devices /\
    let total := Z.of_nat (length (vals graph0)) in
    initial_history_size (opt_drop_rate options) n = Some (history_size_ g0) /\
    1 <= history_size_ g0 /\
    shard_size total n = Some s /\
    Forall2 (fun x size => length x = Z.to_nat size)
      (shard_slices (vals graph0) s devices total 0)
      (shard_sizes s devices total) /\
    Forall (fun size => 0 <= size) (shard_sizes s devices total) /\
    (FP.to_bool (opt_drop_rate options) = true ->
     sparse_capacity total (opt_drop_rate options) = Some cap /\
     sparse_sub_capacity cap n = Some sub) /\
    g = first_state options built s cap sub.
Proof.
  intros Hnew Hfirst devices n.
  unfold AsyncGraphGroup_new in Hnew.
  change (opt_devices options) with devices in Hnew.
  change (Z.of_nat (length devices)) with n in Hnew.
  destruct (initial_history_size (opt_drop_rate options) n) as [h|] eqn:Hhd;
    [|discriminate].
  cbn [mbind option_bind] in Hnew. apply (inj Some) in Hnew.
  unfold execute_first in Hfirst.
  assert (Hf0 : first_ g0 = true) by (subst g0; reflexivity).
  assert (Hh0 : history_size_ g0 = h) by (subst g0; reflexivity).
  rewrite Hf0 in Hfirst. cbn [negb] in Hfirst.
  destruct (init_versions built g0) as [g1|] eqn:E1; [|discriminate].
  cbn [mbind option_bind] in Hfirst.
  destruct (init_params g1) as [g2|] eqn:E2; [|discriminate].
  cbn [mbind option_bind] in Hfirst.
  destruct (init_grads g2) as [g3|] eqn:E3; [|discriminate].
  cbn [mbind option_bind] in Hfirst.
  destruct (init_avg g3) as [g4|] eqn:E4; [|discriminate].
  cbn [mbind option_bind] in Hfirst.
  destruct (init_sparse g4) as [g5|] eqn:E5; [|discriminate].
  cbn [mbind option_bind] in Hfirst. apply (inj Some) in Hfirst.
  (* versions *)
  apply init_versions_eq in E1. destruct E1 as [Hlen E1].
  assert (Hgl : length (graphs_ g0) = length devices).
  { subst g0. cbn [graphs_]. apply length_fmap. }
  rewrite Hgl in Hlen, E1.
  (* parameters *)
  pose proof (init_params_nonempty _ _ E2) as Hpos.
  assert (Hp1 : params_ g1 = replicate (Z.to_nat (history_size_ g1)) [])
    by (subst g1 g0; reflexivity).
  assert (Hh1 : history_size_ g1 = h) by (subst g1 g0; reflexivity).
  rewrite Hp1, length_replicate, Hh1 in Hpos.
  apply init_params_eq in E2; [|rewrite Hh1; assumption|assumption].
  destruct E2 as (graph0 & s & Hg0 & Hs & Hsz & Hnn & E2).
  assert (Hd1 : devices_ g1 = devices) by (subst g1 g0; reflexivity).
  assert (Hb1 : graphs_ g1 = built) by (subst g1; reflexivity).
  assert (Hr1 : drop_rate_ g1 = opt_drop_rate options)
    by (subst g1 g0; reflexivity).
  rewrite Hd1, Hb1, Hh1, ?Hr1 in *.
  (* gradients *)
  apply init_grads_eq in E3; [|subst g2 g1 g0; reflexivity].
  destruct E3 as (graph0' & Hg0' & E3).
  assert (graph0' = graph0).
  { assert (Hb2 : graphs_ g2 = built) by (subst g2 g1; reflexivity).
    rewrite Hb2 in Hg0'. congruence. }
  subst graph0'. clear Hg0'.
  assert (Hs2 : shardSize_ g2 = s) by (subst g2; reflexivity).
  assert (Hd2 : devices_ g2 = devices) by (subst g2; exact Hd1).
  rewrite Hs2, Hd2 in E3.
  (* shadow parameters *)
  apply (init_avg_eq _ _ graph0
           (shard_slices (vals graph0) s devices
              (Z.of_nat (length (vals graph0))) 0)) in E4.
  2:{ subst g3 g2 g1 g0. reflexivity. }
  2:{ subst g3 g2 g1. exact Hg0. }
  2:{ subst g3 g2. cbn [params_ set_grads_ set_tmpTensor set_params_].
      apply lookup_replicate_2. assumption. }
  2:{ subst g3 g2. cbn [shardSize_ devices_ set_grads_ set_tmpTensor
                          set_params_ set_shardSize_].
      rewrite Hd1. exact Hsz. }
  (* sparse buffers *)
  apply (init_sparse_eq _ _ graph0) in E5.
  2:{ subst g4 g3 g2 g1 g0. cbn [movingAvg_ set_grads_ set_tmpTensor
        set_params_ set_shardSize_ set_localVersionNumbers
        set_globalVersionNumber set_graphs_].
      destruct (opt_moving_average options); reflexivity. }
  2:{ subst g4 g3 g2 g1 g0. cbn [movingAvg_ set_grads_ set_tmpTensor
        set_params_ set_shardSize_ set_localVersionNumbers
        set_globalVersionNumber set_graphs_].
      destruct (opt_moving_average options); exact Hg0. }
  assert (Hr4 : drop_rate_ g4 = opt_drop_rate options).
  { subst g4 g3 g2. cbn [movingAvg_ set_grads_ set_tmpTensor set_params_
      set_shardSize_]. destruct (movingAvg_ g1); exact Hr1. }
  assert (Hd4 : devices_ g4 = devices).
  { subst g4 g3 g2. cbn [movingAvg_ set_grads_ set_tmpTensor set_params_
      set_shardSize_]. destruct (movingAvg_ g1); exact Hd1. }
  assert (Hm1 : movingAvg_ g1 = opt_moving_average options)
    by (subst g1 g0; reflexivity).
  rewrite Hr4, Hd4 in E5.
  assert (Hh : 1 <= h) by lia.
  unfold first_state. change (opt_devices options) with devices.
  change (Z.of_nat (length devices)) with n. rewrite Hhd, Hg0.
  cbn [fmap option_fmap option_map default from_option id].
  destruct (FP.to_bool (opt_drop_rate options)) eqn:Hdrop.
  - destruct E5 as (cap & sub & Hcap & Hsub & E5).
    exists graph0, s, cap, sub. rewrite Hh0.
    split_and!; try first [assumption | reflexivity].
    + intros _. split; assumption.
    + subst g. rewrite E5, alloc_sparse_eq. subst g4 g3 g2.
      cbn [movingAvg_ set_grads_ set_tmpTensor set_params_ set_shardSize_].
      rewrite Hm1. subst g1 g0.
      destruct (opt_moving_average options); reflexivity.
  - exists graph0, s, 0, 0. rewrite Hh0.
    split_and!; try first [assumption | reflexivity].
    + intros ?; discriminate.
    + subst g g5 g4 g3 g2.
      cbn [movingAvg_ set_grads_ set_tmpTensor set_params_ set_shardSize_].
      rewrite Hm1. subst g1 g0.
      destruct (opt_moving_average options); reflexivity.
Qed.

(** ** The thread bodies, inverted *)

Lemma int_rem_Some a b r :
  CInt.int_rem a b = Some r -> b <> 0 /\ r = Z.rem a b.
Proof.
  unfold CInt.int_rem. destruct (Z.eqb_spec b 0); [discriminate|].
  intros [= <-]. auto.
Qed.

Lemma checked_Some z r :
  CInt.checked z = Some r -> r = z /\ CInt.int_min <= z <= CInt.int_max.
Proof.
  unfold CInt.checked.
  destruct (Z.leb_spec CInt.int_min z); [|discriminate].
  destruct (Z.leb_spec z CInt.int_max); [|discriminate].
  intros [= <-]. auto.
Qed.

Lemma bump_version_eq idx g lv g' :
  bump_version idx g = Some (lv, g') ->
  exists gv latest past,
    globalVersionNumber g !! idx = Some gv /\
    gv + 1 <= CInt.int_max /\
    history_size_ g <> 0 /\
    lv = Z.rem (gv + 1) (history_size_ g) /\
    param_at (params_ g) lv idx = Some latest /\
    param_at (params_ g) (Z.rem gv (history_size_ g)) idx = Some past /\
    g' = set_params_
           (set_param_at (params_ g) lv idx (overwrite latest past))
           (set_globalVersionNumber (<[idx := gv + 1]> (globalVersionNumber g))
              g).
Proof.
  unfold bump_version. intros H.
  destruct (globalVersionNumber g !! idx) as [gv|] eqn:Egv; [|discriminate].
  cbn [mbind option_bind] in H.
  destruct (CInt.int_rem gv _) as [pv|] eqn:Epv; [|discriminate].
  cbn [mbind option_bind] in H.
  destruct (CInt.checked _) as [v'|] eqn:Ev; [|discriminate].
  cbn [mbind option_bind] in H.
  destruct (CInt.int_rem v' _) as [lv'|] eqn:Elv; [|discriminate].
  cbn [mbind option_bind params_ set_globalVersionNumber] in H.
  destruct (param_at (params_ g) lv' idx) as [latest|] eqn:El; [|discriminate].
  cbn [mbind option_bind] in H.
  destruct (param_at (params_ g) pv idx) as [past|] eqn:Ep; [|discriminate].
  cbn [mbind option_bind] in H. apply (inj Some) in H.
  apply int_rem_Some in Epv, Elv. apply checked_Some in Ev.
  destruct Epv as [Hh ->], Elv as [_ ->], Ev as [-> [_ Hmax]].
  injection H as <- <-. exists gv, latest, past. split_and!; auto.
Qed.

Lemma apply_update_eq bw nb idx lv grad g g' :
  apply_update bw nb idx lv grad g = Some g' ->
  exists p o avgs,
    param_at (params_ g) lv idx = Some p /\
    shardOpt_ g !! idx = Some o /\
    length avgs = length (paramsAvg_ g) /\
    let r := opt_update o p grad (lr_scale g bw) in
    let p1 := overwrite p r.1.2 in
    (movingAvg_ g = true ->
     exists avg, paramsAvg_ g !! idx = Some avg /\
       avgs = <[idx := updateMovingAverage g avg p1 nb]> (paramsAvg_ g)) /\
    (movingAvg_ g = false -> avgs = paramsAvg_ g) /\
    g' = set_paramsAvg_ avgs
           (set_grads_ (<[idx := overwrite grad r.2]> (grads_ g))
              (set_params_ (set_param_at (params_ g) lv idx p1)
                 (set_shardOpt_ (<[idx := r.1.1]> (shardOpt_ g)) g))).
Proof.
  unfold apply_update. intros H.
  destruct (param_at (params_ g) lv idx) as [p|] eqn:Ep; [|discriminate].
  cbn [mbind option_bind] in H.
  destruct (shardOpt_ g !! idx) as [o|] eqn:Eo; [|discriminate].
  cbn [mbind option_bind] in H.
  destruct (opt_update o p grad (lr_scale g bw)) as [[o' p'] grad'] eqn:Eu.
  cbn [movingAvg_ paramsAvg_ set_grads_ set_params_ set_shardOpt_] in H.
  destruct (movingAvg_ g) eqn:Eavg.
  - destruct (paramsAvg_ g !! idx) as [avg|] eqn:Ea; [|discriminate].
    cbn [mbind option_bind] in H. apply (inj Some) in H. subst g'.
    exists p, o, (<[idx := updateMovingAverage g avg (overwrite p p') nb]>
                    (paramsAvg_ g)).
    rewrite length_insert, Eu. split_and!; try reflexivity.
    + intros _. exists avg. split; reflexivity.
    + discriminate.
  - apply (inj Some) in H. subst g'. exists p, o, (paramsAvg_ g).
    rewrite Eu. split_and!; try reflexivity. discriminate.
Qed.

Lemma pushGradients_shard_eq newGrads bw nb idx pos g g' :
  pushGradients_shard newGrads bw nb idx pos g = Some g' ->
  exists grad src g1 lv,
    grads_ g !! idx = Some grad /\
    subtensor newGrads pos (Z.of_nat (length grad)) = Some src /\
    (if 1 <? history_size_ g then bump_version idx g = Some (lv, g1)
     else lv = 0 /\ g1 = g) /\
    apply_update bw nb idx lv (overwrite grad src) g1 = Some g'.
Proof.
  unfold pushGradients_shard. intros H.
  destruct (grads_ g !! idx) as [grad|] eqn:Eg; [|discriminate].
  cbn [mbind option_bind] in H.
  destruct (subtensor _ _ _) as [src|] eqn:Es; [|discriminate].
  cbn [mbind option_bind] in H.
  destruct (1 <? history_size_ g).
  - destruct (bump_version idx g) as [[lv g1]|] eqn:Eb; [|discriminate].
    cbn [mbind option_bind] in H. exists grad, src, g1, lv. auto.
  - cbn [mbind option_bind] in H. exists grad, src, g, 0. auto.
Qed.

Lemma sparsePush_shard_eq newGrads bw nb idx pos g g' :
  sparsePush_shard newGrads bw nb idx pos g = Some g' ->
  exists grad sg g1 lv,
    grads_ g !! idx = Some grad /\
    sparseGrads_ g !! idx = Some sg /\
    let sg' :=
      sp_copyFrom sg
        (sp_subtensor newGrads pos (Z.of_nat (length grad)) (Z.of_nat idx)) in
    bump_version idx (set_sparseGrads_ (<[idx := sg']> (sparseGrads_ g)) g)
    = Some (lv, g1) /\
    apply_update bw nb idx lv
      (overwrite grad (sp_toDense sg' grad (- pos))) g1 = Some g'.
Proof.
  unfold sparsePush_shard. intros H.
  destruct (grads_ g !! idx) as [grad|] eqn:Eg; [|discriminate].
  cbn [mbind option_bind] in H.
  destruct (sparseGrads_ g !! idx) as [sg|] eqn:Es; [|discriminate].
  cbn [mbind option_bind] in H.
  destruct (bump_version idx _) as [[lv g1]|] eqn:Eb; [|discriminate].
  cbn [mbind option_bind] in H. exists grad, sg, g1, lv. auto.
Qed.

Lemma lookupZ_Some {A} (l : list A) (i : Z) (x : A) :
  lookupZ l i = Some x <-> 0 <= i /\ l !! Z.to_nat i = Some x.
Proof.
  unfold lookupZ. destruct (Z.ltb_spec i 0); split; intros Hl;
    try discriminate; try tauto; try lia.
Qed.

Lemma sparseFetchParams_shard_eq w idx pos g old g' old' :
  sparseFetchParams_shard w idx pos (g, old) = Some (g', old') ->
  exists gv locals lv cv,
    globalVersionNumber g !! idx = Some gv /\
    history_size_ g <> 0 /\
    lookupZ (localVersionNumbers g) w = Some locals /\
    locals !! idx = Some lv /\
    chosen_version (history_size_ g) gv lv = Some cv /\
    ((gv = lv /\ g' = g /\ old' = old) \/
     (gv <> lv /\
      exists tmp latest curr droppers dropper tsd deltas lsd grad view,
        tmpTensor g !! idx = Some tmp /\
        param_at (params_ g) (Z.rem gv (history_size_ g)) idx = Some latest /\
        param_at (params_ g) cv idx = Some curr /\
        lookupZ (fetchDropper g) w = Some droppers /\
        droppers !! idx = Some dropper /\
        tmpSparseDelta g !! idx = Some tsd /\
        lookupZ (localSparseDelta g) w = Some deltas /\
        deltas !! idx = Some lsd /\
        grads_ g !! idx = Some grad /\
        subtensor old pos (Z.of_nat (length grad)) = Some view /\
        let delta := Element_sub tmp latest curr in
        let r := dropGraph dropper delta tsd (drop_rate_ g) in
        let lsd' := sp_copyFrom lsd r.2 in
        g' = set_localVersionNumbers
               (<[Z.to_nat w := <[idx := gv]> locals]>
                  (localVersionNumbers g))
               (set_localSparseDelta
                  (<[Z.to_nat w := <[idx := lsd']> deltas]>
                     (localSparseDelta g))
                  (set_tmpSparseDelta (<[idx := r.2]> (tmpSparseDelta g))
                     (set_fetchDropper
                        (<[Z.to_nat w := <[idx := r.1.1]> droppers]>
                           (fetchDropper g))
                        (set_tmpTensor
                           (<[idx := overwrite delta r.1.2]> (tmpTensor g))
                           g)))) /\
        old' = write_subtensor old pos
                 (overwrite view (sp_scatterAdd lsd' view)))).
Proof.
  unfold sparseFetchParams_shard. intros H.
  destruct (globalVersionNumber g !! idx) as [gv|] eqn:Egv; [|discriminate].
  cbn [mbind option_bind] in H.
  destruct (CInt.int_rem gv _) as [latestVersion|] eqn:Elv; [|discriminate].
  cbn [mbind option_bind] in H.
  destruct (lookupZ (localVersionNumbers g) w) as [locals|] eqn:Eloc;
    [|discriminate].
  cbn [mbind option_bind] in H.
  destruct (locals !! idx) as [lv|] eqn:Elo; [|discriminate].
  cbn [mbind option_bind] in H.
  destruct (chosen_version _ _ _) as [cv|] eqn:Ecv; [|discriminate].
  cbn [mbind option_bind] in H.
  apply int_rem_Some in Elv. destruct Elv as [Hh ->].
  exists gv, locals, lv, cv. split_and!; try assumption; try reflexivity.
  destruct (gv =? lv) eqn:Eeq.
  - left. apply Z.eqb_eq in Eeq. injection H as <- <-. auto.
  - right. apply Z.eqb_neq in Eeq. split; [assumption|].
    destruct (tmpTensor g !! idx) as [tmp|] eqn:Etmp; [|discriminate].
    cbn [mbind option_bind] in H.
    destruct (param_at (params_ g) (Z.rem gv (history_size_ g)) idx)
      as [latest|] eqn:Ela; [|discriminate].
    cbn [mbind option_bind] in H.
    destruct (param_at (params_ g) cv idx) as [curr|] eqn:Ecu; [|discriminate].
    cbn [mbind option_bind] in H.
    destruct (lookupZ (fetchDropper g) w) as [droppers|] eqn:Eds;
      [|discriminate].
    cbn [mbind option_bind] in H.
    destruct (droppers !! idx) as [dropper|] eqn:Ed; [|discriminate].
    cbn [mbind option_bind] in H.
    destruct (tmpSparseDelta g !! idx) as [tsd|] eqn:Etsd; [|discriminate].
    cbn [mbind option_bind] in H.
    destruct (dropGraph dropper (Element_sub tmp latest curr) tsd
                (drop_rate_ g)) as [[dropper' delta'] tsd'] eqn:Edrop.
    destruct (lookupZ (localSparseDelta g) w) as [deltas|] eqn:Edl;
      [|discriminate].
    cbn [mbind option_bind] in H.
    destruct (deltas !! idx) as [lsd|] eqn:Elsd; [|discriminate].
    cbn [mbind option_bind] in H.
    destruct (grads_ g !! idx) as [grad|] eqn:Egr; [|discriminate].
    cbn [mbind option_bind] in H.
    destruct (subtensor old pos _) as [view|] eqn:Ev; [|discriminate].
    cbn [mbind option_bind] in H.
    exists tmp, latest, curr, droppers, dropper, tsd, deltas, lsd, grad, view.
    rewrite Edrop. cbn [fst snd].
    injection H as <- <-. split_and!; reflexivity || assumption.
Qed.

(** ** Invariants of a run *)

(** Every vector has one entry per device, the ring has [history_size_]
    rows, and the sparse buffers exist when the drop rate is not zero. *)
Record lengths_ok (g : AsyncGraphGroup K) : Prop := {
  lo_n : (1 <= length (devices_ g))%nat;
  lo_graphs : length (graphs_ g) = length (devices_ g);
  lo_hist : 1 <= history_size_ g;
  lo_single : (length (devices_ g) < 2)%nat -> history_size_ g = 1;
  lo_gvn : length (globalVersionNumber g) = length (devices_ g);
  lo_lvn : length (localVersionNumbers g) = length (devices_ g);
  lo_lvn_rows :
    Forall (fun row => length row = length (devices_ g))
      (localVersionNumbers g);
  lo_params : length (params_ g) = Z.to_nat (history_size_ g);
  lo_params_rows :
    Forall (fun row => length row = length (devices_ g)) (params_ g);
  lo_grads : length (grads_ g) = length (devices_ g);
  lo_opt : length (shardOpt_ g) = length (devices_ g);
  lo_avg : movingAvg_ g = true -> length (paramsAvg_ g) = length (devices_ g);
  lo_tmp :
    FP.to_bool (drop_rate_ g) = true ->
    length (tmpTensor g) = length (devices_ g);
  lo_tsd :
    FP.to_bool (drop_rate_ g) = true ->
    length (tmpSparseDelta g) = length (devices_ g);
  lo_sg :
    FP.to_bool (drop_rate_ g) = true ->
    length (sparseGrads_ g) = length (devices_ g);
  lo_lsg :
    FP.to_bool (drop_rate_ g) = true ->
    length (localSparseGrads_ g) = length (devices_ g);
  lo_lsd :
    FP.to_bool (drop_rate_ g) = true ->
    length (localSparseDelta g) = length (devices_ g);
  lo_lsd_rows :
    Forall (fun row => length row = length (devices_ g)) (localSparseDelta g);
  lo_droppers :
    Forall (fun row => length row = length (devices_ g)) (fetchDropper g);
}.

Lemma Forall_set_param_at n ps lv idx t :
  Forall (fun row : list Tensor => length row = n) ps ->
  Forall (fun row : list Tensor => length row = n) (set_param_at ps lv idx t).
Proof.
  intros H. unfold set_param_at. apply Forall_alter; [assumption|].
  intros row _ Hr. now rewrite length_insert.
Qed.

Lemma Forall_insert_row {A} n (rows : list (list A)) w idx x row :
  Forall (fun row => length row = n) rows ->
  length row = n ->
  Forall (fun row => length row = n) (<[w := <[idx := x]> row]> rows).
Proof.
  intros H Hr. apply Forall_insert; [assumption|]. now rewrite length_insert.
Qed.

Lemma length_set_param_at (ps : list (list Tensor)) lv idx t :
  length (set_param_at ps lv idx t) = length ps.
Proof. apply length_alter. Qed.

(** Closes the goals left by a step that rewrites fields in place. *)
Ltac lengths H :=
  destruct H; split; cbn;
  rewrite ?length_insert, ?length_set_param_at, ?length_alter, ?length_app,
    ?length_replicate;
  auto using Forall_set_param_at, Forall_insert.

Lemma bump_version_lengths idx g lv g' :
  bump_version idx g = Some (lv, g') -> lengths_ok g -> lengths_ok g'.
Proof.
  intros Hb H. apply bump_version_eq in Hb.
  destruct Hb as (gv & latest & past & _ & _ & _ & _ & _ & _ & ->).
  lengths H.
Qed.

Lemma apply_update_lengths bw nb idx lv grad g g' :
  apply_update bw nb idx lv grad g = Some g' -> lengths_ok g -> lengths_ok g'.
Proof.
  intros Hu H. apply apply_update_eq in Hu.
  destruct Hu as (p & o & avgs & _ & _ & Hl & _ & _ & ->).
  lengths H. intros. rewrite Hl. auto.
Qed.

Lemma pushGradients_shard_lengths newGrads bw nb idx pos g g' :
  pushGradients_shard newGrads bw nb idx pos g = Some g' ->
  lengths_ok g -> lengths_ok g'.
Proof.
  intros Hp H. apply pushGradients_shard_eq in Hp.
  destruct Hp as (grad & src & g1 & lv & _ & _ & Hb & Hu).
  eapply apply_update_lengths; [eassumption|].
  destruct (1 <? history_size_ g).
  - eapply bump_version_lengths; eassumption.
  - destruct Hb as [_ ->]. assumption.
Qed.

Lemma sparsePush_shard_lengths newGrads bw nb idx pos g g' :
  sparsePush_shard newGrads bw nb idx pos g = Some g' ->
  lengths_ok g -> lengths_ok g'.
Proof.
  intros Hp H. apply sparsePush_shard_eq in Hp.
  destruct Hp as (grad & sg & g1 & lv & _ & _ & Hb & Hu).
  eapply apply_update_lengths; [eassumption|].
  eapply bump_version_lengths; [eassumption|]. lengths H.
Qed.

Lemma sparseFetchParams_shard_lengths w idx pos g old g' old' :
  sparseFetchParams_shard w idx pos (g, old) = Some (g', old') ->
  lengths_ok g -> lengths_ok g'.
Proof.
  intros Hf H. apply sparseFetchParams_shard_eq in Hf.
  destruct Hf as (gv & locals & lv & cv & _ & _ & Hloc & _ & _ & Hcase).
  destruct Hcase as [(_ & -> & _)|(_ & Hcase)]; [assumption|].
  destruct Hcase as (tmp & latest & curr & droppers & dropper & tsd & deltas
                     & lsd & grad & view & _ & _ & _ & Hds & _ & _ & Hdl & _
                     & _ & _ & -> & _).
  apply lookupZ_Some in Hloc, Hds, Hdl.
  destruct Hloc as [_ Hloc], Hds as [_ Hds], Hdl as [_ Hdl].
  pose proof (Forall_lookup_1 _ _ _ _ (lo_lvn_rows _ H) Hloc).
  pose proof (Forall_lookup_1 _ _ _ _ (lo_droppers _ H) Hds).
  pose proof (Forall_lookup_1 _ _ _ _ (lo_lsd_rows _ H) Hdl).
  lengths H; apply Forall_insert_row; assumption.
Qed.

Lemma update_graph0_lengths bw g g' :
  update_graph0 bw g = Some g' -> lengths_ok g -> lengths_ok g'.
Proof.
  unfold update_graph0. intros Hu H.
  destruct (graphs_ g !! 0%nat) as [graph0|]; [|discriminate].
  cbn [mbind option_bind] in Hu.
  destruct (opt_update _ _ _ _) as [[o' p'] grad'].
  apply (inj Some) in Hu. subst g'. lengths H.
Qed.

Lemma bind_worker_lengths g i w g' i' w' :
  bind_worker (mkShared g i) w = Some (mkShared g' i', w') ->
  lengths_ok g -> lengths_ok g'.
Proof.
  unfold bind_worker. intros Hb H.
  destruct (tl_graph w).
  - cbn [mbind option_bind] in Hb. destruct (tl_dropper w).
    + injection Hb as <- _ _. assumption.
    + injection Hb as <- _ _. cbn [group]. lengths H.
      apply Forall_app_2; [assumption|]. apply Forall_singleton.
      apply length_replicate.
  - cbn [group static_i] in Hb.
    destruct (lookupZ (graphs_ g) i); [|discriminate].
    cbn [mbind option_bind tl_dropper] in Hb. destruct (tl_dropper w).
    + injection Hb as <- _ _. assumption.
    + injection Hb as <- _ _. cbn [group]. lengths H.
      apply Forall_app_2; [assumption|]. apply Forall_singleton.
      apply length_replicate.
Qed.

Lemma shard_step_lengths g tags g' tags' :
  shard_step (g, tags) (g', tags') -> lengths_ok g -> lengths_ok g'.
Proof.
  inversion 1; subst; intros Hl;
    eauto using pushGradients_shard_lengths, sparsePush_shard_lengths,
      update_graph0_lengths, sparseFetchParams_shard_lengths,
      bind_worker_lengths.
  - lengths Hl. congruence.
  - lengths Hl.
Qed.

(** Versions never go down, a worker never saw more than there is, and a
    group of one device stays at version 0. *)
Record versions_ok (g : AsyncGraphGroup K) : Prop := {
  vo_range : forall idx gv,
    globalVersionNumber g !! idx = Some gv -> 0 <= gv <= CInt.int_max;
  vo_local : forall w (row : list Z) idx lv gv,
    localVersionNumbers g !! w = Some row -> row !! idx = Some lv ->
    globalVersionNumber g !! idx = Some gv -> 0 <= lv <= gv;
  vo_single : (length (devices_ g) < 2)%nat ->
    forall idx gv, globalVersionNumber g !! idx = Some gv -> gv = 0;
}.

(** The ring: the buffer of slot [v mod history_size_] holds version [v],
    for each of the last [history_size_] versions [v] of a shard. *)
Record ring_ok (g : AsyncGraphGroup K) (tags : Tags) : Prop := {
  ro_length : length tags = Z.to_nat (history_size_ g);
  ro_rows : Forall (fun row => length row = length (devices_ g)) tags;
  ro_ring : forall idx gv v,
    globalVersionNumber g !! idx = Some gv ->
    gv - history_size_ g < v <= gv -> 0 <= v ->
    tag_at tags (v mod history_size_ g) idx = Some v;
}.

Lemma versions_ok_same g g' :
  globalVersionNumber g' = globalVersionNumber g ->
  localVersionNumbers g' = localVersionNumbers g ->
  devices_ g' = devices_ g ->
  versions_ok g -> versions_ok g'.
Proof. intros Hg Hl Hd [H1 H2 H3]. split; rewrite ?Hg, ?Hl, ?Hd; assumption. Qed.

Lemma ring_ok_same g g' tags :
  globalVersionNumber g' = globalVersionNumber g ->
  history_size_ g' = history_size_ g ->
  devices_ g' = devices_ g ->
  ring_ok g tags -> ring_ok g' tags.
Proof. intros Hg Hh Hd [H1 H2 H3]. split; rewrite ?Hg, ?Hh, ?Hd; assumption. Qed.

Lemma apply_update_versions bw nb idx lv grad g g' :
  apply_update bw nb idx lv grad g = Some g' ->
  globalVersionNumber g' = globalVersionNumber g /\
  localVersionNumbers g' = localVersionNumbers g.
Proof.
  intros Hu. apply apply_update_eq in Hu.
  destruct Hu as (p & o & avgs & _ & _ & _ & _ & _ & ->). auto.
Qed.

Lemma bump_version_versions idx g lv g' :
  bump_version idx g = Some (lv, g') ->
  (2 <= length (devices_ g))%nat ->
  versions_ok g -> versions_ok g'.
Proof.
  intros Hb Hn [H1 H2 H3]. apply bump_version_eq in Hb.
  destruct Hb as (gv & latest & past & Hgv & Hmax & _ & _ & _ & _ & ->).
  pose proof (H1 _ _ Hgv) as Hr.
  split; cbn [globalVersionNumber localVersionNumbers devices_
              set_params_ set_globalVersionNumber].
  - intros i v Hi. apply list_lookup_insert_Some in Hi.
    destruct Hi as [(-> & <- & _)|(_ & Hi)]; [lia|eauto].
  - intros w row i l v Hw Hi Hv. apply list_lookup_insert_Some in Hv.
    destruct Hv as [(-> & <- & _)|(_ & Hv)]; [|eauto].
    specialize (H2 _ _ _ _ _ Hw Hi Hgv). lia.
  - lia.
Qed.

Lemma tag_at_alter_ne tags slot slot' idx idx' v :
  slot <> slot' \/ idx <> idx' ->
  0 <= slot -> 0 <= slot' ->
  tag_at (alter (fun row => <[idx := v]> row) (Z.to_nat slot) tags) slot' idx'
  = tag_at tags slot' idx'.
Proof.
  intros Hne Hs Hs'. unfold tag_at, lookupZ.
  destruct (Z.ltb_spec slot' 0); [lia|].
  destruct (Z.eq_dec slot slot') as [->|Hslot].
  - rewrite list_lookup_alter_eq. destruct (tags !! Z.to_nat slot'); cbn;
      [|reflexivity].
    apply list_lookup_insert_ne. destruct Hne; congruence.
  - rewrite list_lookup_alter_ne by lia. reflexivity.
Qed.

Lemma tag_at_alter_eq tags slot idx v :
  0 <= slot -> (Z.to_nat slot < length tags)%nat ->
  Forall (fun row => (idx < length row)%nat) tags ->
  tag_at (alter (fun row => <[idx := v]> row) (Z.to_nat slot) tags) slot idx
  = Some v.
Proof.
  intros Hs Hl Hrows. unfold tag_at, lookupZ.
  destruct (Z.ltb_spec slot 0); [lia|].
  rewrite list_lookup_alter_eq.
  destruct (lookup_lt_is_Some_2 _ _ Hl) as [row Hrow]. rewrite Hrow. cbn.
  apply list_lookup_insert_eq. exact (Forall_lookup_1 _ _ _ _ Hrows Hrow).
Qed.

Lemma bump_version_ring idx g lv g' tags :
  bump_version idx g = Some (lv, g') ->
  lengths_ok g -> versions_ok g -> ring_ok g tags ->
  ring_ok g' (tag_bump g idx tags).
Proof.
  intros Hb Hl Hv [R1 R2 R3]. apply bump_version_eq in Hb.
  destruct Hb as (gv & latest & past & Hgv & Hmax & _ & _ & _ & _ & ->).
  pose proof (vo_range _ Hv _ _ Hgv) as Hr.
  pose proof (lo_hist _ Hl) as Hh.
  unfold tag_bump. rewrite Hgv.
  rewrite Z.rem_mod_nonneg by lia.
  assert (Hslot : 0 <= (gv + 1) mod history_size_ g < history_size_ g)
    by (apply Z.mod_pos_bound; lia).
  split; cbn [globalVersionNumber history_size_ devices_
              set_params_ set_globalVersionNumber].
  - now rewrite length_alter.
  - apply Forall_alter; [assumption|]. intros row _ Hrow.
    now rewrite length_insert.
  - intros i v' v Hi Hrange Hnn. apply list_lookup_insert_Some in Hi.
    destruct Hi as [(-> & <- & Hlt)|(Hne & Hi)].
    + destruct (Z.eq_dec v (gv + 1)) as [->|Hnv].
      * apply tag_at_alter_eq; [lia|lia|].
        eapply Forall_impl; [exact R2|]. cbn. intros row ->.
        rewrite <- (lo_gvn _ Hl). assumption.
      * rewrite tag_at_alter_ne.
        -- apply (R3 i gv v Hgv); lia.
        -- left. intros Heq.
           assert (Hd : (gv + 1 - v) mod history_size_ g = 0).
           { rewrite Zminus_mod, Heq, Z.sub_diag. apply Z.mod_0_l. lia. }
           rewrite Z.mod_small in Hd by lia. lia.
        -- lia.
        -- apply Z.mod_pos_bound. lia.
    + rewrite tag_at_alter_ne.
      * apply (R3 i v' v Hi); assumption.
      * right. assumption.
      * lia.
      * apply Z.mod_pos_bound. lia.
Qed.

Lemma pushGradients_shard_versions newGrads bw nb idx pos g g' :
  pushGradients_shard newGrads bw nb idx pos g = Some g' ->
  lengths_ok g -> versions_ok g -> versions_ok g'.
Proof.
  intros Hp Hl Hv. pose proof (pushGradients_shard_config _ _ _ _ _ _ _ Hp).
  apply pushGradients_shard_eq in Hp.
  destruct Hp as (grad & src & g1 & lv & _ & _ & Hb & Hu).
  apply apply_update_versions in Hu as Huv. destruct Huv as [Hg1 Hl1].
  assert (versions_ok g1) as Hv1.
  { destruct (Z.ltb_spec 1 (history_size_ g)) as [Hh|Hh].
    - eapply bump_version_versions; [eassumption| |assumption].
      destruct (Nat.lt_ge_cases (length (devices_ g)) 2) as [Hn|Hn];
        [|assumption].
      pose proof (lo_single _ Hl Hn). lia.
    - destruct Hb as [_ ->]. assumption. }
  apply apply_update_config in Hu.
  eapply versions_ok_same; [exact Hg1|exact Hl1| |exact Hv1].
  apply (sc_devices _ _ Hu).
Qed.

Lemma pushGradients_shard_ring newGrads bw nb idx pos g g' tags :
  pushGradients_shard newGrads bw nb idx pos g = Some g' ->
  lengths_ok g -> versions_ok g -> ring_ok g tags ->
  ring_ok g' (if 1 <? history_size_ g then tag_bump g idx tags else tags).
Proof.
  intros Hp Hl Hv Hr. apply pushGradients_shard_eq in Hp.
  destruct Hp as (grad & src & g1 & lv & _ & _ & Hb & Hu).
  apply apply_update_versions in Hu as Huv. destruct Huv as [Hg1 Hl1].
  apply apply_update_config in Hu.
  destruct (1 <? history_size_ g).
  - eapply ring_ok_same;
      [exact Hg1|apply (sc_history _ _ Hu)|apply (sc_devices _ _ Hu)|].
    eapply bump_version_ring; eassumption.
  - destruct Hb as [_ ->].
    eapply ring_ok_same;
      [exact Hg1|apply (sc_history _ _ Hu)|apply (sc_devices _ _ Hu)|].
    assumption.
Qed.

Lemma sparsePush_shard_versions newGrads bw nb idx pos g g' :
  sparsePush_shard newGrads bw nb idx pos g = Some g' ->
  (2 <= length (devices_ g))%nat ->
  versions_ok g -> versions_ok g'.
Proof.
  intros Hp Hn Hv. apply sparsePush_shard_eq in Hp.
  destruct Hp as (grad & sg & g1 & lv & _ & _ & Hb & Hu).
  apply apply_update_versions in Hu as Huv. destruct Huv as [Hg1 Hl1].
  apply apply_update_config in Hu.
  eapply versions_ok_same; [exact Hg1|exact Hl1|apply (sc_devices _ _ Hu)|].
  eapply bump_version_versions; [eassumption|exact Hn|].
  eapply versions_ok_same; [| | |exact Hv]; reflexivity.
Qed.

Lemma lengths_ok_sparseGrads g sgs :
  length sgs = length (sparseGrads_ g) ->
  lengths_ok g -> lengths_ok (set_sparseGrads_ sgs g).
Proof. intros Hs H. lengths H. intros. rewrite Hs. auto. Qed.

Lemma sparsePush_shard_ring newGrads bw nb idx pos g g' tags :
  sparsePush_shard newGrads bw nb idx pos g = Some g' ->
  lengths_ok g -> versions_ok g -> ring_ok g tags ->
  ring_ok g' (tag_bump g idx tags).
Proof.
  intros Hp Hl Hv Hr. apply sparsePush_shard_eq in Hp.
  destruct Hp as (grad & sg & g1 & lv & _ & _ & Hb & Hu).
  apply apply_update_versions in Hu as Huv. destruct Huv as [Hg1 Hl1].
  apply apply_update_config in Hu.
  eapply ring_ok_same;
    [exact Hg1|apply (sc_history _ _ Hu)|apply (sc_devices _ _ Hu)|].
  eapply (bump_version_ring _ _ _ _ tags) in Hb.
  - exact Hb.
  - apply lengths_ok_sparseGrads; [apply length_insert|assumption].
  - eapply versions_ok_same; [| | |exact Hv]; reflexivity.
  - eapply ring_ok_same; [| | |exact Hr]; reflexivity.
Qed.

Lemma sparseFetchParams_shard_versions w idx pos g old g' old' :
  sparseFetchParams_shard w idx pos (g, old) = Some (g', old') ->
  versions_ok g -> versions_ok g'.
Proof.
  intros Hf [H1 H2 H3]. apply sparseFetchParams_shard_eq in Hf.
  destruct Hf as (gv & locals & lv & cv & Hgv & _ & Hloc & Hlv & _ & Hcase).
  destruct Hcase as [(_ & -> & _)|(_ & Hcase)]; [split; assumption|].
  destruct Hcase as (tmp & latest & curr & droppers & dropper & tsd & deltas
                     & lsd & grad & view & _ & _ & _ & _ & _ & _ & _ & _
                     & _ & _ & -> & _).
  apply lookupZ_Some in Hloc. destruct Hloc as [_ Hloc].
  split; cbn; [assumption| |assumption].
  intros w' row i l v Hw Hi Hv.
  apply list_lookup_insert_Some in Hw.
  destruct Hw as [(<- & <- & _)|(_ & Hw)]; [|eauto].
  apply list_lookup_insert_Some in Hi.
  destruct Hi as [(<- & <- & _)|(_ & Hi)]; [|eauto].
  assert (v = gv) by congruence. subst v.
  specialize (H1 _ _ Hgv). lia.
Qed.

Lemma shard_step_versions g tags g' tags' :
  shard_step (g, tags) (g', tags') ->
  lengths_ok g -> versions_ok g -> versions_ok g'.
Proof.
  inversion 1; subst; intros Hl Hv;
    eauto using pushGradients_shard_versions,
      sparseFetchParams_shard_versions.
  - eapply sparsePush_shard_versions; [eassumption| |assumption].
    rewrite <- (lo_graphs _ Hl). assumption.
  - match goal with H : update_graph0 _ _ = Some _ |- _ =>
      unfold update_graph0 in H;
      destruct (graphs_ g !! 0%nat); [|discriminate];
      cbn [mbind option_bind] in H;
      destruct (opt_update _ _ _ _) as [[? ?] ?];
      apply (inj Some) in H; subst g' end.
    eapply versions_ok_same; [| | |exact Hv]; reflexivity.
  - match goal with H : bind_worker _ _ = Some _ |- _ =>
      pose proof (bind_worker_config _ _ _ _ _ _ H) as Hc;
      unfold bind_worker in H;
      destruct (tl_graph w);
      [|cbn [group static_i] in H;
        destruct (lookupZ (graphs_ g) i); [|discriminate]];
      cbn [mbind option_bind tl_dropper] in H;
      destruct (tl_dropper w); injection H as <- _ _ end;
      try assumption;
      (eapply versions_ok_same; [| | |exact Hv]; reflexivity).
  - eapply versions_ok_same; [| | |exact Hv]; reflexivity.
  - eapply versions_ok_same; [| | |exact Hv]; reflexivity.
Qed.

Lemma shard_step_ring g tags g' tags' :
  shard_step (g, tags) (g', tags') ->
  lengths_ok g -> versions_ok g -> ring_ok g tags -> ring_ok g' tags'.
Proof.
  inversion 1; subst; intros Hl Hv Hr;
    eauto using pushGradients_shard_ring, sparsePush_shard_ring.
  all: match goal with
       | H : shard_step (?a, _) (?b, _) |- _ =>
           pose proof (shard_step_config _ _ _ _ H) as Hc
       end.
  - eapply ring_ok_same;
      [|apply (sc_history _ _ Hc)|apply (sc_devices _ _ Hc)|exact Hr].
    match goal with H : update_graph0 _ _ = Some _ |- _ =>
      unfold update_graph0 in H;
      destruct (graphs_ g !! 0%nat); [|discriminate];
      cbn [mbind option_bind] in H;
      destruct (opt_update _ _ _ _) as [[? ?] ?];
      apply (inj Some) in H; subst g' end.
    reflexivity.
  - eapply ring_ok_same;
      [|apply (sc_history _ _ Hc)|apply (sc_devices _ _ Hc)|exact Hr].
    match goal with H : sparseFetchParams_shard _ _ _ _ = Some _ |- _ =>
      apply sparseFetchParams_shard_eq in H;
      destruct H as (gv & locals & lv & cv & _ & _ & _ & _ & _ & Hcase) end.
    destruct Hcase as [(_ & -> & _)|(_ & Hcase)]; [reflexivity|].
    destruct Hcase as (tmp & latest & curr & droppers & dropper & tsd & deltas
                       & lsd & grad & view & _ & _ & _ & _ & _ & _ & _ & _
                       & _ & _ & -> & _).
    reflexivity.
  - eapply ring_ok_same;
      [|apply (sc_history _ _ Hc)|apply (sc_devices _ _ Hc)|exact Hr].
    match goal with H : bind_worker _ _ = Some _ |- _ =>
      unfold bind_worker in H;
      destruct (tl_graph w);
      [|cbn [group static_i] in H;
        destruct (lookupZ (graphs_ g) i); [|discriminate]];
      cbn [mbind option_bind tl_dropper] in H;
      destruct (tl_dropper w); injection H as <- _ _ end;
      reflexivity.
  - eapply ring_ok_same; [| | |exact Hr]; reflexivity.
  - eapply ring_ok_same; [| | |exact Hr]; reflexivity.
Qed.

(** The three invariants together. *)
Record inv (g : AsyncGraphGroup K) (tags : Tags) : Prop := {
  inv_lengths : lengths_ok g;
  inv_versions : versions_ok g;
  inv_ring : ring_ok g tags;
}.

Lemma initial_history_size_single (drop_rate : double) (h : Z) :
  initial_history_size drop_rate 1 = Some h -> h = 1.
Proof.
  rewrite initial_history_size_value by (vm_compute; discriminate).
  destruct (FP.gt_zero drop_rate); intros [= <-]; reflexivity.
Qed.

Lemma first_state_inv options built s cap sub graph0 h :
  built !! 0%nat = Some graph0 ->
  length built = length (opt_devices options) ->
  initial_history_size (opt_drop_rate options)
    (Z.of_nat (length (opt_devices options))) = Some h ->
  1 <= h ->
  let g := first_state options built s cap sub in
  inv g (replicate (Z.to_nat (history_size_ g))
           (replicate (length (devices_ g)) 0)).
Proof.
  intros Hg0 Hlen Hh Hpos g.
  assert (Hn : (1 <= length (opt_devices options))%nat).
  { rewrite <- Hlen. apply lookup_lt_Some in Hg0. lia. }
  assert (Hhg : history_size_ g = h).
  { subst g. unfold first_state. cbn [history_size_]. now rewrite Hh. }
  assert (Hdg : devices_ g = opt_devices options) by reflexivity.
  assert (Hgv : globalVersionNumber g
                = replicate (length (opt_devices options)) 0) by reflexivity.
  split.
  - split; rewrite ?Hhg, ?Hdg.
    + assumption.
    + exact Hlen.
    + assumption.
    + intros Hlt. assert (Hone : length (opt_devices options) = 1%nat) by lia.
      rewrite Hone in Hh. eapply initial_history_size_single. exact Hh.
    + rewrite Hgv. apply length_replicate.
    + apply length_replicate.
    + apply Forall_replicate, length_replicate.
    + subst g. unfold first_state. cbn [params_]. rewrite Hh.
      apply length_replicate.
    + subst g. unfold first_state. cbn [params_].
      apply Forall_replicate, length_shard_slices.
    + subst g. unfold first_state. cbn [grads_].
      now rewrite length_fmap, length_shard_sizes.
    + subst g. unfold first_state. cbn [shardOpt_]. apply length_fmap.
    + subst g. unfold first_state. cbn [movingAvg_ paramsAvg_].
      intros ->. apply length_shard_slices.
    + subst g. unfold first_state. cbn [drop_rate_ tmpTensor]. intros ->.
      now rewrite length_fmap, length_shard_sizes.
    + subst g. unfold first_state. cbn [drop_rate_ tmpSparseDelta].
      intros ->. apply length_fmap.
    + subst g. unfold first_state. cbn [drop_rate_ sparseGrads_].
      intros ->. apply length_fmap.
    + subst g. unfold first_state. cbn [drop_rate_ localSparseGrads_].
      intros ->. apply length_fmap.
    + subst g. unfold first_state. cbn [drop_rate_ localSparseDelta].
      intros ->. apply length_fmap.
    + subst g. unfold first_state. cbn [localSparseDelta].
      destruct (FP.to_bool _); [|constructor].
      apply Forall_fmap, Forall_forall. intros d _. apply length_replicate.
    + constructor.
  - split; rewrite ?Hgv.
    + intros idx gv Hi. apply lookup_replicate in Hi as [-> _].
      unfold CInt.int_max. lia.
    + intros w row idx lv gv Hw Hi Hv.
      apply lookup_replicate in Hw as [-> _].
      apply lookup_replicate in Hi as [-> _].
      apply lookup_replicate in Hv as [-> _]. lia.
    + intros _ idx gv Hi. apply lookup_replicate in Hi as [-> _]. reflexivity.
  - split; rewrite ?Hhg, ?Hdg, ?Hgv.
    + apply length_replicate.
    + apply Forall_replicate, length_replicate.
    + intros idx gv v Hi Hrange Hv. apply lookup_replicate in Hi as [-> Hi].
      assert (v = 0) by lia. subst v. rewrite Z.mod_0_l by lia.
      unfold tag_at, lookupZ. cbn [Z.ltb Z.compare Z.to_nat].
      rewrite lookup_replicate_2 by lia. cbn [mbind option_bind].
      apply lookup_replicate_2. assumption.
Qed.

(** Every reachable state satisfies the invariants. *)
Lemma reachable_inv g tags : reachable g tags -> inv g tags.
Proof.
  induction 1 as [options built g0 g Hnew Hfirst|g tags g' tags' _ IH Hstep].
  - destruct (first_execution _ _ _ _ Hnew Hfirst)
      as (graph0 & s & cap & sub & Hg0 & Hlen & Hh & Hpos & _ & _ & _ & _
          & ->).
    eapply first_state_inv; eassumption.
  - destruct IH as [Hl Hv Hr]. split.
    + eapply shard_step_lengths; eassumption.
    + eapply shard_step_versions; eassumption.
    + eapply shard_step_ring; eassumption.
Qed.

(** ** Sparse fetch *)

Lemma chosen_version_value h gv lv :
  1 <= h -> 0 <= lv <= gv -> gv < CInt.int_max ->
  chosen_version h gv lv
  = Some (if h <=? gv - lv then (1 + gv) mod h else lv mod h).
Proof.
  intros Hh Hlv Hmax. unfold chosen_version, CInt.int_rem, CInt.checked.
  unfold CInt.int_max, CInt.int_min in *.
  destruct (Z.eqb_spec h 0); [lia|]. cbn [mbind option_bind].
  destruct (Z.leb_spec (- 2 ^ 31) (gv - lv)); [|lia].
  destruct (Z.leb_spec (gv - lv) (2 ^ 31 - 1)); [|lia].
  cbn [andb mbind option_bind].
  destruct (Z.leb_spec h (gv - lv)).
  - destruct (Z.leb_spec (- 2 ^ 31) (1 + gv)); [|lia].
    destruct (Z.leb_spec (1 + gv) (2 ^ 31 - 1)); [|lia].
    cbn [andb mbind option_bind]. now rewrite Z.rem_mod_nonneg by lia.
  - now rewrite Z.rem_mod_nonneg by lia.
Qed.

Lemma param_at_is_Some g (slot : Z) idx :
  lengths_ok g -> 0 <= slot < history_size_ g ->
  (idx < length (devices_ g))%nat ->
  is_Some (param_at (params_ g) slot idx).
Proof.
  intros Hl Hs Hi. unfold param_at, lookupZ.
  destruct (Z.ltb_spec slot 0); [lia|].
  destruct (lookup_lt_is_Some_2 (params_ g) (Z.to_nat slot)) as [row Hrow].
  { rewrite (lo_params _ Hl). lia. }
  rewrite Hrow. cbn [mbind option_bind]. apply lookup_lt_is_Some_2.
  rewrite (Forall_lookup_1 _ _ _ _ (lo_params_rows _ Hl) Hrow). assumption.
Qed.




(** C4.  On every reachable state the history buffer a sparse fetch
    subtracts exists and holds version [max lv (gv - history_size_ + 1)],
    where [gv] is the shard's version and [lv] the worker's last-seen one:
    when the worker lags by [history_size_] versions or more, the fetch
    takes slot [(1 + gv) mod history_size_], the oldest buffer of the ring,
    whose version is exactly [gv - history_size_ + 1], and never an older
    one. *)
Theorem sparse_fetch_staleness g tags (w idx : nat) gv (locals : list Z) lv :
  reachable g tags ->
  globalVersionNumber g !! idx = Some gv ->
  localVersionNumbers g !! w = Some locals ->
  locals !! idx = Some lv ->
  gv < CInt.int_max ->
  exists cv,
    chosen_version (history_size_ g) gv lv = Some cv /\
    is_Some (param_at (params_ g) cv idx) /\
    tag_at tags cv idx = Some (Z.max lv (gv - history_size_ g + 1)) /\
    (history_size_ g <= gv - lv ->
     cv = (1 + gv) mod history_size_ g /\
     tag_at tags cv idx = Some (gv - history_size_ g + 1)) /\
    (forall pos old g' old',
        sparseFetchParams_shard (Z.of_nat w) idx pos (g, old)
        = Some (g', old') ->
        gv <> lv ->
        exists tmp latest curr,
          tmpTensor g !! idx = Some tmp /\
          param_at (params_ g) (Z.rem gv (history_size_ g)) idx
          = Some latest /\
          param_at (params_ g) cv idx = Some curr).
Proof.
  intros Hreach Hgv Hloc Hlv Hmax.
  destruct (reachable_inv _ _ Hreach) as [Hl Hv [_ _ Hring]].
  pose proof (lo_hist _ Hl) as Hh.
  pose proof (vo_local _ Hv _ _ _ _ _ Hloc Hlv Hgv) as Hlr.
  assert (Hi : (idx < length (devices_ g))%nat).
  { rewrite <- (lo_gvn _ Hl). eapply lookup_lt_Some. exact Hgv. }
  rewrite chosen_version_value by (auto || lia).
  eexists. split; [reflexivity|].
  assert (Htag :
    tag_at tags
      (if history_size_ g <=? gv - lv
       then (1 + gv) mod history_size_ g else lv mod history_size_ g) idx
    = Some (Z.max lv (gv - history_size_ g + 1))).
  { destruct (Z.leb_spec (history_size_ g) (gv - lv)).
    - rewrite Z.max_r by lia.
      replace ((1 + gv) mod history_size_ g)
        with ((gv - history_size_ g + 1) mod history_size_ g).
      + apply (Hring idx gv); [assumption|lia|lia].
      + replace (1 + gv) with (gv - history_size_ g + 1 + 1 * history_size_ g)
          by ring.
        now rewrite Z_mod_plus_full.
    - rewrite Z.max_l by lia. apply (Hring idx gv); [assumption|lia|lia]. }
  split_and!.
  - apply param_at_is_Some; [assumption| |assumption].
    destruct (_ <=? _); apply Z.mod_pos_bound; lia.
  - exact Htag.
  - intros Hgap. destruct (Z.leb_spec (history_size_ g) (gv - lv)); [|lia].
    split; [reflexivity|]. rewrite Htag. f_equal. lia.
  - intros pos old g' old' Hf Hne. apply sparseFetchParams_shard_eq in Hf.
    destruct Hf as (gv' & locals' & lv' & cv & Hgv' & _ & Hloc2 & Hlv' & Hcv
                    & Hcase).
    assert (gv' = gv) by congruence. subst gv'.
    apply lookupZ_Some in Hloc2. destruct Hloc2 as [_ Hloc2].
    rewrite Nat2Z.id in Hloc2.
    assert (locals' = locals) by congruence. subst locals'.
    assert (lv' = lv) by congruence. subst lv'.
    rewrite chosen_version_value in Hcv by (auto || lia).
    injection Hcv as <-.
    destruct Hcase as [(Heq & _)|(_ & Hcase)]; [contradiction|].
    destruct Hcase as (tmp & latest & curr & droppers & dropper & tsd & deltas
                       & lsd & grad & view & H1 & H2 & H3 & H4 & H5 & H6 & H7
                       & H8 & H9 & H10 & Hg' & Hold').
    exists tmp, latest, curr. split_and!; assumption.
Qed.

(** ** Version counters *)

Lemma insert_as_alter (l : list Z) idx v :
  l !! idx = Some v -> <[idx := v + 1]> l = alter Z.succ idx l.
Proof.
  intros Hl. apply list_eq. intros j. destruct (decide (j = idx)) as [->|Hne].
  - rewrite list_lookup_insert_eq by (eapply lookup_lt_Some; exact Hl).
    rewrite list_lookup_alter_eq, Hl. reflexivity.
  - rewrite list_lookup_insert_ne, list_lookup_alter_ne by auto. reflexivity.
Qed.

Lemma alter_id_list (l : list Z) idx : alter id idx l = l.
Proof.
  apply list_eq. intros j. destruct (decide (j = idx)) as [->|Hne].
  - rewrite list_lookup_alter_eq. now destruct (l !! idx).
  - now rewrite list_lookup_alter_ne by auto.
Qed.

Lemma bump_version_counter idx g lv g' :
  bump_version idx g = Some (lv, g') ->
  globalVersionNumber g' = alter Z.succ idx (globalVersionNumber g).
Proof.
  intros H. apply bump_version_eq in H.
  destruct H as (gv & latest & past & Hgv & _ & _ & _ & _ & _ & ->).
  cbn [globalVersionNumber set_params_ set_globalVersionNumber].
  now apply insert_as_alter.
Qed.

Lemma apply_update_counter bw nb idx lv grad g g' :
  apply_update bw nb idx lv grad g = Some g' ->
  globalVersionNumber g' = globalVersionNumber g.
Proof.
  intros H. apply apply_update_eq in H.
  destruct H as (p & o & avgs & _ & _ & _ & H). cbv zeta in H.
  destruct H as (_ & _ & ->). reflexivity.
Qed.

Lemma pushGradients_shard_counter newGrads bw nb idx pos g g' :
  pushGradients_shard newGrads bw nb idx pos g = Some g' ->
  globalVersionNumber g'
  = alter (if 1 <? history_size_ g then Z.succ else id) idx
      (globalVersionNumber g).
Proof.
  intros H. apply pushGradients_shard_eq in H.
  destruct H as (grad & src & g1 & lv & _ & _ & Hb & Hu).
  apply apply_update_counter in Hu. rewrite Hu.
  destruct (1 <? history_size_ g).
  - eapply bump_version_counter. exact Hb.
  - destruct Hb as [_ ->]. now rewrite alter_id_list.
Qed.

Lemma sparsePush_shard_counter newGrads bw nb idx pos g g' :
  sparsePush_shard newGrads bw nb idx pos g = Some g' ->
  globalVersionNumber g' = alter Z.succ idx (globalVersionNumber g).
Proof.
  intros H. apply sparsePush_shard_eq in H.
  destruct H as (grad & sg & g1 & lv & _ & _ & H). cbv zeta in H.
  destruct H as [Hb Hu].
  apply apply_update_counter in Hu. rewrite Hu.
  apply bump_version_counter in Hb. exact Hb.
Qed.

Lemma update_graph0_counter bw g g' :
  update_graph0 bw g = Some g' ->
  globalVersionNumber g' = globalVersionNumber g.
Proof.
  unfold update_graph0. intros H.
  destruct (graphs_ g !! 0%nat); [|discriminate].
  cbn [mbind option_bind] in H.
  destruct (opt_update _ _ _ _) as [[o' p'] grad'].
  apply (inj Some) in H. subst g'. reflexivity.
Qed.

Lemma sparseFetchParams_shard_counter w idx pos g old g' old' :
  sparseFetchParams_shard w idx pos (g, old) = Some (g', old') ->
  globalVersionNumber g' = globalVersionNumber g.
Proof.
  intros H. apply sparseFetchParams_shard_eq in H.
  destruct H as (gv & locals & lv & cv & _ & _ & _ & _ & _ & Hcase).
  destruct Hcase as [(_ & -> & _)|(_ & Hcase)]; [reflexivity|].
  destruct Hcase as (tmp & latest & curr & droppers & dropper & tsd & deltas
                     & lsd & grad & view & _ & _ & _ & _ & _ & _ & _
                     & _ & _ & _ & -> & _).
  reflexivity.
Qed.

Lemma bind_worker_counter g i w g' i' w' :
  bind_worker (mkShared g i) w = Some (mkShared g' i', w') ->
  globalVersionNumber g' = globalVersionNumber g.
Proof.
  unfold bind_worker. intros H.
  destruct (tl_graph w); cbn [group static_i] in H.
  - cbn [mbind option_bind] in H. destruct (tl_dropper w);
      injection H as <- _ _; reflexivity.
  - destruct (lookupZ _ _); [|discriminate]. cbn [mbind option_bind] in H.
    cbn [tl_dropper group] in H. destruct (tl_dropper w);
      injection H as <- _ _; reflexivity.
Qed.

(** The loop over the shards, for a body that alters the counter of its
    shard by [f] and nothing else of the counters. *)
Lemma for_shards_counter (f : Z -> Z) g0
    (body : nat -> Z -> AsyncGraphGroup K -> option (AsyncGraphGroup K)) :
  (forall idx pos g g',
      same_config g0 g -> body idx pos g = Some g' ->
      same_config g g' /\
      globalVersionNumber g' = alter f idx (globalVersionNumber g)) ->
  forall k i pos s g g',
    same_config g0 g ->
    for_shards body k i pos s g = Some g' ->
    same_config g g' /\
    forall j,
      globalVersionNumber g' !! j
      = if bool_decide (i <= j < i + k)%nat
        then f <$> globalVersionNumber g !! j
        else globalVersionNumber g !! j.
Proof.
  intros Hbody k. induction k as [|k IH]; intros i pos s g g' Hc H.
  - apply (inj Some) in H. subst g'. split; [apply same_config_refl|].
    intros j. rewrite bool_decide_eq_false_2 by lia. reflexivity.
  - cbn [for_shards] in H.
    destruct (body i pos g) as [g1|] eqn:Eb; [|discriminate].
    cbn [mbind option_bind] in H.
    destruct (Hbody _ _ _ _ Hc Eb) as [Hc1 Hv1].
    apply IH in H; [|eapply same_config_trans; eassumption].
    destruct H as [Hc2 Hv2].
    split; [eapply same_config_trans; eassumption|].
    intros j. rewrite Hv2, Hv1.
    destruct (decide (j = i)) as [->|Hne].
    + rewrite list_lookup_alter_eq.
      rewrite (bool_decide_eq_false_2 (S i <= i < S i + k)%nat) by lia.
      rewrite bool_decide_eq_true_2 by lia. reflexivity.
    + rewrite list_lookup_alter_ne by auto.
      destruct (decide (S i <= j < S i + k)%nat).
      * rewrite !bool_decide_eq_true_2 by lia. reflexivity.
      * rewrite !bool_decide_eq_false_2 by lia. reflexivity.
Qed.

Lemma push_counter g p g' :
  push g p = Some g' ->
  same_config g g' /\
  forall idx v,
    (idx < length (devices_ g))%nat ->
    globalVersionNumber g !! idx = Some v ->
    globalVersionNumber g' !! idx = Some (if bumps g p then v + 1 else v).
Proof.
  destruct p as [newGrads bw nb|newGrads bw nb]; cbn [push bumps].
  - unfold pushGradients. intros H.
    eapply (for_shards_counter
              (if 1 <? history_size_ g then Z.succ else id) g) in H.
    + destruct H as [Hc Hv]. split; [exact Hc|]. intros idx v Hi Hgv.
      rewrite Hv, bool_decide_eq_true_2, Hgv by lia.
      now destruct (1 <? history_size_ g).
    + intros idx pos g1 g2 Hc Hb. split.
      * eapply pushGradients_shard_config. exact Hb.
      * apply pushGradients_shard_counter in Hb.
        now rewrite (sc_history _ _ Hc) in Hb.
    + apply same_config_refl.
  - unfold sparsePush. intros H.
    destruct (length (graphs_ g) <? 2)%nat.
    + split; [eapply update_graph0_config; exact H|].
      apply update_graph0_counter in H. intros idx v _ Hgv.
      cbn [negb]. now rewrite H.
    + eapply (for_shards_counter Z.succ g) in H.
      * destruct H as [Hc Hv]. split; [exact Hc|]. intros idx v Hi Hgv.
        rewrite Hv, bool_decide_eq_true_2, Hgv by lia. reflexivity.
      * intros idx pos g1 g2 Hc Hb. split.
        -- eapply sparsePush_shard_config. exact Hb.
        -- eapply sparsePush_shard_counter. exact Hb.
      * apply same_config_refl.
Qed.

Lemma bumps_same_config g g' p : same_config g g' -> bumps g' p = bumps g p.
Proof.
  intros Hc. destruct p; cbn [bumps].
  - now rewrite (sc_history _ _ Hc).
  - now rewrite (sc_graphs _ _ Hc).
Qed.

Lemma pushes_counter ps : forall g g',
  pushes g ps = Some g' ->
  forall idx v,
    (idx < length (devices_ g))%nat ->
    globalVersionNumber g !! idx = Some v ->
    globalVersionNumber g' !! idx = Some (v + bump_count g ps).
Proof.
  unfold bump_count.
  induction ps as [|p ps IH]; intros g g' H idx v Hi Hgv.
  - apply (inj Some) in H. subst g'. cbn. now rewrite Z.add_0_r.
  - cbn [pushes] in H. destruct (push g p) as [g1|] eqn:Ep; [|discriminate].
    cbn [mbind option_bind] in H.
    destruct (push_counter _ _ _ Ep) as [Hc Hv].
    specialize (Hv idx v Hi Hgv).
    rewrite <- (sc_devices _ _ Hc) in Hi.
    rewrite (IH _ _ H idx _ Hi Hv). f_equal.
    rewrite (List.filter_ext (bumps g1) (bumps g))
      by (intros q; now apply bumps_same_config).
    cbn [List.filter]. destruct (bumps g p); cbn [length]; lia.
Qed.

Lemma shard_step_counter g tags g' tags' :
  shard_step (g, tags) (g', tags') ->
  globalVersionNumber g' = globalVersionNumber g \/
  exists idx,
    globalVersionNumber g' = alter Z.succ idx (globalVersionNumber g).
Proof.
  intros Hstep. inversion Hstep; subst.
  - match goal with H : pushGradients_shard _ _ _ _ _ _ = _ |- _ =>
      apply pushGradients_shard_counter in H; rewrite H end.
    destruct (1 <? history_size_ g); [right; eauto|left; apply alter_id_list].
  - match goal with H : sparsePush_shard _ _ _ _ _ _ = _ |- _ =>
      apply sparsePush_shard_counter in H end. right; eauto.
  - left. eapply update_graph0_counter. eassumption.
  - left. eapply sparseFetchParams_shard_counter. eassumption.
  - left. eapply bind_worker_counter. eassumption.
  - left. reflexivity.
  - left. reflexivity.
Qed.

(** C1 (amended).  A push increments the version counter of a shard by
    exactly 1 when it is a dense push of a group whose history size exceeds
    1, or a sparse push of a group with two graphs or more, and leaves the
    counter as it is otherwise.  After a sequence of successful pushes the
    counter has grown by the number of incrementing pushes among them, so by
    the length of the sequence when all of them increment; and under any
    interleaving of the threads, one step changes the counter of a shard by
    0 or by 1. *)
Theorem push_version_counter g idx v :
  (idx < length (devices_ g))%nat ->
  globalVersionNumber g !! idx = Some v ->
  (forall p g',
      push g p = Some g' ->
      globalVersionNumber g' !! idx
      = Some (if bumps g p then v + 1 else v)) /\
  (forall ps g',
      pushes g ps = Some g' ->
      globalVersionNumber g' !! idx = Some (v + bump_count g ps) /\
      (forallb (bumps g) ps = true ->
       globalVersionNumber g' !! idx
       = Some (v + Z.of_nat (length ps)))) /\
  (forall tags g' tags',
      shard_step (g, tags) (g', tags') ->
      globalVersionNumber g' !! idx = Some v \/
      globalVersionNumber g' !! idx = Some (v + 1)).
Proof.
  intros Hi Hgv. split_and!.
  - intros p g' Hp. now apply (push_counter _ _ _ Hp).
  - intros ps g' Hps. pose proof (pushes_counter _ _ _ Hps idx v Hi Hgv) as Hv.
    split; [exact Hv|]. intros Hall. rewrite Hv. unfold bump_count.
    do 3 f_equal. clear -Hall. induction ps as [|p ps IH]; [reflexivity|].
    cbn [forallb] in Hall. apply andb_true_iff in Hall as [Hp Hall].
    cbn [List.filter]. rewrite Hp. cbn [length]. now rewrite IH.
  - intros tags g' tags' Hstep.
    destruct (shard_step_counter _ _ _ _ Hstep) as [->|[i ->]]; [now left|].
    destruct (decide (idx = i)) as [->|Hne].
    + right. now rewrite list_lookup_alter_eq, Hgv.
    + left. now rewrite list_lookup_alter_ne by auto.
Qed.

(** ** A single replica *)

Lemma update_graph0_eq bw g g' :
  update_graph0 bw g = Some g' ->
  exists graph0,
    graphs_ g !! 0%nat = Some graph0 /\
    let r := opt_update (opt_ g) (vals graph0) (grads graph0) (lr_scale g bw) in
    g' = set_graphs_
           (<[0%nat := mkGraph (overwrite (vals graph0) r.1.2)
                         (overwrite (grads graph0) r.2)]> (graphs_ g))
           (set_opt_ r.1.1 g).
Proof.
  unfold update_graph0. intros H.
  destruct (graphs_ g !! 0%nat) as [graph0|]; [|discriminate].
  cbn [mbind option_bind] in H. exists graph0. split; [reflexivity|].
  cbv zeta.
  destruct (opt_update _ _ _ _) as [[o' p'] grad'].
  apply (inj Some) in H. now subst g'.
Qed.

(** C10.  With fewer than two graphs [sparseFetchParams] returns the group
    and the destination as they are, and [sparsePush] does not depend on its
    sparse argument: it is the update of the group's optimizer on the values
    and gradients of graph 0, scaled by [batch_words/average_batch_words]
    when the learning rate is scaled and unscaled otherwise, which writes
    graph 0 and the optimizer only, so no version and no shard changes.
    With exactly one graph the push is defined. *)
Theorem single_replica_sparse_paths g :
  (length (graphs_ g) < 2)%nat ->
  (forall old w, sparseFetchParams g old w = Some (g, old)) /\
  (forall newGrads bw nb, sparsePush g newGrads bw nb = update_graph0 bw g) /\
  (forall newGrads bw nb g',
      sparsePush g newGrads bw nb = Some g' ->
      exists graph0,
        graphs_ g !! 0%nat = Some graph0 /\
        let scale :=
          if scale_lr g
          then Some (FP.f32_div (FP.f32_of_Z bw) (average_batch_words g))
          else None in
        let r := opt_update (opt_ g) (vals graph0) (grads graph0) scale in
        g' = set_graphs_
               (<[0%nat := mkGraph (overwrite (vals graph0) r.1.2)
                             (overwrite (grads graph0) r.2)]> (graphs_ g))
               (set_opt_ r.1.1 g) /\
        globalVersionNumber g' = globalVersionNumber g /\
        localVersionNumbers g' = localVersionNumbers g /\
        params_ g' = params_ g /\
        grads_ g' = grads_ g /\
        shardOpt_ g' = shardOpt_ g /\
        paramsAvg_ g' = paramsAvg_ g /\
        sparseGrads_ g' = sparseGrads_ g) /\
  (length (graphs_ g) = 1%nat ->
   forall newGrads bw nb, is_Some (sparsePush g newGrads bw nb)).
Proof.
  intros Hn.
  assert (Hlt : (length (graphs_ g) <? 2)%nat = true)
    by (apply Nat.ltb_lt; exact Hn).
  split_and!.
  - intros old w. unfold sparseFetchParams. now rewrite Hlt.
  - intros newGrads bw nb. unfold sparsePush. now rewrite Hlt.
  - intros newGrads bw nb g' H. unfold sparsePush in H. rewrite Hlt in H.
    apply update_graph0_eq in H. destruct H as (graph0 & Hg0 & H).
    exists graph0. split; [exact Hg0|]. cbv zeta in H |- *.
    change (if scale_lr g
            then Some (FP.f32_div (FP.f32_of_Z bw) (average_batch_words g))
            else None) with (lr_scale g bw).
    split; [exact H|]. rewrite H. split_and!; reflexivity.
  - intros H1 newGrads bw nb. unfold sparsePush. rewrite Hlt.
    unfold update_graph0.
    destruct (graphs_ g) as [|graph0 gs] eqn:Eg; [discriminate|].
    change ((graph0 :: gs) !! 0%nat) with (Some graph0).
    cbn [mbind option_bind].
    destruct (opt_update _ _ _ _) as [[o' p'] grad']. eauto.
Qed.

(** ** The task *)

Lemma for_shards_config {A} (proj : A -> AsyncGraphGroup K)
    (body : nat -> Z -> A -> option A) :
  (forall idx pos a a',
      body idx pos a = Some a' -> same_config (proj a) (proj a')) ->
  forall k i pos s a a',
    for_shards body k i pos s a = Some a' -> same_config (proj a) (proj a').
Proof.
  intros Hbody k. induction k as [|k IH]; intros i pos s a a' H.
  - apply (inj Some) in H. subst a'. apply same_config_refl.
  - cbn [for_shards] in H.
    destruct (body i pos a) as [a1|] eqn:Eb; [|discriminate].
    cbn [mbind option_bind] in H.
    eapply same_config_trans; [eapply Hbody; exact Eb|eapply IH; exact H].
Qed.

Lemma sparseFetchParams_config g old w g' old' :
  sparseFetchParams g old w = Some (g', old') -> same_config g g'.
Proof.
  unfold sparseFetchParams. destruct (_ <? _)%nat.
  - intros [= <- _]. apply same_config_refl.
  - intros H. apply (for_shards_config fst) in H; [exact H|].
    intros idx pos [g1 o1] [g2 o2] Hb.
    eapply sparseFetchParams_shard_config. exact Hb.
Qed.














(** ** Gradient accumulation *)

Lemma length_Element_add (out a : Tensor) :
  length (Element_add out a) = length out.
Proof. unfold Element_add. apply length_overwrite. Qed.

Lemma set_zero_Element_add (out a : Tensor) :
  set_zero (Element_add out a) = set_zero out.
Proof. unfold set_zero. now rewrite length_Element_add. Qed.

Lemma set_zero_fold (gs : list Tensor) : forall acc,
  set_zero (fold_left Element_add gs acc) = set_zero acc.
Proof.
  induction gs as [|g gs IH]; intros acc; [reflexivity|].
  cbn [fold_left]. now rewrite IH, set_zero_Element_add.
Qed.









(** ** The moving average *)

Lemma overwrite_lookup (dst src : Tensor) i :
  (i < length src)%nat -> (i < length dst)%nat ->
  overwrite dst src !! i = src !! i.
Proof.
  intros Hs Hd. unfold overwrite.
  rewrite lookup_app_l by (rewrite length_take; lia).
  apply lookup_take_lt. lia.
Qed.

Lemma Element_blend_lookup decay (out a : Tensor) i o x :
  out !! i = Some o -> a !! i = Some x ->
  Element_blend decay out a !! i
  = Some (FP.f32_add (FP.f32_mul decay o)
            (FP.f32_mul (FP.f32_sub FP.f32_one decay) x)).
Proof.
  intros Ho Ha. unfold Element_blend.
  pose proof (lookup_lt_Some _ _ _ Ho). pose proof (lookup_lt_Some _ _ _ Ha).
  rewrite overwrite_lookup; [|rewrite length_zip_with; lia|lia].
  rewrite lookup_zip_with, Ho. cbn [mbind option_bind].
  rewrite Ha. reflexivity.
Qed.

Lemma param_at_set_param_at ps lv idx p t :
  param_at ps lv idx = Some p ->
  param_at (set_param_at ps lv idx t) lv idx = Some t.
Proof.
  unfold param_at, set_param_at. intros H.
  destruct (lookupZ ps lv) as [row|] eqn:Er; [|discriminate].
  cbn [mbind option_bind] in H.
  apply lookupZ_Some in Er. destruct Er as [Hlv Hrow].
  assert (Hl : lookupZ (alter (fun row => <[idx := t]> row) (Z.to_nat lv) ps)
                 lv = Some (<[idx := t]> row)).
  { apply lookupZ_Some. split; [assumption|].
    now rewrite list_lookup_alter_eq, Hrow. }
  rewrite Hl. cbn [mbind option_bind].
  apply list_lookup_insert_eq. eapply lookup_lt_Some. exact H.
Qed.

Lemma decay_at_zero :
  FP.f32_div (FP.f32_of_Z (CInt.to_size_t (0 + 1)))
    (FP.f32_of_Z (CInt.to_size_t (0 + 10))) = Demo.f_0_1.
Proof. vm_compute. reflexivity. Qed.

(** C6 (amended).  The shadow parameters are an exact copy of the live
    parameters once the group has been executed for the first time: the
    copy is made there, not by an update.  Every call of
    [updateMovingAverage], the first one included, blends: the decay is
    [min(mvDecay_, (s + 1) / (s + 10))] in single precision, each element
    becomes [decay * shadow + (1 - decay) * live], and every push of a group
    with a moving average makes that call on the shard it updates.  At step
    count 0 the decay is 0.1f when [mvDecay_] exceeds it. *)
Theorem moving_average_blend options built g0 g :
  AsyncGraphGroup_new options = Some g0 ->
  execute_first built g0 = Some g ->
  opt_moving_average options = true ->
  (movingAvg_ g = true /\
   length (paramsAvg_ g) = length (opt_devices options) /\
   forall idx,
     (idx < length (opt_devices options))%nat ->
     is_Some (paramsAvg_ g !! idx) /\
     paramsAvg_ g !! idx = param_at (params_ g) 0 idx) /\
  (forall (g1 : AsyncGraphGroup K) avg live s,
      let decay :=
        FP.f32_min (mvDecay_ g1)
          (FP.f32_div (FP.f32_of_Z (CInt.to_size_t (s + 1)))
             (FP.f32_of_Z (CInt.to_size_t (s + 10)))) in
      length (updateMovingAverage g1 avg live s) = length avg /\
      forall i a x,
        avg !! i = Some a -> live !! i = Some x ->
        updateMovingAverage g1 avg live s !! i
        = Some (FP.f32_add (FP.f32_mul decay a)
                  (FP.f32_mul (FP.f32_sub FP.f32_one decay) x))) /\
  (forall bw nb idx lv grad (g1 g' : AsyncGraphGroup K),
      movingAvg_ g1 = true ->
      apply_update bw nb idx lv grad g1 = Some g' ->
      exists avg live,
        paramsAvg_ g1 !! idx = Some avg /\
        param_at (params_ g') lv idx = Some live /\
        paramsAvg_ g' !! idx = Some (updateMovingAverage g1 avg live nb)) /\
  (forall mvDecay,
      SFltb Demo.f_0_1 mvDecay = true ->
      moving_decay mvDecay 0 = Demo.f_0_1).
Proof.
  intros Hnew Hfirst Havg. split; [|split; [|split]].
  - destruct (first_execution _ _ _ _ Hnew Hfirst)
      as (graph0 & s & cap & sub & Hb0 & Hlen & H). cbv zeta in H.
    destruct H as (Hh & Hh1 & Hs & Hsz & _ & _ & ->).
    unfold first_state. cbv zeta.
    cbn [movingAvg_ paramsAvg_ params_]. rewrite Havg, Hb0.
    cbn [fmap option_fmap option_map default]. unfold id.
    pose proof (Forall2_length _ _ _ Hsz) as Hrow.
    rewrite length_shard_sizes in Hrow.
    split; [reflexivity|]. split; [exact Hrow|].
    intros idx Hi. split.
    + apply lookup_lt_is_Some. lia.
    + unfold param_at, lookupZ. change (0 <? 0) with false.
      change (Z.to_nat 0) with 0%nat.
      rewrite Hh. cbn [default].
      rewrite lookup_replicate_2 by lia. reflexivity.
  - intros g1 avg live s decay.
    unfold updateMovingAverage, moving_decay. fold decay. split.
    + unfold Element_blend. apply length_overwrite.
    + intros i a x Ha Hx. now apply Element_blend_lookup.
  - intros bw nb idx lv grad g1 g' Hm H. apply apply_update_eq in H.
    destruct H as (p & o & avgs & Hp & Ho & _ & H). cbv zeta in H.
    destruct H as (Hupd & _ & ->).
    destruct (Hupd Hm) as (avg & Ha & ->).
    eexists avg, _.
    cbn [paramsAvg_ params_ set_paramsAvg_ set_grads_ set_params_
           set_shardOpt_].
    split; [exact Ha|]. split.
    + eapply param_at_set_param_at. exact Hp.
    + apply list_lookup_insert_eq. eapply lookup_lt_Some. exact Ha.
  - intros mvDecay Hlt. unfold moving_decay. rewrite decay_at_zero.
    unfold FP.f32_min. now rewrite Hlt.
Qed.

(** ** Sparse buffers *)

(** C8.  When the drop rate is not zero, the first execution allocates, for
    each device, two sparse buffers for a whole gradient whose capacity is
    [totalSize * 1.2 * (1.0 - drop_rate_)], computed in double precision and
    truncated to [int], and, when that capacity is not negative, sparse
    buffers for the deltas of one shard (one temporary, and one per worker)
    whose capacity is that capacity divided by the number of devices. *)
Theorem sparse_buffer_capacity options built g0 g :
  AsyncGraphGroup_new options = Some g0 ->
  execute_first built g0 = Some g ->
  FP.to_bool (opt_drop_rate options) = true ->
  let n := length (opt_devices options) in
  exists graph0 cap,
    built !! 0%nat = Some graph0 /\
    FP.to_int
      (FP.f64_mul
         (FP.f64_mul (FP.f64_of_Z (Z.of_nat (length (vals graph0))))
            FP.f64_1_2)
         (FP.f64_sub FP.f64_one (opt_drop_rate options))) = Some cap /\
    length (sparseGrads_ g) = n /\
    length (localSparseGrads_ g) = n /\
    length (tmpSparseDelta g) = n /\
    length (localSparseDelta g) = n /\
    Forall (fun t => sp_capacity t = cap) (sparseGrads_ g) /\
    Forall (fun t => sp_capacity t = cap) (localSparseGrads_ g) /\
    (0 <= cap ->
     Forall (fun t => sp_capacity t = cap / Z.of_nat n) (tmpSparseDelta g) /\
     Forall (fun row =>
               length row = n /\
               Forall (fun t => sp_capacity t = cap / Z.of_nat n) row)
       (localSparseDelta g)).
Proof.
  intros Hnew Hfirst Hdrop n.
  destruct (first_execution _ _ _ _ Hnew Hfirst)
    as (graph0 & s & cap & sub & Hb0 & Hlen & H). cbv zeta in H.
  destruct H as (_ & _ & _ & _ & _ & Hcap & ->).
  destruct (Hcap Hdrop) as [Hc Hs].
  exists graph0, cap. split; [exact Hb0|]. split; [exact Hc|]. clear Hfirst.
  unfold first_state. cbv zeta.
  cbn [sparseGrads_ localSparseGrads_ tmpSparseDelta localSparseDelta].
  rewrite Hdrop, !length_fmap. fold n.
  split_and!; try reflexivity.
  - apply Forall_fmap, Forall_true. intros d. apply sp_new_capacity.
  - apply Forall_fmap, Forall_true. intros d. apply sp_new_capacity.
  - intros Hnn.
    assert (Hsub : sub = cap / Z.of_nat n).
    { unfold sparse_sub_capacity, CInt.size_t_div in Hs. fold n in Hs.
      destruct (Z.of_nat n =? 0); [discriminate|].
      apply (inj Some) in Hs. subst sub. f_equal.
      unfold sparse_capacity, FP.to_int in Hc.
      destruct (FP.trunc _) as [z|]; [|discriminate].
      cbn [mbind option_bind] in Hc. apply checked_Some in Hc.
      destruct Hc as [-> [_ Hmax]].
      unfold CInt.to_size_t. apply Z.mod_small.
      unfold CInt.size_t_range. unfold CInt.int_max in Hmax. lia. }
    subst sub. split.
    + apply Forall_fmap, Forall_true. intros d. apply sp_new_capacity.
    + apply Forall_fmap, Forall_true. intros d. cbn.
      rewrite length_replicate. split; [reflexivity|].
      apply Forall_replicate. apply sp_new_capacity.
Qed.

(** ** The shards *)

Lemma shard_slices_floor values (s : Z) devices : forall t pos (i : nat),
  0 <= s -> 0 <= pos -> Z.of_nat (length devices) * s <= t ->
  (i < length devices)%nat ->
  shard_slices values s devices t pos !! i
  = Some (take (Z.to_nat s) (drop (Z.to_nat (pos + Z.of_nat i * s)) values)).
Proof.
  induction devices as [|d devices IH]; intros t pos i Hs Hpos Ht Hi;
    cbn [length] in *; [lia|].
  cbn [shard_slices]. rewrite Z.min_l by lia.
  destruct i as [|i].
  - change (Z.of_nat 0 * s) with 0. rewrite Z.add_0_r. reflexivity.
  - change ((?x :: ?l) !! S i) with (l !! i).
    rewrite IH by lia. do 4 f_equal. lia.
Qed.

Lemma sum_replicate (n : nat) (s : Z) :
  foldr Z.add 0 (replicate n s) = Z.of_nat n * s.
Proof. induction n as [|n IH]; cbn [replicate foldr]; lia. Qed.

(** C2 (the code as it is).  The shard size is the quotient
    [totalSize / devices_.size()] rounded down, because the division is an
    integer division and [ceil] is applied to its result.  Every shard has
    exactly that size, shard [idx] is the range
    [idx * size, idx * size + size) of the parameters, and together the
    shards are the first [n * (totalSize / n)] parameters: when [n] does
    not divide [totalSize], the last [totalSize mod n] parameters are in no
    shard. *)
Theorem shard_partition_floor options built g0 g :
  AsyncGraphGroup_new options = Some g0 ->
  execute_first built g0 = Some g ->
  let n := Z.of_nat (length (opt_devices options)) in
  exists graph0 row,
    built !! 0%nat = Some graph0 /\
    params_ g !! 0%nat = Some row /\
    length row = length (opt_devices options) /\
    let total := Z.of_nat (length (vals graph0)) in
    (total <= CInt.int_max ->
     shardSize_ g = total / n /\
     (forall idx : nat,
         (idx < length (opt_devices options))%nat ->
         row !! idx
         = Some (take (Z.to_nat (total / n))
                   (drop (Z.to_nat (Z.of_nat idx * (total / n)))
                      (vals graph0)))) /\
     Forall (fun p : Tensor => Z.of_nat (length p) = total / n) row /\
     concat row = take (Z.to_nat (n * (total / n))) (vals graph0) /\
     Z.of_nat (length (concat row)) = total - total mod n /\
     (total mod n <> 0 -> Z.of_nat (length (concat row)) < total)).
Proof.
  intros Hnew Hfirst n.
  destruct (first_execution _ _ _ _ Hnew Hfirst)
    as (graph0 & s & cap & sub & Hb0 & Hlen & H). cbv zeta in H.
  destruct H as (Hh & Hh1 & Hs & Hsz & Hnn & _ & ->). clear Hfirst.
  assert (Hn : 0 < n).
  { unfold n. rewrite <- Hlen.
    apply lookup_lt_Some in Hb0. lia. }
  exists graph0,
    (shard_slices (vals graph0) s (opt_devices options)
       (Z.of_nat (length (vals graph0))) 0).
  split; [exact Hb0|]. split.
  { unfold first_state. cbv zeta. cbn [params_]. rewrite Hb0.
    cbn [fmap option_fmap option_map default]. unfold id.
    rewrite Hh. cbn [default].
    apply lookup_replicate_2. lia. }
  split; [apply length_shard_slices|].
  intros total Hmax. subst n total.
  set (total := Z.of_nat (length (vals graph0))) in *.
  set (n := Z.of_nat (length (opt_devices options))) in *.
  rewrite shard_size_floor in Hs by lia. apply (inj Some) in Hs. subst s.
  assert (Hq : 0 <= total / n) by (apply Z.div_pos; lia).
  assert (Hfit : n * (total / n) <= total) by (apply Z.mul_div_le; lia).
  assert (Hlenc : Z.of_nat (length (vals graph0)) = total) by reflexivity.
  split; [reflexivity|].
  split.
  { intros idx Hi. rewrite shard_slices_floor by (auto || lia).
    reflexivity. }
  rewrite (shard_sizes_floor _ _ _ Hq Hfit) in Hsz, Hnn.
  assert (Hsizes :
    Forall (fun p : Tensor => Z.of_nat (length p) = total / n)
      (shard_slices (vals graph0) (total / n) (opt_devices options) total 0)).
  { eapply Forall2_Forall_l; [exact Hsz|].
    apply Forall_replicate. intros p Hp. lia. }
  split; [exact Hsizes|].
  assert (Hcat :
    concat (shard_slices (vals graph0) (total / n) (opt_devices options)
              total 0)
    = take (Z.to_nat (n * (total / n))) (vals graph0)).
  { rewrite concat_shard_slices; [|lia|].
    - rewrite (shard_sizes_floor _ _ _ Hq Hfit), sum_replicate.
      reflexivity.
    - rewrite (shard_sizes_floor _ _ _ Hq Hfit). exact Hnn. }
  split; [exact Hcat|].
  assert (Hl : Z.of_nat (length (concat
             (shard_slices (vals graph0) (total / n) (opt_devices options)
                total 0))) = total - total mod n).
  { rewrite Hcat, length_take. rewrite Z.mod_eq by lia. lia. }
  split; [exact Hl|].
  intros Hmod. rewrite Hl. pose proof (Z.mod_pos_bound total n Hn). lia.
Qed.

Lemma step_bind_run g tags i w r :
  bind_worker (mkShared g i) w = Some r ->
  shard_step (g, tags) (group r.1, tags).
Proof.
  destruct r as [[g' i'] w']. intros H. eapply step_bind. exact H.
Qed.

(** ** The dense fetch *)

Lemma write_subtensor_middle (pre mid post new : Tensor) :
  length mid = length new ->
  write_subtensor (pre ++ mid ++ post) (Z.of_nat (length pre)) new
  = pre ++ new ++ post.
Proof.
  intros Hlen. unfold write_subtensor. rewrite Nat2Z.id.
  rewrite <- (Nat.add_0_r (length pre)), list_inserts_app_r.
  f_equal. apply list_inserts_0_r. congruence.
Qed.

(** One thread of [fetchParams]: the shard replaces the slice at [pos]. *)
Lemma fetchParams_shard_Some (params : list Tensor) idx p (old : Tensor)
    (pos : nat) :
  params !! idx = Some p ->
  (pos + length p <= length old)%nat ->
  fetchParams_shard params idx (Z.of_nat pos) old
  = Some (take pos old ++ p ++ drop (pos + length p) old).
Proof.
  intros Hp Hfit. unfold fetchParams_shard. rewrite Hp.
  cbn [mbind option_bind].
  rewrite subtensor_is_Some by lia. cbn [mbind option_bind].
  rewrite !Nat2Z.id. f_equal.
  rewrite overwrite_same_length by (rewrite length_take, length_drop; lia).
  rewrite <- (take_drop pos old) at 1.
  rewrite <- (take_drop (length p) (drop pos old)) at 1.
  rewrite drop_drop.
  replace (Z.of_nat pos) with (Z.of_nat (length (take pos old)))
    by (rewrite length_take; lia).
  apply write_subtensor_middle. rewrite length_take, length_drop. lia.
Qed.

Lemma fetchParams_shard_None (params : list Tensor) idx p (old : Tensor)
    (pos : nat) :
  params !! idx = Some p ->
  (length old < pos + length p)%nat ->
  fetchParams_shard params idx (Z.of_nat pos) old = None.
Proof.
  intros Hp Hfit. unfold fetchParams_shard. rewrite Hp.
  cbn [mbind option_bind].
  destruct (subtensor old (Z.of_nat pos) (Z.of_nat (length p))) as [v|] eqn:E;
    [|reflexivity].
  apply subtensor_Some in E. lia.
Qed.

Lemma length_fetchParams_shard params idx pos (old new : Tensor) :
  fetchParams_shard params idx pos old = Some new -> length new = length old.
Proof.
  unfold fetchParams_shard. intros H.
  destruct (params !! idx); [|discriminate]. cbn [mbind option_bind] in H.
  destruct (subtensor _ _ _); [|discriminate]. cbn [mbind option_bind] in H.
  apply (inj Some) in H. subst new. apply length_inserts.
Qed.

(** The loop of [fetchParams] over shards of one size [s], from shard [i]
    on. *)
Lemma fetch_loop (s : nat) (row : list Tensor) : forall k i (old : Tensor),
  Forall (fun p : Tensor => length p = s) row ->
  (i + k <= length row)%nat ->
  ((i + k) * s <= length old)%nat ->
  for_shards (fetchParams_shard row) k i (Z.of_nat (i * s)) (Z.of_nat s) old
  = Some (take (i * s) old ++ concat (take k (drop i row))
            ++ drop ((i + k) * s) old).
Proof.
  induction k as [|k IH]; intros i old Hsz Hrow Hfit.
  - cbn [for_shards]. rewrite take_0. cbn [concat app].
    now rewrite Nat.add_0_r, take_drop.
  - cbn [for_shards].
    destruct (lookup_lt_is_Some_2 row i ltac:(lia)) as [p Hp].
    assert (Hlp : length p = s).
    { eapply (proj1 (Forall_lookup _ _) Hsz). exact Hp. }
    rewrite (fetchParams_shard_Some _ _ _ _ _ Hp) by nia.
    cbn [mbind option_bind]. rewrite Hlp.
    replace (Z.of_nat (i * s) + Z.of_nat s) with (Z.of_nat (S i * s)) by lia.
    rewrite IH; [|assumption|lia|].
    2:{ rewrite !length_app, length_take, length_drop. nia. }
    f_equal.
    assert (Hla : length (take (i * s) old) = (i * s)%nat)
      by (rewrite length_take; nia).
    assert (Htake : take (S i * s)
                      (take (i * s) old ++ p ++ drop (i * s + s) old)
                    = take (i * s) old ++ p).
    { rewrite take_app_ge by lia. f_equal. rewrite Hla.
      replace (S i * s - i * s)%nat with (length p) by nia.
      apply take_app_length. }
    assert (Hdrop : drop ((S i + k) * s)
                      (take (i * s) old ++ p ++ drop (i * s + s) old)
                    = drop ((i + S k) * s) old).
    { rewrite drop_app_ge by nia. rewrite Hla.
      rewrite drop_app_ge by nia. rewrite drop_drop. f_equal. nia. }
    rewrite Htake, Hdrop, (drop_S _ _ _ Hp). cbn [take concat].
    now rewrite <- !app_assoc.
Qed.

(** The loop stops at the first shard the destination is too short for. *)
Lemma fetch_loop_None (s : nat) (row : list Tensor) : forall k i (old : Tensor),
  Forall (fun p : Tensor => length p = s) row ->
  (i + k <= length row)%nat ->
  (i * s <= length old < (i + k) * s)%nat ->
  for_shards (fetchParams_shard row) k i (Z.of_nat (i * s)) (Z.of_nat s) old
  = None.
Proof.
  induction k as [|k IH]; intros i old Hsz Hrow Hfit; [lia|].
  cbn [for_shards].
  destruct (lookup_lt_is_Some_2 row i ltac:(lia)) as [p Hp].
  assert (Hlp : length p = s).
  { eapply (proj1 (Forall_lookup _ _) Hsz). exact Hp. }
  destruct (le_lt_dec (S i * s) (length old)) as [Hle|Hlt].
  - rewrite (fetchParams_shard_Some _ _ _ _ _ Hp) by nia.
    cbn [mbind option_bind].
    replace (Z.of_nat (i * s) + Z.of_nat s) with (Z.of_nat (S i * s)) by lia.
    apply IH; [assumption|lia|].
    rewrite !length_app, length_take, length_drop. nia.
  - rewrite (fetchParams_shard_None _ _ _ _ _ Hp) by nia. reflexivity.
Qed.

(** [fetchParams] on shards that all have the size [shardSize_]. *)
Lemma fetchParams_closed g (old : Tensor) (row : list Tensor) :
  0 <= shardSize_ g ->
  length row = length (devices_ g) ->
  Forall (fun p : Tensor => Z.of_nat (length p) = shardSize_ g) row ->
  let covered := (length row * Z.to_nat (shardSize_ g))%nat in
  fetchParams g old row
  = if (covered <=? length old)%nat
    then Some (concat row ++ drop covered old)
    else None.
Proof.
  intros Hs Hlen Hsz covered. unfold fetchParams.
  assert (Hsz' : Forall (fun p : Tensor => length p = Z.to_nat (shardSize_ g))
                   row).
  { eapply Forall_impl; [exact Hsz|]. intros p Hp. cbn in Hp. lia. }
  rewrite <- Hlen.
  replace (shardSize_ g) with (Z.of_nat (Z.to_nat (shardSize_ g))) at 1 by lia.
  change 0 with (Z.of_nat (0 * Z.to_nat (shardSize_ g))) at 1.
  destruct (Nat.leb_spec covered (length old)) as [Hfit|Hfit].
  - rewrite fetch_loop; [|assumption|lia|exact Hfit].
    cbn [Nat.mul Nat.add]. rewrite take_0, drop_0. cbn [app].
    now rewrite firstn_all.
  - apply fetch_loop_None; [assumption|lia|]. split; [cbn; lia|exact Hfit].
Qed.

(** The first row of [params_] after the first execution. *)
Lemma first_row options built g0 g :
  AsyncGraphGroup_new options = Some g0 ->
  execute_first built g0 = Some g ->
  exists graph0 row,
    built !! 0%nat = Some graph0 /\
    params_ g !! 0%nat = Some row /\
    devices_ g = opt_devices options /\
    graphs_ g = built /\
    length row = length (devices_ g) /\
    globalVersionNumber g = replicate (length (devices_ g)) 0 /\
    (movingAvg_ g = true -> paramsAvg_ g = row) /\
    let total := Z.of_nat (length (vals graph0)) in
    let n := Z.of_nat (length (devices_ g)) in
    0 < n /\
    (total <= CInt.int_max ->
     shardSize_ g = total / n /\
     Forall (fun p : Tensor => Z.of_nat (length p) = total / n) row /\
     concat row = take (Z.to_nat (n * (total / n))) (vals graph0)).
Proof.
  intros Hnew Hfirst.
  destruct (first_execution _ _ _ _ Hnew Hfirst)
    as (graph0 & s & cap & sub & Hb0 & Hlen & H). cbv zeta in H.
  destruct H as (Hh & Hh1 & Hs & Hsz & Hnn & _ & ->). clear Hfirst.
  set (total := Z.of_nat (length (vals graph0))) in *.
  set (n := Z.of_nat (length (opt_devices options))) in *.
  assert (Hn : 0 < n).
  { unfold n. rewrite <- Hlen. apply lookup_lt_Some in Hb0. lia. }
  exists graph0, (shard_slices (vals graph0) s (opt_devices options) total 0).
  split; [exact Hb0|].
  unfold first_state. cbv zeta.
  cbn [params_ devices_ graphs_ globalVersionNumber movingAvg_ paramsAvg_
         shardSize_].
  rewrite Hb0. cbn [fmap option_fmap option_map default]. unfold id.
  fold total n. rewrite Hh. cbn [default].
  split; [apply lookup_replicate_2; lia|].
  split; [reflexivity|]. split; [reflexivity|].
  split; [apply length_shard_slices|]. split; [reflexivity|].
  split; [intros ->; reflexivity|].
  split; [exact Hn|]. intros Hmax.
  rewrite shard_size_floor in Hs by lia. apply (inj Some) in Hs. subst s.
  assert (Hq : 0 <= total / n) by (apply Z.div_pos; lia).
  assert (Hfit : n * (total / n) <= total) by (apply Z.mul_div_le; lia).
  rewrite (shard_sizes_floor _ _ _ Hq Hfit) in Hsz, Hnn.
  split; [reflexivity|]. split.
  - eapply Forall2_Forall_l; [exact Hsz|].
    apply Forall_replicate. intros p Hp. lia.
  - rewrite concat_shard_slices; [|lia|].
    + rewrite (shard_sizes_floor _ _ _ Hq Hfit), sum_replicate. reflexivity.
    + rewrite (shard_sizes_floor _ _ _ Hq Hfit). exact Hnn.
Qed.

(** X1.  A dense fetch of shards that all have the size [shardSize_]
    writes them one after the other at the start of the destination and
    keeps what follows; it is undefined when the destination is shorter than the
    shards together; and fetching again changes nothing. *)
Theorem dense_fetch_shards g (old : Tensor) (row : list Tensor) :
  0 <= shardSize_ g ->
  length row = length (devices_ g) ->
  Forall (fun p : Tensor => Z.of_nat (length p) = shardSize_ g) row ->
  let covered := (length row * Z.to_nat (shardSize_ g))%nat in
  ((covered <= length old)%nat ->
   let new := concat row ++ drop covered old in
   fetchParams g old row = Some new /\
   length new = length old /\
   take covered new = concat row /\
   fetchParams g new row = Some new) /\
  ((length old < covered)%nat -> fetchParams g old row = None).
Proof.
  intros Hs Hlen Hsz covered.
  pose proof (fetchParams_closed g old row Hs Hlen Hsz) as Hf.
  cbv zeta in Hf. fold covered in Hf.
  assert (Hcat : length (concat row) = covered).
  { unfold covered. clear -Hsz Hs. induction Hsz as [|p row Hp Hrow IH].
    - reflexivity.
    - cbn [concat length]. rewrite length_app, IH. lia. }
  split.
  - intros Hfit new.
    destruct (Nat.leb_spec covered (length old)) as [_|]; [|lia].
    assert (Hnew : length new = length old).
    { unfold new. rewrite length_app, length_drop, Hcat. lia. }
    split; [exact Hf|]. split; [exact Hnew|]. split.
    + unfold new. rewrite <- Hcat. apply take_app_length.
    + rewrite (fetchParams_closed g new row Hs Hlen Hsz). cbv zeta.
      fold covered.
      destruct (Nat.leb_spec covered (length new)) as [_|]; [|lia].
      f_equal. unfold new at 1. f_equal.
      unfold new. rewrite drop_app_ge by lia.
      now rewrite Hcat, Nat.sub_diag, drop_0.
  - intros Hshort.
    destruct (Nat.leb_spec covered (length old)) as [|_]; [lia|]. exact Hf.
Qed.

(** X2.  After the first execution, fetching the first row of [params_]
    into the values it was cut from gives these values back, and into any other
    destination of that size it writes the values of the shards and keeps
    the last [totalSize mod n] elements of the destination. *)
Theorem first_fetch_round_trip options built g0 g :
  AsyncGraphGroup_new options = Some g0 ->
  execute_first built g0 = Some g ->
  exists graph0 row,
    built !! 0%nat = Some graph0 /\
    params_ g !! 0%nat = Some row /\
    let total := Z.of_nat (length (vals graph0)) in
    let n := Z.of_nat (length (opt_devices options)) in
    (total <= CInt.int_max ->
     fetchParams g (vals graph0) row = Some (vals graph0) /\
     forall old : Tensor,
       length old = length (vals graph0) ->
       fetchParams g old row
       = Some (take (Z.to_nat (total - total mod n)) (vals graph0)
                 ++ drop (Z.to_nat (total - total mod n)) old)).
Proof.
  intros Hnew Hfirst.
  destruct (first_row _ _ _ _ Hnew Hfirst)
    as (graph0 & row & Hb0 & Hrow & Hdev & _ & Hlen & _ & _ & H).
  cbv zeta in H. rewrite Hdev in H. destruct H as [Hn H].
  exists graph0, row. split; [exact Hb0|]. split; [exact Hrow|].
  intros total n Hmax. fold total n in H, Hn.
  destruct (H Hmax) as (Hs & Hsz & Hcat). clear H.
  assert (Hq : 0 <= total / n) by (apply Z.div_pos; lia).
  assert (Hfit : n * (total / n) <= total) by (apply Z.mul_div_le; lia).
  assert (Hc : n * (total / n) = total - total mod n)
    by (rewrite Z.mod_eq by lia; lia).
  rewrite <- Hs in Hsz.
  assert (Hall : forall old : Tensor,
             length old = length (vals graph0) ->
             fetchParams g old row
             = Some (take (Z.to_nat (total - total mod n)) (vals graph0)
                       ++ drop (Z.to_nat (total - total mod n)) old)).
  { intros old Hold.
    rewrite (fetchParams_closed g old row) by (auto || lia). cbv zeta.
    assert (Hcov : (length row * Z.to_nat (shardSize_ g))%nat
                   = Z.to_nat (total - total mod n)).
    { rewrite Hlen, Hdev, Hs, <- Hc. unfold n. lia. }
    rewrite Hcov.
    destruct (Nat.leb_spec (Z.to_nat (total - total mod n)) (length old));
      [|unfold total in *; lia].
    now rewrite Hcat, Hc. }
  split; [|exact Hall].
  rewrite Hall by reflexivity. f_equal. apply take_drop.
Qed.

(** ** What a push leaves alone *)

Lemma param_at_set_param_at_ne ps lv idx t slot j :
  j <> idx ->
  param_at (set_param_at ps lv idx t) slot j = param_at ps slot j.
Proof.
  intros Hne. unfold param_at, set_param_at, lookupZ.
  destruct (slot <? 0); [reflexivity|].
  destruct (decide (Z.to_nat slot = Z.to_nat lv)) as [->|Hslot].
  - rewrite list_lookup_alter_eq. destruct (ps !! Z.to_nat lv); cbn;
      [|reflexivity].
    now apply list_lookup_insert_ne.
  - now rewrite list_lookup_alter_ne by auto.
Qed.

Lemma param_at_set_param_at_slot ps lv idx t slot j :
  Z.to_nat slot <> Z.to_nat lv ->
  param_at (set_param_at ps lv idx t) slot j = param_at ps slot j.
Proof.
  intros Hne. unfold param_at, set_param_at, lookupZ.
  destruct (slot <? 0); [reflexivity|].
  now rewrite list_lookup_alter_ne by auto.
Qed.

(** The state of the shards other than [idx], and of everything that
    belongs to no shard, is the same in [g] and [g']. *)
Record other_shards (idx : nat) (g g' : AsyncGraphGroup K) : Prop := {
  os_version : forall j, j <> idx ->
    globalVersionNumber g' !! j = globalVersionNumber g !! j;
  os_params : forall slot j, j <> idx ->
    param_at (params_ g') slot j = param_at (params_ g) slot j;
  os_grads : forall j, j <> idx -> grads_ g' !! j = grads_ g !! j;
  os_opt : forall j, j <> idx -> shardOpt_ g' !! j = shardOpt_ g !! j;
  os_avg : forall j, j <> idx -> paramsAvg_ g' !! j = paramsAvg_ g !! j;
  os_sparse : forall j, j <> idx ->
    sparseGrads_ g' !! j = sparseGrads_ g !! j;
  os_graphs : graphs_ g' = graphs_ g;
  os_optimizer : opt_ g' = opt_ g;
  os_local : localVersionNumbers g' = localVersionNumbers g;
  os_localSparseGrads : localSparseGrads_ g' = localSparseGrads_ g;
  os_deltas : localSparseDelta g' = localSparseDelta g;
  os_tmpSparseDelta : tmpSparseDelta g' = tmpSparseDelta g;
  os_droppers : fetchDropper g' = fetchDropper g;
  os_tmp : tmpTensor g' = tmpTensor g;
}.

Lemma other_shards_refl idx g : other_shards idx g g.
Proof. split; reflexivity. Qed.

Lemma other_shards_trans idx g1 g2 g3 :
  other_shards idx g1 g2 -> other_shards idx g2 g3 -> other_shards idx g1 g3.
Proof.
  intros H12 H23. split; intros.
  - rewrite (os_version _ _ _ H23), (os_version _ _ _ H12); auto.
  - rewrite (os_params _ _ _ H23), (os_params _ _ _ H12); auto.
  - rewrite (os_grads _ _ _ H23), (os_grads _ _ _ H12); auto.
  - rewrite (os_opt _ _ _ H23), (os_opt _ _ _ H12); auto.
  - rewrite (os_avg _ _ _ H23), (os_avg _ _ _ H12); auto.
  - rewrite (os_sparse _ _ _ H23), (os_sparse _ _ _ H12); auto.
  - rewrite (os_graphs _ _ _ H23). apply (os_graphs _ _ _ H12).
  - rewrite (os_optimizer _ _ _ H23). apply (os_optimizer _ _ _ H12).
  - rewrite (os_local _ _ _ H23). apply (os_local _ _ _ H12).
  - rewrite (os_localSparseGrads _ _ _ H23).
    apply (os_localSparseGrads _ _ _ H12).
  - rewrite (os_deltas _ _ _ H23). apply (os_deltas _ _ _ H12).
  - rewrite (os_tmpSparseDelta _ _ _ H23).
    apply (os_tmpSparseDelta _ _ _ H12).
  - rewrite (os_droppers _ _ _ H23). apply (os_droppers _ _ _ H12).
  - rewrite (os_tmp _ _ _ H23). apply (os_tmp _ _ _ H12).
Qed.

Ltac others :=
  split; cbn; intros;
  rewrite ?param_at_set_param_at_ne by assumption;
  rewrite ?list_lookup_insert_ne by auto;
  reflexivity.

Lemma bump_version_others idx g lv g' :
  bump_version idx g = Some (lv, g') -> other_shards idx g g'.
Proof.
  intros H. apply bump_version_eq in H.
  destruct H as (gv & latest & past & _ & _ & _ & _ & _ & _ & ->). others.
Qed.

Lemma apply_update_others bw nb idx lv grad g g' :
  apply_update bw nb idx lv grad g = Some g' -> other_shards idx g g'.
Proof.
  intros H. apply apply_update_eq in H.
  destruct H as (p & o & avgs & _ & _ & _ & H). cbv zeta in H.
  destruct H as (Ht & Hf & ->).
  assert (Hav : forall j, j <> idx -> avgs !! j = paramsAvg_ g !! j).
  { intros j Hj. destruct (movingAvg_ g).
    - destruct (Ht eq_refl) as (avg & _ & ->).
      now apply list_lookup_insert_ne.
    - now rewrite Hf. }
  split; cbn; intros;
    rewrite ?param_at_set_param_at_ne by assumption;
    rewrite ?list_lookup_insert_ne by auto; auto.
Qed.

Lemma pushGradients_shard_others newGrads bw nb idx pos g g' :
  pushGradients_shard newGrads bw nb idx pos g = Some g' ->
  other_shards idx g g'.
Proof.
  intros H. apply pushGradients_shard_eq in H.
  destruct H as (grad & src & g1 & lv & _ & _ & Hb & Hu).
  apply apply_update_others in Hu.
  destruct (1 <? history_size_ g).
  - eapply other_shards_trans; [eapply bump_version_others; exact Hb|exact Hu].
  - destruct Hb as [_ ->]. exact Hu.
Qed.

Lemma sparsePush_shard_others newGrads bw nb idx pos g g' :
  sparsePush_shard newGrads bw nb idx pos g = Some g' ->
  other_shards idx g g'.
Proof.
  intros H. apply sparsePush_shard_eq in H.
  destruct H as (grad & sg & g1 & lv & _ & _ & H). cbv zeta in H.
  destruct H as [Hb Hu].
  apply apply_update_others in Hu. apply bump_version_others in Hb.
  eapply other_shards_trans; [|exact Hu].
  eapply other_shards_trans; [|exact Hb]. others.
Qed.

(** X3.  The thread of a push that works on shard [idx], dense or sparse,
    changes nothing of any other shard (its version, its parameters in
    every history slot, its gradient, its optimizer, its shadow parameters,
    its sparse gradient) and nothing that belongs to the workers (the
    graphs, the versions they have seen, their sparse buffers and
    droppers). *)
Theorem push_touches_one_shard idx pos bw nb g g' :
  (exists newGrads,
      pushGradients_shard newGrads bw nb idx pos g = Some g') \/
  (exists newGrads,
      sparsePush_shard newGrads bw nb idx pos g = Some g') ->
  (forall j,
      j <> idx ->
      globalVersionNumber g' !! j = globalVersionNumber g !! j /\
      (forall slot, param_at (params_ g') slot j = param_at (params_ g) slot j) /\
      grads_ g' !! j = grads_ g !! j /\
      shardOpt_ g' !! j = shardOpt_ g !! j /\
      paramsAvg_ g' !! j = paramsAvg_ g !! j /\
      sparseGrads_ g' !! j = sparseGrads_ g !! j) /\
  graphs_ g' = graphs_ g /\
  localVersionNumbers g' = localVersionNumbers g /\
  localSparseGrads_ g' = localSparseGrads_ g /\
  localSparseDelta g' = localSparseDelta g /\
  tmpSparseDelta g' = tmpSparseDelta g /\
  fetchDropper g' = fetchDropper g /\
  tmpTensor g' = tmpTensor g.
Proof.
  intros H.
  assert (Ho : other_shards idx g g').
  { destruct H as [[newGrads H]|[newGrads H]].
    - eapply pushGradients_shard_others. exact H.
    - eapply sparsePush_shard_others. exact H. }
  destruct Ho. split_and!; auto.
  intros j Hj. split_and!; auto.
Qed.

(** ** A versioned push *)

Lemma next_slot_differs gv h :
  0 <= gv -> 1 < h ->
  Z.rem gv h = gv mod h /\ Z.rem (gv + 1) h = (gv + 1) mod h /\
  0 <= gv mod h < h /\ 0 <= (gv + 1) mod h < h /\
  gv mod h <> (gv + 1) mod h.
Proof.
  intros Hgv Hh.
  rewrite !Z.rem_mod_nonneg by lia.
  pose proof (Z.mod_pos_bound gv h ltac:(lia)).
  pose proof (Z.mod_pos_bound (gv + 1) h ltac:(lia)).
  split_and!; try reflexivity; try lia.
  intros E.
  assert (Hd : (gv + 1 - gv) mod h = 0).
  { rewrite Zminus_mod, <- E, Z.sub_diag. apply Zmod_0_l. }
  replace (gv + 1 - gv) with 1 in Hd by ring.
  rewrite Z.mod_1_l in Hd by lia. discriminate.
Qed.

(** The version step followed by the update, on a group with history. *)
Lemma bump_then_update idx bw nb grad gb lv g1 g' gv :
  bump_version idx gb = Some (lv, g1) ->
  apply_update bw nb idx lv grad g1 = Some g' ->
  globalVersionNumber gb !! idx = Some gv ->
  0 <= gv -> 1 < history_size_ gb ->
  let h := history_size_ gb in
  globalVersionNumber g' !! idx = Some (gv + 1) /\
  (forall slot,
      0 <= slot -> slot <> (gv + 1) mod h ->
      param_at (params_ g') slot idx = param_at (params_ gb) slot idx) /\
  exists past latest o,
    param_at (params_ gb) (gv mod h) idx = Some past /\
    param_at (params_ gb) ((gv + 1) mod h) idx = Some latest /\
    shardOpt_ gb !! idx = Some o /\
    let p := overwrite latest past in
    param_at (params_ g') ((gv + 1) mod h) idx
    = Some (overwrite p (opt_update o p grad (lr_scale gb bw)).1.2).
Proof.
  intros Hb Hu Hgv Hnn Hh h. subst h.
  destruct (next_slot_differs gv _ Hnn Hh) as (Er & Er1 & Hr & Hr1 & Hne).
  apply bump_version_eq in Hb.
  destruct Hb as (gv' & latest & past & Hgv' & _ & _ & -> & Hl & Hp & ->).
  assert (gv' = gv) by congruence. subst gv'.
  rewrite Er1 in Hl, Hu. rewrite Er in Hp.
  apply apply_update_eq in Hu.
  destruct Hu as (p & o & avgs & Hp1 & Ho & _ & H). cbv zeta in H.
  destruct H as (_ & _ & ->).
  cbn [params_ shardOpt_ set_params_ set_globalVersionNumber] in Hp1, Ho.
  rewrite (param_at_set_param_at _ _ _ _ _ Hl) in Hp1.
  apply (inj Some) in Hp1. subst p.
  cbn [globalVersionNumber params_ set_paramsAvg_ set_grads_ set_params_
         set_shardOpt_ set_globalVersionNumber].
  split_and!.
  - apply list_lookup_insert_eq. eapply lookup_lt_Some. exact Hgv.
  - intros slot Hslot Hs.
    rewrite !param_at_set_param_at_slot by lia. reflexivity.
  - exists past, latest, o. split_and!; try assumption. cbv zeta.
    eapply param_at_set_param_at.
    eapply param_at_set_param_at. exact Hl.
Qed.

(** X4.  A push that steps the version of shard [idx] from [gv] to
    [gv + 1], in a group whose history size exceeds 1, writes only the slot
    [(gv + 1) mod history_size_] of the shard: the parameters of version
    [gv], in the slot [gv mod history_size_], and every other slot stay as
    they are.  The new parameters are the optimizer's step from a copy of
    the parameters of version [gv]. *)
Theorem versioned_push_keeps_previous idx pos bw nb g g' gv :
  globalVersionNumber g !! idx = Some gv ->
  0 <= gv -> 1 < history_size_ g ->
  (exists newGrads,
      pushGradients_shard newGrads bw nb idx pos g = Some g') \/
  (exists newGrads,
      sparsePush_shard newGrads bw nb idx pos g = Some g') ->
  let h := history_size_ g in
  gv mod h <> (gv + 1) mod h /\
  globalVersionNumber g' !! idx = Some (gv + 1) /\
  (forall slot,
      0 <= slot -> slot <> (gv + 1) mod h ->
      param_at (params_ g') slot idx = param_at (params_ g) slot idx) /\
  exists past latest o grad,
    param_at (params_ g) (gv mod h) idx = Some past /\
    param_at (params_ g) ((gv + 1) mod h) idx = Some latest /\
    shardOpt_ g !! idx = Some o /\
    let p := overwrite latest past in
    (length latest = length past -> p = past) /\
    param_at (params_ g') ((gv + 1) mod h) idx
    = Some (overwrite p (opt_update o p grad (lr_scale g bw)).1.2).
Proof.
  intros Hgv Hnn Hh Hpush h. subst h.
  destruct (next_slot_differs gv _ Hnn Hh) as (_ & _ & _ & _ & Hne).
  split; [exact Hne|].
  assert (Hcopy : forall latest past : Tensor,
             length latest = length past -> overwrite latest past = past).
  { intros latest past E. now apply overwrite_same_length. }
  destruct Hpush as [[newGrads H]|[newGrads H]].
  - apply pushGradients_shard_eq in H.
    destruct H as (grad & src & g1 & lv & _ & _ & Hb & Hu).
    destruct (Z.ltb_spec 1 (history_size_ g)) as [_|]; [|lia].
    destruct (bump_then_update _ _ _ _ _ _ _ _ _ Hb Hu Hgv Hnn Hh)
      as (Hv & Hslots & past & latest & o & H1 & H2 & H3 & H4).
    split; [exact Hv|]. split; [exact Hslots|].
    exists past, latest, o, (overwrite grad src). cbv zeta.
    split_and!; auto.
  - apply sparsePush_shard_eq in H.
    destruct H as (grad & sg & g1 & lv & _ & _ & H). cbv zeta in H.
    destruct H as [Hb Hu].
    destruct (bump_then_update _ _ _ _ _ _ _ _ _ Hb Hu Hgv Hnn Hh)
      as (Hv & Hslots & past & latest & o & H1 & H2 & H3 & H4).
    split; [exact Hv|]. split; [exact Hslots|].
    eexists past, latest, o, _. cbv zeta.
    split; [exact H1|]. split; [exact H2|]. split; [exact H3|].
    split; [apply Hcopy|]. exact H4.
Qed.

(** ** The invariant of a run, spelled out *)

(** X5.  In every state a run can reach, under any interleaving of the
    threads of the store operations: there is at least one device and one
    graph per device; the history has [history_size_ >= 1] rows, exactly
    one without a second device; every shard has a version between 0 and
    [INT_MAX] (0 without a second device), a gradient, an optimizer and a
    parameter buffer in every history slot; and no worker has seen a
    version of a shard that is negative or ahead of the shard's. *)
Theorem reachable_state_invariant g tags :
  reachable g tags ->
  let n := length (devices_ g) in
  (1 <= n)%nat /\
  length (graphs_ g) = n /\
  1 <= history_size_ g /\
  ((n < 2)%nat -> history_size_ g = 1) /\
  length (params_ g) = Z.to_nat (history_size_ g) /\
  forall idx,
    (idx < n)%nat ->
    exists gv,
      globalVersionNumber g !! idx = Some gv /\
      0 <= gv <= CInt.int_max /\
      ((n < 2)%nat -> gv = 0) /\
      is_Some (grads_ g !! idx) /\
      is_Some (shardOpt_ g !! idx) /\
      (forall slot,
          0 <= slot < history_size_ g ->
          is_Some (param_at (params_ g) slot idx)) /\
      forall w,
        (w < n)%nat ->
        exists row lv,
          localVersionNumbers g !! w = Some row /\
          row !! idx = Some lv /\
          0 <= lv <= gv.
Proof.
  intros Hreach n. destruct (reachable_inv _ _ Hreach) as [Hl Hv _].
  split; [apply (lo_n _ Hl)|]. split; [apply (lo_graphs _ Hl)|].
  split; [apply (lo_hist _ Hl)|]. split; [apply (lo_single _ Hl)|].
  split; [apply (lo_params _ Hl)|].
  intros idx Hi.
  destruct (lookup_lt_is_Some_2 (globalVersionNumber g) idx) as [gv Hgv];
    [rewrite (lo_gvn _ Hl); exact Hi|].
  exists gv. split; [exact Hgv|].
  split; [apply (vo_range _ Hv _ _ Hgv)|].
  split; [intros Hn; apply (vo_single _ Hv Hn _ _ Hgv)|].
  split; [apply lookup_lt_is_Some_2; rewrite (lo_grads _ Hl); exact Hi|].
  split; [apply lookup_lt_is_Some_2; rewrite (lo_opt _ Hl); exact Hi|].
  split.
  - intros slot Hslot. now apply param_at_is_Some.
  - intros w Hw.
    destruct (lookup_lt_is_Some_2 (localVersionNumbers g) w) as [row Hrow];
      [rewrite (lo_lvn _ Hl); exact Hw|].
    destruct (lookup_lt_is_Some_2 row idx) as [lv Hlv].
    { rewrite (Forall_lookup_1 _ _ _ _ (lo_lvn_rows _ Hl) Hrow). exact Hi. }
    exists row, lv. split; [exact Hrow|]. split; [exact Hlv|].
    apply (vo_local _ Hv _ _ _ _ _ Hrow Hlv Hgv).
Qed.

(** X6.  In every state a run can reach, the last [history_size_] versions
    of a shard are all kept, each in a slot of its own: version [v] is in
    the slot [v mod history_size_], for every [v] from
    [max 0 (gv - history_size_ + 1)] to the shard's version [gv]. *)
Theorem history_ring_holds_recent_versions g tags idx gv :
  reachable g tags ->
  globalVersionNumber g !! idx = Some gv ->
  let h := history_size_ g in
  length tags = Z.to_nat h /\
  (forall v,
      Z.max 0 (gv - h + 1) <= v <= gv ->
      tag_at tags (v mod h) idx = Some v /\
      is_Some (param_at (params_ g) (v mod h) idx)) /\
  (forall v v',
      Z.max 0 (gv - h + 1) <= v <= gv ->
      Z.max 0 (gv - h + 1) <= v' <= gv ->
      v mod h = v' mod h -> v = v').
Proof.
  intros Hreach Hgv h.
  destruct (reachable_inv _ _ Hreach) as [Hl Hv [Hlen _ Hring]].
  pose proof (lo_hist _ Hl) as Hh. fold h in Hh.
  assert (Hi : (idx < length (devices_ g))%nat).
  { rewrite <- (lo_gvn _ Hl). eapply lookup_lt_Some. exact Hgv. }
  split; [exact Hlen|]. split.
  - intros v Hrange. split.
    + apply (Hring idx gv); [exact Hgv|fold h; lia|lia].
    + apply param_at_is_Some; [exact Hl| |exact Hi].
      apply Z.mod_pos_bound. lia.
  - intros v v' Hr Hr' E.
    assert (Hslot : tag_at tags (v mod h) idx = Some v)
      by (apply (Hring idx gv); [exact Hgv|fold h; lia|lia]).
    assert (Hslot' : tag_at tags (v' mod h) idx = Some v')
      by (apply (Hring idx gv); [exact Hgv|fold h; lia|lia]).
    rewrite E in Hslot. congruence.
Qed.

(** ** A whole sparse fetch *)

(** The thread body of a sparse fetch on a shard the worker is current
    on. *)
Lemma sparseFetchParams_shard_current w idx pos g old gv locals :
  1 <= history_size_ g ->
  globalVersionNumber g !! idx = Some gv ->
  lookupZ (localVersionNumbers g) w = Some locals ->
  locals !! idx = Some gv ->
  sparseFetchParams_shard w idx pos (g, old) = Some (g, old).
Proof.
  intros Hh Hgv Hloc Hlv. unfold sparseFetchParams_shard.
  rewrite Hgv. cbn [mbind option_bind].
  unfold CInt.int_rem at 1.
  destruct (Z.eqb_spec (history_size_ g) 0); [lia|].
  cbn [mbind option_bind]. rewrite Hloc. cbn [mbind option_bind].
  rewrite Hlv. cbn [mbind option_bind].
  unfold chosen_version, CInt.int_rem, CInt.checked.
  destruct (Z.eqb_spec (history_size_ g) 0); [lia|].
  cbn [mbind option_bind]. rewrite Z.sub_diag.
  change ((CInt.int_min <=? 0) && (0 <=? CInt.int_max)) with true.
  cbn [mbind option_bind].
  destruct (Z.leb_spec (history_size_ g) 0); [lia|].
  cbn [mbind option_bind]. now rewrite Z.eqb_refl.
Qed.

(** What the thread body of a sparse fetch does to the tables of
    versions. *)
Lemma sparseFetchParams_shard_tables w idx pos g old g' old' :
  sparseFetchParams_shard w idx pos (g, old) = Some (g', old') ->
  globalVersionNumber g' = globalVersionNumber g /\
  params_ g' = params_ g /\
  length old' = length old /\
  0 <= w /\
  exists gv locals,
    globalVersionNumber g !! idx = Some gv /\
    localVersionNumbers g !! Z.to_nat w = Some locals /\
    (idx < length locals)%nat /\
    localVersionNumbers g'
    = <[Z.to_nat w := <[idx := gv]> locals]> (localVersionNumbers g).
Proof.
  intros H. apply sparseFetchParams_shard_eq in H.
  destruct H as (gv & locals & lv & cv & Hgv & _ & Hloc & Hlv & _ & Hcase).
  apply lookupZ_Some in Hloc. destruct Hloc as [Hw Hloc].
  pose proof (lookup_lt_Some _ _ _ Hlv) as Hi.
  destruct Hcase as [(-> & -> & ->)|(_ & Hcase)].
  - split_and!; try reflexivity; [exact Hw|].
    exists lv, locals. split_and!; try assumption.
    rewrite (list_insert_id locals idx lv Hlv).
    now rewrite (list_insert_id _ _ _ Hloc).
  - destruct Hcase as (tmp & latest & curr & droppers & dropper & tsd & deltas
                       & lsd & grad & view & _ & _ & _ & _ & _ & _ & _
                       & _ & _ & Hview & -> & ->).
    split_and!; try reflexivity; [|exact Hw|].
    + unfold write_subtensor. apply length_inserts.
    + exists gv, locals. split_and!; try assumption. reflexivity.
Qed.

(** The loop of a sparse fetch over the shards [i, i + k). *)
Lemma sparse_fetch_loop w k : forall i pos s g old g' old',
  for_shards (sparseFetchParams_shard w) k i pos s (g, old)
  = Some (g', old') ->
  globalVersionNumber g' = globalVersionNumber g /\
  params_ g' = params_ g /\
  length old' = length old /\
  length (localVersionNumbers g') = length (localVersionNumbers g) /\
  (forall w', w' <> Z.to_nat w ->
     localVersionNumbers g' !! w' = localVersionNumbers g !! w') /\
  (forall j,
      (localVersionNumbers g' !! Z.to_nat w ≫= fun row => row !! j)
      = if bool_decide (i <= j < i + k)%nat
        then globalVersionNumber g !! j
        else localVersionNumbers g !! Z.to_nat w ≫= fun row => row !! j) /\
  ((0 < k)%nat -> 0 <= w).
Proof.
  induction k as [|k IH]; intros i pos s g old g' old' H.
  - injection H as <- <-. split_and!; try reflexivity; [|lia].
    intros j. rewrite bool_decide_eq_false_2 by lia. reflexivity.
  - cbn [for_shards] in H.
    destruct (sparseFetchParams_shard w i pos (g, old)) as [[g1 old1]|] eqn:Eb;
      [|discriminate].
    cbn [mbind option_bind] in H.
    apply sparseFetchParams_shard_tables in Eb.
    destruct Eb as (Hv1 & Hp1 & Ho1 & Hw & gv & locals & Hgv & Hloc & Hi & Hl1).
    apply IH in H.
    destruct H as (Hv2 & Hp2 & Ho2 & Hlen2 & Hother2 & Hrow2 & _).
    split_and!.
    + congruence.
    + congruence.
    + congruence.
    + rewrite Hlen2, Hl1. apply length_insert.
    + intros w' Hw'. rewrite Hother2, Hl1 by assumption.
      apply list_lookup_insert_ne. auto.
    + intros j. rewrite Hrow2, Hv1, Hl1.
      rewrite list_lookup_insert_eq by (eapply lookup_lt_Some; exact Hloc).
      rewrite Hloc. cbn [mbind option_bind].
      destruct (decide (j = i)) as [->|Hne].
      * rewrite (bool_decide_eq_false_2 (S i <= i < S i + k)%nat) by lia.
        rewrite bool_decide_eq_true_2 by lia.
        rewrite list_lookup_insert_eq by assumption. now rewrite Hgv.
      * rewrite list_lookup_insert_ne by auto.
        destruct (decide (S i <= j < S i + k)%nat).
        -- rewrite !bool_decide_eq_true_2 by lia. reflexivity.
        -- rewrite !bool_decide_eq_false_2 by lia. reflexivity.
    + intros _. exact Hw.
Qed.

(** The loop of a sparse fetch on a worker that is current everywhere. *)
Lemma sparse_fetch_loop_current w g old (locals : list Z) k : forall i pos s,
  1 <= history_size_ g ->
  lookupZ (localVersionNumbers g) w = Some locals ->
  (forall j, (i <= j < i + k)%nat ->
     is_Some (globalVersionNumber g !! j) /\
     locals !! j = globalVersionNumber g !! j) ->
  for_shards (sparseFetchParams_shard w) k i pos s (g, old) = Some (g, old).
Proof.
  induction k as [|k IH]; intros i pos s Hh Hloc Hcur; [reflexivity|].
  cbn [for_shards].
  destruct (Hcur i ltac:(lia)) as [[gv Hgv] Hlv]. rewrite Hgv in Hlv.
  rewrite (sparseFetchParams_shard_current _ _ _ _ _ _ _ Hh Hgv Hloc Hlv).
  cbn [mbind option_bind]. apply IH; [assumption|assumption|].
  intros j Hj. apply Hcur. lia.
Qed.

(** X7.  In a state a run can reach, with two graphs or more, a sparse
    fetch for worker [w] leaves the worker current on every shard: the
    version it has seen of each shard is the shard's version.  It changes
    no version of a shard, no parameter buffer, no other worker's row and
    not the size of the destination; and a second fetch right after it
    changes nothing at all. *)
Theorem sparse_fetch_makes_current g tags old w g' old' :
  reachable g tags ->
  (2 <= length (graphs_ g))%nat ->
  sparseFetchParams g old w = Some (g', old') ->
  globalVersionNumber g' = globalVersionNumber g /\
  params_ g' = params_ g /\
  length old' = length old /\
  0 <= w /\
  (exists row,
      localVersionNumbers g' !! Z.to_nat w = Some row /\
      forall idx,
        (idx < length (devices_ g))%nat ->
        row !! idx = globalVersionNumber g !! idx) /\
  (forall w', w' <> Z.to_nat w ->
     localVersionNumbers g' !! w' = localVersionNumbers g !! w') /\
  sparseFetchParams g' old' w = Some (g', old').
Proof.
  intros Hreach Hn H.
  destruct (reachable_inv _ _ Hreach) as [Hl Hv _].
  pose proof (sparseFetchParams_config _ _ _ _ _ H) as Hc.
  unfold sparseFetchParams in H |- *.
  rewrite (sc_graphs _ _ Hc).
  destruct (Nat.ltb_spec (length (graphs_ g)) 2) as [|_]; [lia|].
  rewrite (sc_devices _ _ Hc), (sc_shardSize _ _ Hc).
  pose proof (lo_n _ Hl) as Hn1.
  apply sparse_fetch_loop in H.
  destruct H as (Hv' & Hp' & Ho' & Hlen' & Hother & Hrow & Hw).
  specialize (Hw ltac:(lia)).
  destruct (lookup_lt_is_Some_2 (localVersionNumbers g') (Z.to_nat w))
    as [row Hr].
  { rewrite Hlen', (lo_lvn _ Hl).
    destruct (lookup_lt_is_Some_2 (globalVersionNumber g) 0%nat) as [gv0 Hg0];
      [rewrite (lo_gvn _ Hl); lia|].
    specialize (Hrow 0%nat). rewrite bool_decide_eq_true_2, Hg0 in Hrow by lia.
    destruct (localVersionNumbers g' !! Z.to_nat w) eqn:E; [|discriminate].
    pose proof (lookup_lt_Some _ _ _ E) as Hlt.
    rewrite Hlen', (lo_lvn _ Hl) in Hlt. exact Hlt. }
  assert (Hcur : forall idx,
             (idx < length (devices_ g))%nat ->
             row !! idx = globalVersionNumber g !! idx).
  { intros idx Hi. specialize (Hrow idx).
    rewrite Hr, bool_decide_eq_true_2 in Hrow by lia. exact Hrow. }
  split; [exact Hv'|]. split; [exact Hp'|]. split; [exact Ho'|].
  split; [exact Hw|]. split; [exists row; auto|]. split; [exact Hother|].
  eapply sparse_fetch_loop_current.
  - rewrite (sc_history _ _ Hc). apply (lo_hist _ Hl).
  - apply lookupZ_Some. split; [exact Hw|exact Hr].
  - intros j Hj. rewrite Hv'. split.
    + apply lookup_lt_is_Some_2. rewrite (lo_gvn _ Hl). lia.
    + apply Hcur. lia.
Qed.

(** ** Threads *)

(** X8.  Binding a thread: a thread without a graph takes the graph whose
    index is the shared counter, which becomes its id, and the counter
    moves on by one; there is no binding when the counter is not the index
    of a graph.  A thread without a dropper gets one and appends a row of
    one fresh dropper per device to [fetchDropper].  A thread that has both
    is left as it is, with the group and the counter: binding happens
    once. *)
Theorem thread_binds_once s w :
  (tl_graph w = None ->
   (static_i s < 0 \/ Z.of_nat (length (graphs_ (group s))) <= static_i s) ->
   bind_worker s w = None) /\
  forall s' w',
    bind_worker s w = Some (s', w') ->
    is_Some (tl_graph w') /\
    is_Some (tl_dropper w') /\
    bind_worker s' w' = Some (s', w') /\
    tl_t w' = tl_t w /\
    (tl_graph w = None ->
     0 <= static_i s < Z.of_nat (length (graphs_ (group s))) /\
     tl_graph w' = Some (Z.to_nat (static_i s)) /\
     tl_my_id w' = static_i s /\
     static_i s' = CInt.to_size_t (static_i s + 1)) /\
    (forall gi,
        tl_graph w = Some gi ->
        tl_graph w' = Some gi /\ tl_my_id w' = tl_my_id w /\
        static_i s' = static_i s) /\
    (tl_dropper w = None ->
     fetchDropper (group s')
     = fetchDropper (group s)
         ++ [replicate (length (devices_ (group s))) GradientDrop_new]) /\
    (is_Some (tl_dropper w) -> group s' = group s).
Proof.
  split.
  - intros Hg Hout. unfold bind_worker. rewrite Hg.
    destruct (lookupZ (graphs_ (group s)) (static_i s)) as [x|] eqn:E;
      [|reflexivity].
    apply lookupZ_Some in E. destruct E as [H0 E].
    apply lookup_lt_Some in E. lia.
  - intros s' w' H. unfold bind_worker in H.
    destruct (tl_graph w) as [gi|] eqn:Eg.
    + cbn [mbind option_bind] in H.
      destruct (tl_dropper w) as [d|] eqn:Ed;
        injection H as <- <-;
        cbn [tl_graph tl_dropper tl_t tl_my_id group static_i];
        (split_and!; eauto; try discriminate;
         try (intros [? [=]]);
         try (intros gi' [= <-]; auto);
         unfold bind_worker; cbn [tl_graph tl_dropper group static_i];
         rewrite ?Eg; cbn [mbind option_bind tl_dropper]; rewrite ?Ed;
         reflexivity).
    + destruct (lookupZ (graphs_ (group s)) (static_i s)) as [x|] eqn:E;
        [|discriminate].
      apply lookupZ_Some in E. destruct E as [H0 E].
      apply lookup_lt_Some in E.
      cbn [mbind option_bind tl_dropper tl_graph group static_i] in H.
      destruct (tl_dropper w) as [d|] eqn:Ed;
        injection H as <- <-;
        cbn [tl_graph tl_dropper tl_t tl_my_id group static_i];
        (split_and!; eauto; try discriminate;
         try (intros [? [=]]);
         try (intros _; split_and!; auto; lia);
         unfold bind_worker; cbn [tl_graph tl_dropper group static_i];
         cbn [mbind option_bind tl_dropper]; reflexivity).
Qed.




(** ** The scheduler block *)

(** One pull of the shadow parameters into graph [gi]. *)
Lemma pull_shadow gi (go : bool) g g' :
  0 <= shardSize_ g ->
  length (paramsAvg_ g) = length (devices_ g) ->
  Forall (fun p : Tensor => Z.of_nat (length p) = shardSize_ g)
    (paramsAvg_ g) ->
  (if go && movingAvg_ g
   then graph ← graphs_ g !! gi;
        v ← fetchParams g (vals graph) (paramsAvg_ g);
        Some (set_graphs_ (<[gi := mkGraph v (grads graph)]> (graphs_ g)) g)
   else Some g) = Some g' ->
  let covered := (length (paramsAvg_ g) * Z.to_nat (shardSize_ g))%nat in
  if go && movingAvg_ g
  then exists graph,
      graphs_ g !! gi = Some graph /\
      (covered <= length (vals graph))%nat /\
      g' = set_graphs_
             (<[gi := mkGraph
                        (concat (paramsAvg_ g)
                           ++ drop covered (vals graph))
                        (grads graph)]> (graphs_ g)) g
  else g' = g.
Proof.
  intros Hs Hlen Hsz H covered. destruct (go && movingAvg_ g).
  - destruct (graphs_ g !! gi) as [graph|]; [|discriminate].
    cbn [mbind option_bind] in H.
    rewrite (fetchParams_closed g (vals graph) (paramsAvg_ g) Hs Hlen Hsz)
      in H.
    cbv zeta in H. fold covered in H.
    destruct (Nat.leb_spec covered (length (vals graph))); [|discriminate].
    cbn [mbind option_bind] in H. apply (inj Some) in H.
    exists graph. auto.
  - now apply (inj Some) in H.
Qed.

(** X10.  The scheduler block of the task, for shadow parameters that all
    have the size [shardSize_]: when the scheduler asks for a save or a
    validation and the group keeps a moving average, the values of the
    thread's graph are replaced by the shadow parameters, one shard after
    the other, and whatever the graph holds behind them stays; otherwise
    the group is left as it is.  The shadow parameters themselves, the
    parameters of the shards, the versions and the other graphs are never
    changed. *)
Theorem scheduler_pulls_shadow gi sched g g' :
  0 <= shardSize_ g ->
  length (paramsAvg_ g) = length (devices_ g) ->
  Forall (fun p : Tensor => Z.of_nat (length p) = shardSize_ g)
    (paramsAvg_ g) ->
  task_scheduler gi sched g = Some g' ->
  let pull :=
    match sched with
    | Some (saving, validating) => (saving || validating) && movingAvg_ g
    | None => false
    end in
  let covered := (length (paramsAvg_ g) * Z.to_nat (shardSize_ g))%nat in
  paramsAvg_ g' = paramsAvg_ g /\
  params_ g' = params_ g /\
  globalVersionNumber g' = globalVersionNumber g /\
  localVersionNumbers g' = localVersionNumbers g /\
  (forall j, j <> gi -> graphs_ g' !! j = graphs_ g !! j) /\
  if pull
  then exists graph,
      graphs_ g !! gi = Some graph /\
      (covered <= length (vals graph))%nat /\
      graphs_ g' !! gi
      = Some (mkGraph (concat (paramsAvg_ g) ++ drop covered (vals graph))
                (grads graph))
  else g' = g.
Proof.
  intros Hs Hlen Hsz H pull covered.
  assert (Hcat : length (concat (paramsAvg_ g)) = covered).
  { unfold covered. clear -Hsz Hs.
    induction Hsz as [|p row Hp Hrow IH]; [reflexivity|].
    cbn [concat length]. rewrite length_app, IH. lia. }
  unfold task_scheduler in H.
  destruct sched as [[saving validating]|];
    [|apply (inj Some) in H; subst g'; subst pull; cbv beta iota;
      split_and!; reflexivity].
  match type of H with (mbind _ ?x) = _ => destruct x as [g1|] eqn:E1 end;
    [|discriminate].
  cbn [mbind option_bind] in H.
  apply (pull_shadow gi saving g g1 Hs Hlen Hsz) in E1. cbv zeta in E1.
  fold covered in E1. subst pull.
  destruct (movingAvg_ g) eqn:Em.
  2:{ rewrite !andb_false_r in *. subst g1. rewrite Em, andb_false_r in H.
      apply (inj Some) in H. subst g'. split_and!; reflexivity. }
  rewrite !andb_true_r in *.
  destruct saving.
  - destruct E1 as (graph & Hg & Hfit & ->).
    assert (Hgi : (gi < length (graphs_ g))%nat)
      by (eapply lookup_lt_Some; exact Hg).
    apply (pull_shadow gi validating) in H; [|exact Hs|exact Hlen|exact Hsz].
    cbv zeta in H.
    cbn [movingAvg_ graphs_ paramsAvg_ shardSize_ set_graphs_] in H.
    fold covered in H. rewrite Em, andb_true_r in H.
    cbn [orb]. destruct validating.
    + destruct H as (graph' & Hg' & _ & ->).
      rewrite list_lookup_insert_eq in Hg' by exact Hgi.
      apply (inj Some) in Hg'. subst graph'.
      cbn [vals grads paramsAvg_ params_ globalVersionNumber
             localVersionNumbers graphs_ set_graphs_].
      rewrite list_insert_insert_eq.
      split_and!; try reflexivity.
      * intros j Hj. apply list_lookup_insert_ne. auto.
      * exists graph. split; [exact Hg|]. split; [exact Hfit|].
        rewrite list_lookup_insert_eq by exact Hgi. do 2 f_equal.
        f_equal. rewrite drop_app_ge by lia.
        now rewrite Hcat, Nat.sub_diag, drop_0.
    + subst g'.
      cbn [paramsAvg_ params_ globalVersionNumber localVersionNumbers
             graphs_ set_graphs_].
      split_and!; try reflexivity.
      * intros j Hj. apply list_lookup_insert_ne. auto.
      * exists graph. split; [exact Hg|]. split; [exact Hfit|].
        now rewrite list_lookup_insert_eq by exact Hgi.
  - subst g1. cbn [orb].
    apply (pull_shadow gi validating) in H; [|exact Hs|exact Hlen|exact Hsz].
    cbv zeta in H. fold covered in H. rewrite Em, andb_true_r in H.
    destruct validating.
    + destruct H as (graph & Hg & Hfit & ->).
      assert (Hgi : (gi < length (graphs_ g))%nat)
        by (eapply lookup_lt_Some; exact Hg).
      cbn [paramsAvg_ params_ globalVersionNumber localVersionNumbers
             graphs_ set_graphs_].
      split_and!; try reflexivity.
      * intros j Hj. apply list_lookup_insert_ne. auto.
      * exists graph. split; [exact Hg|]. split; [exact Hfit|].
        now rewrite list_lookup_insert_eq by exact Hgi.
    + subst g'. split_and!; reflexivity.
Qed.

(** ** Files *)

Lemma substring_prefix (stem ext : string) :
  String.substring 0 (String.length stem) (stem +:+ ext) = stem.
Proof.
  induction stem as [|c stem IH]; [destruct ext; reflexivity|].
  change (String c (String.substring 0 (String.length stem) (stem +:+ ext))
          = String c stem).
  now rewrite IH.
Qed.

Lemma substring_empty (n : nat) (s : string) : String.substring n 0 s = "".
Proof.
  revert n. induction s as [|c s IH]; intros [|n]; try reflexivity.
  apply (IH n).
Qed.

Lemma append_empty_r (s : string) : s +:+ "" = s.
Proof.
  induction s as [|c s IH]; [reflexivity|].
  change (String c (s +:+ "") = String c s). now rewrite IH.
Qed.

Lemma length_append (s1 s2 : string) :
  String.length (s1 +:+ s2) = (String.length s1 + String.length s2)%nat.
Proof.
  induction s1 as [|c s1 IH]; [reflexivity|].
  change (S (String.length (s1 +:+ s2))
          = S (String.length s1 + String.length s2)).
  now rewrite IH.
Qed.

(** X11.  The files of a save, for a model name that fits a [size_t].
    The save throws exactly when a copy for the iteration is due (the
    option [overwrite] is off and the save is not final) and the name has
    fewer than four characters.  Otherwise the model file itself is
    written, and written last; it is the only file when [overwrite] is
    set or the save is final, and the second of two otherwise, the first
    being the name with its last four characters replaced by [.iter], the
    number of batches and [.npz]. *)
Theorem save_names_files overwrite name final numberOfBatches :
  Z.of_nat (String.length name) < CInt.size_t_range ->
  (save_names overwrite name final numberOfBatches = None <->
   overwrite = false /\ final = false /\ (String.length name < 4)%nat) /\
  (forall files,
      save_names overwrite name final numberOfBatches = Some files ->
      last files = Some name /\
      length files = if overwrite || final then 1%nat else 2%nat) /\
  (forall stem ext,
      name = stem +:+ ext -> String.length ext = 4%nat ->
      overwrite = false -> final = false ->
      save_names overwrite name final numberOfBatches
      = Some [stem +:+ ".iter" +:+ numberOfBatches +:+ ".npz"; name]).
Proof.
  intros Hfit. unfold CInt.size_t_range in Hfit.
  assert (Hshort : (String.length name < 4)%nat ->
            replace name
              (CInt.to_size_t (Z.of_nat (String.length name) - 4)) 4
              (".iter" +:+ numberOfBatches +:+ ".npz") = None).
  { intros Hlt. unfold replace, CInt.to_size_t, CInt.size_t_range.
    replace ((Z.of_nat (String.length name) - 4) mod 2 ^ 64)
      with (Z.of_nat (String.length name) - 4 + 2 ^ 64).
    - destruct (Z.ltb_spec (Z.of_nat (String.length name))
                  (Z.of_nat (String.length name) - 4 + 2 ^ 64));
        [reflexivity|lia].
    - symmetry. rewrite <- (Z_mod_plus_full _ 1). rewrite Z.mul_1_l.
      apply Z.mod_small. lia. }
  assert (Hlong : (4 <= String.length name)%nat ->
            exists s, replace name
              (CInt.to_size_t (Z.of_nat (String.length name) - 4)) 4
              (".iter" +:+ numberOfBatches +:+ ".npz") = Some s).
  { intros Hge. unfold replace, CInt.to_size_t, CInt.size_t_range.
    rewrite Z.mod_small by lia.
    destruct (Z.ltb_spec (Z.of_nat (String.length name))
                (Z.of_nat (String.length name) - 4)); [lia|eauto]. }
  split; [|split].
  - unfold save_names. destruct overwrite; [split; [discriminate|]|].
    { intros (? & _); discriminate. }
    destruct final; [split; [discriminate|intros (_ & ? & _); discriminate]|].
    destruct (le_lt_dec 4 (String.length name)) as [Hge|Hlt].
    + destruct (Hlong Hge) as [s ->]. cbn [mbind option_bind].
      split; [discriminate|]. intros (_ & _ & ?). lia.
    + rewrite (Hshort Hlt). cbn [mbind option_bind].
      split; [auto|reflexivity].
  - intros files H. unfold save_names in H.
    destruct overwrite; [injection H as <-; auto|].
    destruct final; [injection H as <-; auto|].
    destruct (replace _ _ _ _) as [s|]; [|discriminate].
    injection H as <-. auto.
  - intros stem ext -> Hext -> ->. unfold save_names, replace.
    rewrite length_append, Hext in Hfit |- *.
    unfold CInt.to_size_t, CInt.size_t_range.
    replace (Z.of_nat (String.length stem + 4) - 4)
      with (Z.of_nat (String.length stem)) by lia.
    rewrite Z.mod_small by lia.
    destruct (Z.ltb_spec (Z.of_nat (String.length stem + 4))
                (Z.of_nat (String.length stem))); [lia|].
    cbn [mbind option_bind]. do 2 f_equal.
    rewrite Nat2Z.id, substring_prefix. f_equal.
    rewrite Z.min_l by lia.
    replace (Z.to_nat (Z.of_nat (String.length stem + 4)
                       - (Z.of_nat (String.length stem) + 4))) with 0%nat
      by lia.
    rewrite substring_empty. now rewrite append_empty_r.
Qed.

(** ** The single graph *)

(** One run of [execute], inverted. *)
Lemma singleton_execute_eq step sg sg' tr :
  Singleton.execute step sg = Some (sg', tr) ->
  let graph := Singleton.graph_ sg in
  let graph_grads := overwrite (grads graph) (backward step (vals graph)) in
  let scale :=
    if Singleton.scale_lr sg
    then Some (FP.f32_div (FP.f32_of_Z (words step))
                 (Singleton.average_batch_words sg))
    else None in
  let r := opt_update (Singleton.opt_ sg) (vals graph) graph_grads scale in
  let live := overwrite (vals graph) r.1.2 in
  Singleton.graph_ sg' = mkGraph live (overwrite graph_grads r.2) /\
  Singleton.opt_ sg' = r.1.1 /\
  Singleton.mvAvg_ sg' = Singleton.mvAvg_ sg /\
  Singleton.mvDecay_ sg' = Singleton.mvDecay_ sg /\
  Singleton.opt_overwrite sg' = Singleton.opt_overwrite sg /\
  Singleton.opt_model sg' = Singleton.opt_model sg /\
  Singleton.scale_lr sg' = Singleton.scale_lr sg /\
  Singleton.average_batch_words sg' = Singleton.average_batch_words sg /\
  (if Singleton.mvAvg_ sg
   then
     match Singleton.mvAvgGraph_ sg with
     | None => Singleton.mvAvgGraph_ sg' = Some live
     | Some avg =>
         is_Some (scheduler step) /\
         Singleton.mvAvgGraph_ sg'
         = Some (Singleton.updateMovingAverage sg avg live (batches step))
     end
   else Singleton.mvAvgGraph_ sg' = Singleton.mvAvgGraph_ sg) /\
  match scheduler step with
  | None => tr = Singleton.mkTrace [] None
  | Some (saving, validating) =>
      exists saved,
        (if saving
         then Singleton.save sg' false (to_string (batches step))
         else Some []) = Some saved /\
        tr = Singleton.mkTrace saved
               (if validating
                then if Singleton.mvAvg_ sg then Singleton.mvAvgGraph_ sg'
                     else Some live
                else None)
  end.
Proof.
  intros H graph graph_grads scale r live. unfold Singleton.execute in H.
  fold graph graph_grads scale in H. fold r in H.
  destruct r as [[o' p'] grad'] eqn:Er. cbn [fst snd] in live |- *.
  fold live in H.
  match type of H with (mbind _ ?x) = _ => destruct x as [avg'|] eqn:Ea end;
    [|discriminate].
  cbn [mbind option_bind] in H.
  assert (Havg :
    if Singleton.mvAvg_ sg
    then
      match Singleton.mvAvgGraph_ sg with
      | None => avg' = Some live
      | Some avg =>
          is_Some (scheduler step) /\
          avg' = Some (Singleton.updateMovingAverage sg avg live
                         (batches step))
      end
    else avg' = Singleton.mvAvgGraph_ sg).
  { destruct (Singleton.mvAvg_ sg).
    - destruct (Singleton.mvAvgGraph_ sg) as [avg|].
      + destruct (scheduler step) as [x|]; [|discriminate].
        cbn [mbind option_bind] in Ea. apply (inj Some) in Ea.
        split; [eauto|]. now subst avg'.
      + now apply (inj Some) in Ea.
    - now apply (inj Some) in Ea. }
  clear Ea.
  destruct (scheduler step) as [[saving validating]|].
  - match type of H with (mbind _ ?x) = _ =>
      destruct x as [saved|] eqn:Es end; [|discriminate].
    cbn [mbind option_bind] in H. injection H as <- <-.
    cbn [Singleton.graph_ Singleton.opt_ Singleton.mvAvg_
           Singleton.mvDecay_ Singleton.opt_overwrite Singleton.opt_model
           Singleton.scale_lr Singleton.average_batch_words
           Singleton.mvAvgGraph_ vals].
    split_and!; try reflexivity.
    + destruct (Singleton.mvAvg_ sg); [|exact Havg].
      destruct (Singleton.mvAvgGraph_ sg); exact Havg.
    + exists saved. split; [exact Es|reflexivity].
  - injection H as <- <-.
    cbn [Singleton.graph_ Singleton.opt_ Singleton.mvAvg_
           Singleton.mvDecay_ Singleton.opt_overwrite Singleton.opt_model
           Singleton.scale_lr Singleton.average_batch_words
           Singleton.mvAvgGraph_ vals].
    split_and!; try reflexivity.
    destruct (Singleton.mvAvg_ sg); [|exact Havg].
    destruct (Singleton.mvAvgGraph_ sg); exact Havg.
Qed.

(** X12.  The moving average of the single graph, over the first two runs
    of a group that keeps one: the first run creates the shadow parameters
    as an exact copy of the parameters it has just updated; the second run
    blends, each shadow element becoming
    [decay * shadow + (1 - decay) * live] with
    [decay = min(mvDecay_, (b + 1) / (b + 10))] for the scheduler's batch
    count [b].  The second run needs the scheduler, from which it reads
    the count: without one it is undefined. *)
Theorem singleton_shadow_bootstrap step1 step2 sg sg1 tr1 :
  Singleton.mvAvg_ sg = true ->
  Singleton.mvAvgGraph_ sg = None ->
  Singleton.execute step1 sg = Some (sg1, tr1) ->
  let live1 := vals (Singleton.graph_ sg1) in
  Singleton.mvAvgGraph_ sg1 = Some live1 /\
  (scheduler step2 = None -> Singleton.execute step2 sg1 = None) /\
  forall sg2 tr2,
    Singleton.execute step2 sg1 = Some (sg2, tr2) ->
    let live2 := vals (Singleton.graph_ sg2) in
    let decay :=
      FP.f32_min (Singleton.mvDecay_ sg)
        (FP.f32_div (FP.f32_of_Z (CInt.to_size_t (batches step2 + 1)))
           (FP.f32_of_Z (CInt.to_size_t (batches step2 + 10)))) in
    is_Some (scheduler step2) /\
    exists shadow2,
      Singleton.mvAvgGraph_ sg2 = Some shadow2 /\
      length shadow2 = length live1 /\
      forall i a x,
        live1 !! i = Some a -> live2 !! i = Some x ->
        shadow2 !! i
        = Some (FP.f32_add (FP.f32_mul decay a)
                  (FP.f32_mul (FP.f32_sub FP.f32_one decay) x)).
Proof.
  intros Hm Hnull H1 live1.
  pose proof (singleton_execute_eq _ _ _ _ H1) as E1. cbv zeta in E1.
  destruct E1 as (Hg1 & _ & Hm1 & Hd1 & _ & _ & _ & _ & Ha1 & _).
  rewrite Hm, Hnull in Ha1.
  assert (Hlive1 : Singleton.mvAvgGraph_ sg1 = Some live1).
  { unfold live1. rewrite Hg1. exact Ha1. }
  split; [exact Hlive1|]. split.
  - intros Hnone. unfold Singleton.execute.
    rewrite Hm1, Hm, Hlive1, Hnone.
    destruct (opt_update (Singleton.opt_ sg1) _ _ _) as [[o' p'] grad'].
    reflexivity.
  - intros sg2 tr2 H2 live2 decay.
    pose proof (singleton_execute_eq _ _ _ _ H2) as E2. cbv zeta in E2.
    destruct E2 as (Hg2 & _ & _ & _ & _ & _ & _ & _ & Ha2 & _).
    rewrite Hm1, Hm, Hlive1 in Ha2. destruct Ha2 as [Hs Ha2].
    split; [exact Hs|].
    eexists. split; [exact Ha2|].
    unfold Singleton.updateMovingAverage, moving_decay.
    rewrite Hd1. fold decay.
    split; [apply length_overwrite|].
    intros i a x Hi Hx. apply Element_blend_lookup; [exact Hi|].
    unfold live2 in Hx. rewrite Hg2 in Hx. exact Hx.
Qed.

(** X13.  What a run of the single graph hands to the scheduler: every
    file it saves holds the parameters of [graph_] as the run has updated
    them, also when the group keeps a moving average, while the validation
    is given the shadow parameters in that case, and the parameters of
    [graph_] otherwise.  The files are those of a save that is not final,
    numbered by the scheduler's batch count; nothing is saved or validated
    unless the scheduler asks. *)
Theorem singleton_saves_live_parameters step sg sg' tr saving validating :
  Singleton.execute step sg = Some (sg', tr) ->
  scheduler step = Some (saving, validating) ->
  let live := vals (Singleton.graph_ sg') in
  Forall (fun file : string * Tensor => file.2 = live)
    (Singleton.tr_saved tr) /\
  (if saving
   then
     exists files,
       save_names (Singleton.opt_overwrite sg) (Singleton.opt_model sg)
         false (to_string (batches step)) = Some files /\
       (fun file : string * Tensor => file.1) <$> Singleton.tr_saved tr
       = files
   else Singleton.tr_saved tr = []) /\
  Singleton.tr_validated tr
  = (if validating
     then if Singleton.mvAvg_ sg then Singleton.mvAvgGraph_ sg'
          else Some live
     else None).
Proof.
  intros H Hs live.
  pose proof (singleton_execute_eq _ _ _ _ H) as E. cbv zeta in E.
  destruct E as (Hg & _ & _ & _ & Ho & Hmo & _ & _ & _ & Htr).
  rewrite Hs in Htr. destruct Htr as (saved & Hsaved & ->).
  cbn [Singleton.tr_saved Singleton.tr_validated].
  assert (Hl : live = overwrite (vals (Singleton.graph_ sg))
                        (opt_update (Singleton.opt_ sg)
                           (vals (Singleton.graph_ sg))
                           (overwrite (grads (Singleton.graph_ sg))
                              (backward step (vals (Singleton.graph_ sg))))
                           (if Singleton.scale_lr sg
                            then Some (FP.f32_div (FP.f32_of_Z (words step))
                                         (Singleton.average_batch_words sg))
                            else None)).1.2).
  { unfold live. now rewrite Hg. }
  rewrite <- Hl. split_and!; [| |reflexivity].
  - destruct saving.
    + unfold Singleton.save, Singleton.save_graph in Hsaved.
      destruct (save_names _ _ _ _) as [files|]; [|discriminate].
      cbn [mbind option_bind] in Hsaved. apply (inj Some) in Hsaved.
      subst saved. apply Forall_fmap, Forall_true. intros name. reflexivity.
    + apply (inj Some) in Hsaved. subst saved. constructor.
  - destruct saving.
    + unfold Singleton.save, Singleton.save_graph in Hsaved.
      rewrite Ho, Hmo in Hsaved.
      destruct (save_names _ _ _ _) as [files|]; [|discriminate].
      cbn [mbind option_bind] in Hsaved. apply (inj Some) in Hsaved.
      subst saved. exists files. split; [reflexivity|].
      rewrite <- list_fmap_compose. apply list_fmap_id.
    + now apply (inj Some) in Hsaved.
Qed.

(** ** The state after the first execution *)



(** X15.  The first execution is undefined unless the builders leave
    exactly one graph per device and there is at least one device: the
    sharding reads the parameters of the first graph. *)
Theorem first_execution_needs_graphs options built g0 :
  AsyncGraphGroup_new options = Some g0 ->
  length built <> length (opt_devices options) \/ opt_devices options = [] ->
  execute_first built g0 = None.
Proof.
  intros Hnew Hbad.
  destruct (execute_first built g0) as [g|] eqn:Hfirst; [|reflexivity].
  destruct (first_execution _ _ _ _ Hnew Hfirst)
    as (graph0 & s & cap & sub & Hb0 & Hlen & _).
  apply lookup_lt_Some in Hb0.
  destruct Hbad as [Hne|Hnil]; [contradiction|].
  rewrite Hnil in Hlen. cbn [length] in Hlen. lia.
Qed.

End Proofs.
(** * The regularisers *)

Section RegulariserProofs.
Import Regulariser.
Context `{E : Engine}.

(** ** The order of strings and the map *)

Lemma compare_refl (s : string) : String.compare s s = Eq.
Proof.
  destruct (String.compare s s) eqn:H; [reflexivity| |].
  - pose proof (String.compare_antisym s s) as A. rewrite H in A. discriminate A.
  - pose proof (String.compare_antisym s s) as A. rewrite H in A. discriminate A.
Qed.

Lemma compare_Lt_trans (a b c : string) :
  String.compare a b = Lt -> String.compare b c = Lt ->
  String.compare a c = Lt.
Proof.
  intros H1 H2.
  pose proof (@StrictOrder_Transitive _ _ OrdersEx.String_as_OT.lt_strorder) as T.
  exact (T a b c H1 H2).
Qed.

Lemma compare_Gt_Lt (a b : string) :
  String.compare a b = Gt <-> String.compare b a = Lt.
Proof.
  rewrite (String.compare_antisym b a).
  destruct (String.compare a b); cbn; split; congruence.
Qed.

Lemma compare_Eq (a b : string) : String.compare a b = Eq <-> a = b.
Proof.
  split; [apply String.compare_eq_iff|intros ->; apply compare_refl].
Qed.

Ltac cmp_norm :=
  repeat match goal with
    | H : @eq comparison ?c ?c |- _ => clear H
    | H : String.compare _ _ = Eq |- _ => apply compare_Eq in H; subst
    | H : String.compare _ _ = Gt |- _ => apply compare_Gt_Lt in H
    end.

Ltac cmp_absurd :=
  exfalso;
  match goal with
  | H : @eq comparison _ _ |- _ => discriminate H
  | H : ?x <> ?x |- _ => apply H; reflexivity
  | H : String.compare ?x ?x = Lt |- _ =>
      rewrite compare_refl in H; discriminate H
  | H1 : String.compare ?x ?y = Lt, H2 : String.compare ?y ?x = Lt |- _ =>
      pose proof (compare_Lt_trans _ _ _ H1 H2) as C;
      rewrite compare_refl in C; discriminate C
  | H1 : String.compare ?x ?y = Lt, H2 : String.compare ?y ?z = Lt,
    H3 : String.compare ?z ?x = Lt |- _ =>
      pose proof (compare_Lt_trans _ _ _ (compare_Lt_trans _ _ _ H1 H2) H3)
        as C;
      rewrite compare_refl in C; discriminate C
  end.

Ltac cmp :=
  repeat (match goal with
          | |- context [String.compare ?a ?b] =>
              destruct (String.compare a b) eqn:?; cbn [emplace]
          end; cmp_norm; try cmp_absurd).

Lemma emplace_comm {A : Type} (k1 k2 : string) (v1 v2 : A) m :
  k1 <> k2 ->
  emplace k1 v1 (emplace k2 v2 m) = emplace k2 v2 (emplace k1 v1 m).
Proof.
  intros Hne. induction m as [|[k v] m IH]; cbn [emplace].
  - cmp; reflexivity.
  - cmp; try reflexivity. rewrite IH. reflexivity.
Qed.


Lemma emplace_above {A : Type} (k0 k : string) (v : A) m :
  String.compare k0 k = Lt ->
  Forall (fun e => String.compare k0 e.1 = Lt) m ->
  Forall (fun e => String.compare k0 e.1 = Lt) (emplace k v m).
Proof.
  intros Hk. induction 1 as [|[k1 v1] m H1 Hall IH]; cbn [emplace].
  - constructor; [assumption|constructor].
  - destruct (String.compare k k1).
    + constructor; assumption.
    + constructor; [assumption|]. constructor; assumption.
    + constructor; assumption.
Qed.

Lemma emplace_sorted {A : Type} (k : string) (v : A) m :
  sorted m -> sorted (emplace k v m).
Proof.
  induction m as [|[k0 v0] m IH]; cbn [emplace sorted].
  - intros _. split; [constructor|exact I].
  - intros [Hall Hs]. destruct (String.compare k k0) eqn:Hc; cbn [sorted].
    + split; assumption.
    + split; [|split; assumption].
      constructor; [assumption|].
      eapply Forall_impl; [exact Hall|].
      cbn. intros e He. eapply compare_Lt_trans; eassumption.
    + split; [|apply IH; assumption].
      apply emplace_above; [|assumption].
      apply compare_Gt_Lt. assumption.
Qed.

Lemma find_above {A : Type} (k : string) (m : list (string * A)) :
  Forall (fun e => String.compare k e.1 = Lt) m -> find k m = None.
Proof.
  induction 1 as [|[k0 v0] m H _ IH]; cbn [find]; [reflexivity|].
  cbn in H. destruct (String.eqb k k0) eqn:Heq; [|exact IH].
  apply String.eqb_eq in Heq. subst. rewrite compare_refl in H. discriminate H.
Qed.

Lemma find_emplace_ne {A : Type} (k k' : string) (v : A) m :
  k' <> k -> find k' (emplace k v m) = find k' m.
Proof.
  intros Hne. induction m as [|[k0 v0] m IH]; cbn [emplace find].
  - destruct (String.eqb k' k) eqn:Heq; [|reflexivity].
    apply String.eqb_eq in Heq. contradiction.
  - cmp; cbn [find].
    + reflexivity.
    + destruct (String.eqb k' k) eqn:Heq; [|reflexivity].
      apply String.eqb_eq in Heq. contradiction.
    + rewrite IH. reflexivity.
Qed.

Lemma find_emplace_eq {A : Type} (k : string) (v : A) m :
  sorted m ->
  find k (emplace k v m)
  = Some (match find k m with Some v' => v' | None => v end).
Proof.
  induction m as [|[k0 v0] m IH]; cbn [emplace find sorted].
  - intros _. rewrite String.eqb_refl. reflexivity.
  - intros [Hall Hs]. cmp; cbn [find].
    + rewrite String.eqb_refl. reflexivity.
    + rewrite String.eqb_refl.
      destruct (String.eqb k k0) eqn:Heq.
      { apply String.eqb_eq in Heq. subst.
        match goal with H : String.compare _ _ = Lt |- _ =>
          rewrite compare_refl in H; discriminate H end. }
      rewrite find_above; [reflexivity|].
      eapply Forall_impl; [exact Hall|].
      cbn. intros e He. eapply compare_Lt_trans; eassumption.
    + destruct (String.eqb k k0) eqn:Heq.
      { apply String.eqb_eq in Heq. subst.
        match goal with H : String.compare _ _ = Lt |- _ =>
          rewrite compare_refl in H; discriminate H end. }
      apply IH; assumption.
Qed.

Lemma find_emplace_keeps {A : Type} (k k' : string) (v p : A) m :
  sorted m -> find k m = Some p -> find k (emplace k' v m) = Some p.
Proof.
  intros Hs Hf. destruct (decide (k = k')) as [->|Hne].
  - rewrite find_emplace_eq by assumption. rewrite Hf. reflexivity.
  - rewrite find_emplace_ne by assumption. assumption.
Qed.

(** ** One call and a sequence of calls *)

Lemma calculatePenalty_eq r W b rows p r' :
  calculatePenalty r W b rows = Some (p, r') ->
  exists W', W = Some W' /\ penalty r W' b rows = Some p /\
    r' = set_partialPenalties r (emplace (name W') p (partialPenalties_ r)).
Proof.
  unfold calculatePenalty. intros H.
  destruct W as [W'|]; cbn [mbind option_bind] in H; [|discriminate H].
  destruct (penalty r W' b rows) as [p0|] eqn:Hp; cbn [mbind option_bind] in H;
    [|discriminate H].
  injection H as <- <-. exists W'. split_and!; [reflexivity|assumption|reflexivity].
Qed.

Lemma penalty_set_partialPenalties r m W b rows :
  penalty (set_partialPenalties r m) W b rows = penalty r W b rows.
Proof. reflexivity. Qed.

Lemma calculatePenalties_cons r W b rows calls r' :
  calculatePenalties r ((W, b, rows) :: calls) = Some r' ->
  exists p r1, calculatePenalty r W b rows = Some (p, r1) /\
    calculatePenalties r1 calls = Some r'.
Proof.
  cbn [calculatePenalties]. intros H.
  destruct (calculatePenalty r W b rows) as [[p r1]|] eqn:Hc;
    cbn [mbind option_bind] in H; [|discriminate H].
  exists p, r1. split; [reflexivity|assumption].
Qed.

Lemma calculatePenalties_sorted r calls r' :
  calculatePenalties r calls = Some r' ->
  sorted (partialPenalties_ r) -> sorted (partialPenalties_ r').
Proof.
  revert r. induction calls as [|[[W b] rows] calls IH]; intros r H Hs.
  - cbn in H. injection H as <-. assumption.
  - apply calculatePenalties_cons in H as (p & r1 & Hc & Hr).
    apply calculatePenalty_eq in Hc as (W' & -> & Hp & ->).
    apply (IH _ Hr). cbn. apply emplace_sorted. assumption.
Qed.

Lemma calculatePenalties_keeps r calls r' k p :
  calculatePenalties r calls = Some r' ->
  sorted (partialPenalties_ r) ->
  find k (partialPenalties_ r) = Some p ->
  find k (partialPenalties_ r') = Some p.
Proof.
  revert r. induction calls as [|[[W b] rows] calls IH]; intros r H Hs Hf.
  - cbn in H. injection H as <-. assumption.
  - apply calculatePenalties_cons in H as (p1 & r1 & Hc & Hr).
    apply calculatePenalty_eq in Hc as (W' & -> & Hp & ->).
    apply (IH _ Hr); cbn.
    + apply emplace_sorted. assumption.
    + apply find_emplace_keeps; assumption.
Qed.

Lemma calculatePenalties_first r before W b rows after r' :
  sorted (partialPenalties_ r) ->
  find (name W) (partialPenalties_ r) = None ->
  Forall (fun c => call_name c <> Some (name W)) before ->
  calculatePenalties r (before ++ (Some W, b, rows) :: after) = Some r' ->
  exists p, penalty r W b rows = Some p /\
    find (name W) (partialPenalties_ r') = Some p.
Proof.
  revert r. induction before as [|[[W0 b0] rows0] before IH];
    intros r Hs Hf Hb H.
  - cbn [app] in H.
    apply calculatePenalties_cons in H as (p1 & r1 & Hc & Hr).
    apply calculatePenalty_eq in Hc as (W' & [= <-] & Hp & ->).
    exists p1. split; [assumption|].
    eapply calculatePenalties_keeps; [exact Hr| |]; cbn.
    + apply emplace_sorted. assumption.
    + rewrite find_emplace_eq by assumption. rewrite Hf. reflexivity.
  - cbn [app] in H. apply Forall_cons in Hb as [Hn Hb].
    apply calculatePenalties_cons in H as (p1 & r1 & Hc & Hr).
    apply calculatePenalty_eq in Hc as (W' & -> & Hp & ->).
    cbn in Hn.
    destruct (IH (set_partialPenalties r
                    (emplace (name W') p1 (partialPenalties_ r))))
      as (p & Hp' & Hf'); try assumption.
    + cbn. apply emplace_sorted. assumption.
    + cbn. rewrite find_emplace_ne by congruence. assumption.
    + exists p. split; assumption.
Qed.

(** X16.  From an empty map of partial penalties, the entry of a name is
    the penalty of the first call of [calculatePenalty] with that name:
    later calls with the name return their expression but leave the entry
    as it is. *)
Theorem penalties_keep_first r before W b rows after r' :
  partialPenalties_ r = [] ->
  Forall (fun c => call_name c <> Some (name W)) before ->
  calculatePenalties r (before ++ (Some W, b, rows) :: after) = Some r' ->
  exists p, penalty r W b rows = Some p /\
    find (name W) (getPartialPenalties r') = Some p.
Proof.
  intros He. apply calculatePenalties_first; rewrite He; [exact I|reflexivity].
Qed.


(** ** The order of the calls *)

Lemma calculatePenalty_swap r W1 b1 rows1 W2 b2 rows2 calls :
  call_name (W1, b1, rows1) <> call_name (W2, b2, rows2) ->
  calculatePenalties r ((W1, b1, rows1) :: (W2, b2, rows2) :: calls)
  = calculatePenalties r ((W2, b2, rows2) :: (W1, b1, rows1) :: calls).
Proof.
  unfold call_name. cbn [fst]. intros Hne.
  cbn [calculatePenalties]. unfold calculatePenalty.
  destruct W1 as [W1|], W2 as [W2|]; cbn [mbind option_bind].
  - destruct (penalty r W1 b1 rows1) as [p1|] eqn:H1; cbn [mbind option_bind];
      rewrite ?penalty_set_partialPenalties;
      destruct (penalty r W2 b2 rows2) as [p2|] eqn:H2;
      cbn [mbind option_bind];
      rewrite ?penalty_set_partialPenalties, ?H1, ?H2;
      cbn [mbind option_bind]; try reflexivity.
    unfold set_partialPenalties. cbn [partialPenalties_ kind
      transformer_head_dim lambda_ type_].
    rewrite (emplace_comm (name W2) (name W1)); [reflexivity|].
    intros Heq. apply Hne. cbn. rewrite Heq. reflexivity.
  - destruct (penalty r W1 b1 rows1); reflexivity.
  - destruct (penalty r W2 b2 rows2); reflexivity.
  - reflexivity.
Qed.

Lemma calculatePenalties_perm r calls calls' :
  calls ≡ₚ calls' ->
  NoDup (call_name <$> calls) ->
  calculatePenalties r calls' = calculatePenalties r calls.
Proof.
  intros Hp. revert r.
  induction Hp as [|[[W b] rows] l l' Hp IH|[[W1 b1] rows1] [[W2 b2] rows2] l
                  |l l' l'' Hp1 IH1 Hp2 IH2]; intros r Hnd.
  - reflexivity.
  - cbn [calculatePenalties].
    destruct (calculatePenalty r W b rows) as [[p r1]|];
      cbn [mbind option_bind]; [|reflexivity].
    apply IH. rewrite fmap_cons in Hnd. apply NoDup_cons in Hnd as [_ Hnd].
    assumption.
  - apply calculatePenalty_swap.
    rewrite !fmap_cons in Hnd. apply NoDup_cons in Hnd as [Hn _].
    intros Heq. apply Hn. rewrite Heq. left.
  - rewrite IH2, IH1; [reflexivity|assumption|].
    rewrite <- Hp1. assumption.
Qed.

(** X17.  Calls of [calculatePenalty] for parameters of different names
    may come in any order: the regulariser ends with the same partial
    penalties, and so with the same total penalty (and the calls fail in
    one order when they fail in the other). *)
Theorem penalties_call_order r calls calls' :
  NoDup (call_name <$> calls) ->
  calls ≡ₚ calls' ->
  calculatePenalties r calls' = calculatePenalties r calls
  /\ (calculatePenalties r calls' ≫= getTotalPenalty)
     = (calculatePenalties r calls ≫= getTotalPenalty).
Proof.
  intros Hnd Hp.
  rewrite (calculatePenalties_perm r calls calls') by assumption.
  split; reflexivity.
Qed.

(** ** The total penalty *)

Lemma add_penalties_nulls lambda m (rest : list (string * Expr E)) :
  Forall (fun e => e.2 = None) m ->
  add_penalties lambda None (m ++ rest) = add_penalties lambda None rest.
Proof.
  induction 1 as [|[k p] m Hn _ IH]; [reflexivity|].
  cbn in Hn. subst p. cbn [app add_penalties add_penalty snd mbind option_bind].
  exact IH.
Qed.

Lemma add_penalties_weighted lambda t (rest : list (string * Node)) :
  add_penalties lambda (Some t) ((fun e => (e.1, Some e.2)) <$> rest)
  = Some <$> weighted lambda t rest.*2.
Proof.
  revert t. induction rest as [|[k p] rest IH]; intros t; [reflexivity|].
  cbn [fmap list_fmap add_penalties add_penalty weighted fst snd mbind
       option_bind].
  destruct (scaled lambda p) as [s|]; cbn [mbind option_bind]; [|reflexivity].
  destruct (plus t s) as [a|]; cbn [mbind option_bind]; [|reflexivity].
  apply IH.
Qed.

(** X18.  The total penalty is [lambda * (p1 + lambda * p2 + ... +
    lambda * pn)] over the partial penalties in the order of their names:
    the first one is scaled by [lambda] once and every other one twice.
    Null entries before the first penalty are passed over. *)
Theorem total_penalty_weights r nulls k p (rest : list (string * Node)) :
  Forall (fun e => e.2 = None) nulls ->
  getPartialPenalties r
  = nulls ++ (k, Some p) :: ((fun e => (e.1, Some e.2)) <$> rest) ->
  getTotalPenalty r
  = (t ← weighted (getLambda r) p rest.*2; scaled (getLambda r) t).
Proof.
  unfold getPartialPenalties, getLambda, getTotalPenalty. intros Hn ->.
  rewrite add_penalties_nulls by assumption.
  cbn [add_penalties add_penalty snd mbind option_bind].
  rewrite add_penalties_weighted.
  destruct (weighted (lambda_ r) p rest.*2); reflexivity.
Qed.

Lemma add_penalties_Some lambda t m t' :
  add_penalties lambda (Some t) m = Some t' ->
  exists rest : list (string * Node), m = (fun e => (e.1, Some e.2)) <$> rest.
Proof.
  revert t. induction m as [|[k p] m IH]; intros t H.
  - exists []. reflexivity.
  - cbn [add_penalties add_penalty snd] in H.
    destruct p as [p|]; cbn [mbind option_bind] in H; [|discriminate H].
    destruct (scaled lambda p) as [s|]; cbn [mbind option_bind] in H;
      [|discriminate H].
    destruct (plus t s) as [a|]; cbn [mbind option_bind] in H;
      [|discriminate H].
    destruct (IH _ H) as [rest ->]. exists ((k, p) :: rest). reflexivity.
Qed.

Lemma add_penalties_all_null lambda (m : list (string * Expr E)) :
  Forall (fun e => e.2 = None) m -> add_penalties lambda None m = Some None.
Proof.
  intros H. rewrite <- (app_nil_r m). rewrite add_penalties_nulls by assumption.
  reflexivity.
Qed.

(** X19.  [getTotalPenalty] has a result only when the map holds a
    penalty that is not null and no null entry behind the first such
    penalty: on an empty map, as after [clear], the call is undefined. *)
Theorem total_penalty_defined r t :
  getTotalPenalty r = Some t ->
  exists nulls k p (rest : list (string * Node)),
    Forall (fun e => e.2 = None) nulls /\
    getPartialPenalties r
    = nulls ++ (k, Some p) :: ((fun e => (e.1, Some e.2)) <$> rest).
Proof.
  unfold getTotalPenalty, getPartialPenalties.
  generalize (partialPenalties_ r) as m. generalize (lambda_ r) as lambda.
  intros lambda m H.
  destruct (add_penalties lambda None m) as [[t0|]|] eqn:Ha;
    cbn [mbind option_bind] in H; try discriminate H.
  clear H. induction m as [|[k [p|]] m IH].
  - discriminate Ha.
  - cbn [add_penalties add_penalty snd mbind option_bind] in Ha.
    apply add_penalties_Some in Ha as [rest ->].
    exists [], k, p, rest. split; [constructor|reflexivity].
  - cbn [add_penalties add_penalty snd mbind option_bind] in Ha.
    destruct (IH Ha) as (nulls & k' & p & rest & Hn & ->).
    exists ((k, None) :: nulls), k', p, rest.
    split; [constructor; [reflexivity|assumption]|reflexivity].
Qed.

(** ** The factory *)

Lemma typed_penalty r W b rows p :
  typed r -> penalty r W b rows = Some p -> p <> None.
Proof.
  unfold typed, penalty. intros Ht H.
  destruct (kind r).
  1-4: match type of H with
       | Some <$> ?x = _ => destruct x; cbn in H; [|discriminate H]
       end; injection H as <-; discriminate.
  specialize (Ht eq_refl). unfold GroupLasso_penalty in H.
  repeat match type of H with
         | (if ?c then _ else _) = _ => destruct c eqn:?
         | Some <$> ?x = _ =>
             destruct x; cbn in H; [|discriminate H];
             injection H as <-; discriminate
         end.
  exfalso.
  repeat match goal with
         | H : String.eqb _ _ = false |- _ => apply String.eqb_neq in H
         end.
  repeat (apply elem_of_cons in Ht as [Ht|Ht]; [contradiction|]).
  inversion Ht.
Qed.

Lemma emplace_Forall {A : Type} (P : string * A -> Prop) k v m :
  P (k, v) -> Forall P m -> Forall P (emplace k v m).
Proof.
  intros Hk. induction 1 as [|[k0 v0] m H0 Hall IH]; cbn [emplace].
  - constructor; [assumption|constructor].
  - destruct (String.compare k k0).
    + constructor; assumption.
    + constructor; [assumption|]. constructor; assumption.
    + constructor; assumption.
Qed.

Lemma calculatePenalties_config r calls r' :
  calculatePenalties r calls = Some r' ->
  kind r' = kind r /\ transformer_head_dim r' = transformer_head_dim r /\
  lambda_ r' = lambda_ r /\ type_ r' = type_ r.
Proof.
  revert r. induction calls as [|[[W b] rows] calls IH]; intros r H.
  - cbn in H. injection H as <-. split_and!; reflexivity.
  - apply calculatePenalties_cons in H as (p & r1 & Hc & Hr).
    apply calculatePenalty_eq in Hc as (W' & -> & Hp & ->).
    apply IH in Hr. exact Hr.
Qed.

Lemma calculatePenalties_not_null r calls r' :
  typed r ->
  Forall (fun e => e.2 <> None) (partialPenalties_ r) ->
  calculatePenalties r calls = Some r' ->
  Forall (fun e => e.2 <> None) (partialPenalties_ r').
Proof.
  revert r. induction calls as [|[[W b] rows] calls IH]; intros r Ht Hall H.
  - cbn in H. injection H as <-. assumption.
  - apply calculatePenalties_cons in H as (p & r1 & Hc & Hr).
    apply calculatePenalty_eq in Hc as (W' & -> & Hp & ->).
    eapply IH; [| |exact Hr].
    + exact Ht.
    + cbn. apply emplace_Forall; [|assumption].
      cbn. eapply typed_penalty; eassumption.
Qed.

Lemma construct_typed head_dim lambda type r :
  construct head_dim lambda type = Some r ->
  typed r /\ lambda_ r = lambda /\ type_ r = type /\ partialPenalties_ r = [].
Proof.
  unfold construct. intros H.
  repeat match type of H with
         | (if ?c then _ else _) = _ => destruct c eqn:?
         end; try discriminate H; injection H as <-;
    (split; [|split_and!; reflexivity]); intros Hk; try discriminate Hk;
    cbn [type_ IRegulariser_new];
    match goal with
    | H : String.eqb _ _ = true |- _ => apply String.eqb_eq in H; subst
    end; rewrite !elem_of_cons; auto 10.
Qed.

(** X20.  A regulariser that [RegulariserFactory::construct] returns
    carries the coefficient and the type it was asked for, and never holds
    a null partial penalty, whatever was calculated with it. *)
Theorem factory_penalties_not_null head_dim lambda type r calls r' :
  construct head_dim lambda type = Some r ->
  calculatePenalties r calls = Some r' ->
  getLambda r' = lambda /\ getType r' = type /\
  Forall (fun e => e.2 <> None) (getPartialPenalties r').
Proof.
  intros Hc Hr. apply construct_typed in Hc as (Ht & Hl & Hty & He).
  pose proof (calculatePenalties_config _ _ _ Hr) as (_ & _ & Hl' & Hty').
  unfold getLambda, getType, getPartialPenalties.
  split_and!; [congruence|congruence|].
  eapply calculatePenalties_not_null; [exact Ht| |exact Hr].
  rewrite He. constructor.
Qed.

Lemma untyped_penalty r W b rows :
  kind r = GroupLassoRegulariser ->
  type_ r ∉ ["rowcol"; "heads"; "rowcol-root"; "layer"] ->
  penalty r W b rows = Some None.
Proof.
  unfold penalty, GroupLasso_penalty. intros -> Hn.
  repeat match goal with
         | |- (if ?c then _ else _) = _ =>
             let H := fresh in
             destruct c eqn:H;
             [apply String.eqb_eq in H; exfalso; apply Hn; rewrite H;
              rewrite !elem_of_cons; auto 10|]
         end.
  reflexivity.
Qed.

Lemma calculatePenalties_null r calls r' :
  kind r = GroupLassoRegulariser ->
  type_ r ∉ ["rowcol"; "heads"; "rowcol-root"; "layer"] ->
  Forall (fun e => e.2 = None) (partialPenalties_ r) ->
  calculatePenalties r calls = Some r' ->
  Forall (fun e => e.2 = None) (partialPenalties_ r').
Proof.
  revert r. induction calls as [|[[W b] rows] calls IH]; intros r Hk Hn Hall H.
  - cbn in H. injection H as <-. assumption.
  - apply calculatePenalties_cons in H as (p & r1 & Hc & Hr).
    apply calculatePenalty_eq in Hc as (W' & -> & Hp & ->).
    rewrite untyped_penalty in Hp by assumption. injection Hp as <-.
    eapply IH; [| | |exact Hr]; try assumption.
    cbn. apply emplace_Forall; [reflexivity|assumption].
Qed.

(** X21.  A group-lasso regulariser whose type is none of [rowcol],
    [heads], [rowcol-root] and [layer] records a null pointer for every
    parameter, and its total penalty stays undefined. *)
Theorem group_lasso_unknown_type r calls r' :
  kind r = GroupLassoRegulariser ->
  getType r ∉ ["rowcol"; "heads"; "rowcol-root"; "layer"] ->
  getPartialPenalties r = [] ->
  calculatePenalties r calls = Some r' ->
  Forall (fun e => e.2 = None) (getPartialPenalties r') /\
  getTotalPenalty r' = None.
Proof.
  unfold getType, getPartialPenalties. intros Hk Hn He Hr.
  assert (Forall (fun e => e.2 = None) (partialPenalties_ r')) as Hall.
  { eapply calculatePenalties_null; [exact Hk|exact Hn| |exact Hr].
    rewrite He. constructor. }
  split; [assumption|].
  unfold getTotalPenalty. rewrite add_penalties_all_null by assumption.
  reflexivity.
Qed.

(** ** The penalty of the heads *)

Lemma int_div_Some a b q : int_div a b = Some q -> b <> 0.
Proof.
  unfold int_div. destruct (b =? 0) eqn:Hb; [discriminate|].
  intros _. apply Z.eqb_neq. assumption.
Qed.

Lemma int_mul_nonzero a b c : int_mul a b = Some c -> c <> 0 -> a <> 0 /\ b <> 0.
Proof.
  unfold int_mul, CInt.checked.
  destruct (_ && _); [|discriminate]. intros [= <-] Hc. lia.
Qed.

(** X22.  With the type [heads], [calculatePenalty] divides by the head
    dimension and by the first dimension of [W]: it has a result only
    when the option [transformer-head-dim] is set and not zero, [W] is not
    null and its first dimension is not zero, and, unless [rows] is set,
    [b] is not null. *)
Theorem heads_penalty_defined r W b rows p r' :
  kind r = GroupLassoRegulariser ->
  getType r = "heads" ->
  calculatePenalty r W b rows = Some (p, r') ->
  exists W' blockW h,
    W = Some W' /\ transformer_head_dim r = Some blockW /\ blockW <> 0 /\
    shape W' 0 = Some h /\ h <> 0 /\ (rows = false -> b <> None).
Proof.
  unfold getType. intros Hk Ht H.
  apply calculatePenalty_eq in H as (W' & -> & Hp & _).
  unfold penalty in Hp. rewrite Hk in Hp.
  unfold GroupLasso_penalty in Hp. rewrite Ht in Hp. cbn [String.eqb] in Hp.
  change (Some <$> headPenalty (transformer_head_dim r) W' b rows = Some p)
    in Hp.
  destruct (headPenalty (transformer_head_dim r) W' b rows) as [q|] eqn:Hh;
    [clear Hp|discriminate Hp].
  unfold headPenalty in Hh.
  destruct (shape W' 0) as [h|] eqn:Hs; cbn [mbind option_bind] in Hh;
    [|discriminate Hh].
  destruct (transformer_head_dim r) as [blockW|];
    cbn [mbind option_bind] in Hh; [|discriminate Hh].
  destruct (shape W' 1) as [d1|]; cbn [mbind option_bind] in Hh;
    [|discriminate Hh].
  destruct (int_mul h d1) as [size|]; cbn [mbind option_bind] in Hh;
    [|discriminate Hh].
  destruct (int_mul blockW h) as [bwh|] eqn:Hbwh;
    cbn [mbind option_bind] in Hh; [|discriminate Hh].
  destruct (int_div size bwh) as [innerShape|] eqn:Hdiv;
    cbn [mbind option_bind] in Hh; [|discriminate Hh].
  apply int_div_Some in Hdiv.
  destruct (int_mul_nonzero _ _ _ Hbwh Hdiv) as [HbW Hh0].
  exists W', blockW, h. split_and!; try reflexivity; try assumption.
  intros ->. cbn [negb] in Hh.
  destruct b as [b'|]; [discriminate|]. exfalso.
  repeat match type of Hh with
         | (mbind _ ?x) = Some _ =>
             destruct x; cbn [mbind option_bind] in Hh; [|discriminate Hh]
         end.
  discriminate Hh.
Qed.

End RegulariserProofs.


(** * Runs of the model on concrete groups *)

Section Examples.
Import Demo.

Lemma default_Some {A} (d : A) (o : option A) :
  (if o is Some _ then true else false) = true -> o = Some (default d o).
Proof. destruct o; [reflexivity|discriminate]. Qed.

Lemma default_Some2 {A B} (d : A * B) (o : option (A * B)) :
  (if o is Some _ then true else false) = true ->
  o = Some ((default d o).1, (default d o).2).
Proof. destruct o as [[a b]|]; [reflexivity|discriminate]. Qed.

Lemma default_Some3 {A B C} (d : A * B * C) (o : option (A * B * C)) :
  (if o is Some _ then true else false) = true ->
  o = Some ((default d o).1.1, (default d o).1.2, (default d o).2).
Proof. destruct o as [[[a b] c]|]; [reflexivity|discriminate]. Qed.

(** Evaluates a closed goal whose value is a number, a boolean or a list
    of them. *)
Ltac run :=
  lazymatch goal with
  | |- _ = Some (_, _, _) => apply default_Some3
  | |- _ = Some (_, _) => apply default_Some2
  | |- _ = Some _ => apply default_Some
  end;
  vm_compute; reflexivity.

Ltac closed :=
  first
    [ vm_compute; reflexivity
    | apply Nat.ltb_lt; vm_compute; reflexivity
    | apply Nat.leb_le; vm_compute; reflexivity
    | apply Z.ltb_lt; vm_compute; reflexivity
    | apply Z.leb_le; vm_compute; reflexivity
    | eexists; vm_compute; reflexivity ].

Lemma dense_constructed :
  AsyncGraphGroup_new dense_options = Some dense_new.
Proof. run. Qed.

Lemma dense_executed :
  execute_first (graphs_of [0; 1] dense_values) dense_new = Some dense.
Proof. run. Qed.

Lemma sparse_constructed :
  AsyncGraphGroup_new sparse_options = Some sparse_new.
Proof. run. Qed.

Lemma sparse_executed :
  execute_first (graphs_of [0; 1] sparse_values) sparse_new = Some sparse.
Proof. run. Qed.

Lemma reachable_sparse : reachable sparse tags0.
Proof.
  assert (E : tags0
              = replicate (Z.to_nat (history_size_ sparse))
                  (replicate (length (devices_ sparse)) 0)) by closed.
  rewrite E.
  exact (reach_first _ _ _ _ sparse_constructed sparse_executed).
Qed.

Lemma reachable_bound : reachable bound tags0.
Proof.
  apply (reach_step _ _ _ _ reachable_sparse).
  apply (step_bind_run sparse tags0 0 Worker_new binding). run.
Qed.

Lemma reachable_sparse1 : reachable sparse1 tags1.
Proof.
  apply (reach_step _ _ _ _ reachable_bound).
  apply (step_sparsePush bound tags0 sparse_grad 1 0 0%nat 0 sparse1);
    [closed|closed|run].
Qed.

Lemma reachable_sparse2 : reachable sparse2 tags2.
Proof.
  apply (reach_step _ _ _ _ reachable_sparse1).
  apply (step_sparsePush sparse1 tags1 sparse_grad 1 0 0%nat 0 sparse2);
    [closed|closed|run].
Qed.

Lemma reachable_sparse3 : reachable sparse3 tags3.
Proof.
  apply (reach_step _ _ _ _ reachable_sparse2).
  apply (step_sparsePush sparse2 tags2 sparse_grad 1 0 0%nat 0 sparse3);
    [closed|closed|run].
Qed.





(** ** C1 *)

(** A dense push of the group without history leaves every version at 0. *)
Lemma dense_push_keeps_version :
  history_size_ dense = 1 /\
  globalVersionNumber dense = [0; 0] /\
  globalVersionNumber <$> push dense dense_push = Some [0; 0].
Proof. split_and!; closed. Qed.

Lemma push_version_counter_witness :
  (0 < length (devices_ sparse))%nat /\
  globalVersionNumber sparse !! 0%nat = Some 0 /\
  globalVersionNumber (the (push sparse sparse_push)) !! 0%nat
  = Some 1.
Proof.
  assert (H1 : (0 < length (devices_ sparse))%nat) by closed.
  assert (H2 : globalVersionNumber sparse !! 0%nat = Some 0) by closed.
  split; [exact H1|]. split; [exact H2|].
  destruct (push_version_counter sparse 0%nat 0 H1 H2) as [Hp _].
  rewrite (Hp sparse_push (the (push sparse sparse_push))) by run.
  closed.
Defined.

(** ** C2 *)

(** Five parameters on two devices: two shards of two parameters, and the
    fifth parameter in neither. *)
Lemma shards_leave_the_remainder :
  length dense_values = 5%nat /\
  shardSize_ dense = 2 /\
  params_ dense = [[[f 1; f 2]; [f 3; f 4]]] /\
  grads_ dense = [[f 0; f 0]; [f 0; f 0]].
Proof. split_and!; closed. Qed.

Lemma shard_partition_floor_witness :
  AsyncGraphGroup_new dense_options = Some dense_new /\
  execute_first (graphs_of [0; 1] dense_values) dense_new = Some dense /\
  exists graph0 row,
    graphs_of [0; 1] dense_values !! 0%nat = Some graph0 /\
    params_ dense !! 0%nat = Some row /\
    length row = 2%nat.
Proof.
  split; [exact dense_constructed|]. split; [exact dense_executed|].
  destruct (shard_partition_floor _ _ _ _ dense_constructed dense_executed)
    as (graph0 & row & Hb & Hrow & Hlen & _).
  exists graph0, row. split_and!; assumption.
Defined.

(** ** C3 and C4 *)


Lemma sparse_fetch_staleness_witness :
  reachable sparse3 tags3 /\
  globalVersionNumber sparse3 !! 0%nat = Some 3 /\
  localVersionNumbers sparse3 !! 0%nat = Some [0; 0] /\
  history_size_ sparse3 = 3 /\
  exists cv,
    chosen_version (history_size_ sparse3) 3 0 = Some cv /\
    tag_at tags3 cv 0 = Some (Z.max 0 (3 - history_size_ sparse3 + 1)).
Proof.
  assert (H1 : globalVersionNumber sparse3 !! 0%nat = Some 3) by closed.
  assert (H2 : localVersionNumbers sparse3 !! 0%nat = Some [0; 0]) by closed.
  split; [exact reachable_sparse3|]. split; [exact H1|]. split; [exact H2|].
  split; [closed|].
  destruct (sparse_fetch_staleness sparse3 tags3 0%nat 0%nat 3 [0; 0] 0
              reachable_sparse3 H1 H2 eq_refl ltac:(closed))
    as (cv & Hcv & _ & Htag & _).
  exists cv. split; assumption.
Defined.

(** ** C5 and C7 *)



(** ** C6 *)

(** The first update of the shadow parameters blends: after the first push
    on shard 0, with gradient 1, the live parameters are [0; 1] and the
    shadow parameters are [0.1; 1.1], not a copy. *)
Lemma first_update_blends :
  paramsAvg_ dense !! 0%nat = Some [f 1; f 2] /\
  param_at (params_ dense) 0 0 = Some [f 1; f 2] /\
  (if pushGradients_shard ones 1 0 0%nat 0 dense is Some _ then true
   else false) = true /\
  param_at (params_ dense1) 0 0 = Some [f 0; f 1] /\
  paramsAvg_ dense1 !! 0%nat
  = Some [f_0_1; S754_finite false 9227469 (-23)] /\
  moving_decay f_0_05 0 = f_0_05.
Proof. split_and!; closed. Qed.

Lemma moving_average_blend_witness :
  opt_moving_average dense_options = true /\
  movingAvg_ dense = true /\
  moving_decay (mvDecay_ dense) 0 = f_0_1.
Proof.
  split; [reflexivity|].
  destruct (moving_average_blend _ _ _ _ dense_constructed dense_executed
              eq_refl) as ((Hm & _) & _ & _ & Hd).
  split; [exact Hm|]. apply Hd. closed.
Defined.

(** ** C8 *)

Lemma sparse_buffer_capacity_witness :
  FP.to_bool (opt_drop_rate sparse_options) = true /\
  exists cap,
    Forall (fun t => sp_capacity t = cap) (sparseGrads_ sparse) /\
    length (sparseGrads_ sparse) = 2%nat /\
    length (localSparseDelta sparse) = 2%nat.
Proof.
  assert (Hdrop : FP.to_bool (opt_drop_rate sparse_options) = true)
    by closed.
  split; [exact Hdrop|].
  destruct (sparse_buffer_capacity _ _ _ _ sparse_constructed sparse_executed
              Hdrop) as (graph0 & cap & _ & _ & H1 & _ & _ & H4 & H5 & _).
  exists cap. split_and!; assumption.
Defined.

(** ** C9 *)

(** A drop rate that is not zero and not positive: the history size of two
    devices stays 1, where 1.5 times the number of devices gives 3. *)
Lemma history_size_negative_rate :
  FP.to_bool d_m0_5 = true /\
  FP.gt_zero d_m0_5 = false /\
  history_size_
    <$> AsyncGraphGroup_new (K:=kernels) (options [0; 1] false d_0_5 d_m0_5 1)
  = Some 1.
Proof. split_and!; closed. Qed.

Lemma history_size_construction_witness :
  3 * 2 / 2 <= CInt.int_max /\
  exists g,
    AsyncGraphGroup_new sparse_options = Some g /\ history_size_ g = 3.
Proof.
  assert (H : 3 * Z.of_nat (length (opt_devices sparse_options)) / 2
              <= CInt.int_max) by closed.
  split; [closed|].
  destruct (history_size_construction (K:=kernels) sparse_options H)
    as (g & Hnew & Hh & _).
  exists g. split; [exact Hnew|]. rewrite Hh. closed.
Defined.

(** ** C10 *)

Lemma single_replica_sparse_paths_witness :
  (length (graphs_ single) < 2)%nat /\
  sparseFetchParams single [f 1; f 2] 0 = Some (single, [f 1; f 2]) /\
  is_Some (sparsePush single sparse_grad 1 0).
Proof.
  assert (H : (length (graphs_ single) < 2)%nat) by closed.
  split; [exact H|].
  destruct (single_replica_sparse_paths single H) as (Hf & _ & _ & Hp).
  split; [apply Hf|]. apply Hp. closed.
Defined.


(** ** The dense fetch *)

Lemma dense_row_sizes :
  Forall (fun p : Tensor => Z.of_nat (length p) = shardSize_ dense)
    [[f 1; f 2]; [f 3; f 4]].
Proof. repeat constructor. Qed.

Lemma dense_fetch_shards_witness :
  0 <= shardSize_ dense /\
  length [[f 1; f 2]; [f 3; f 4]] = length (devices_ dense) /\
  fetchParams dense [f 0; f 0; f 0; f 0; f 5] [[f 1; f 2]; [f 3; f 4]]
  = Some [f 1; f 2; f 3; f 4; f 5] /\
  fetchParams dense [f 0; f 0; f 0] [[f 1; f 2]; [f 3; f 4]] = None.
Proof.
  assert (H0 : 0 <= shardSize_ dense) by closed.
  assert (Hl : length [[f 1; f 2]; [f 3; f 4]] = length (devices_ dense))
    by closed.
  split; [exact H0|]. split; [exact Hl|].
  split.
  - destruct (dense_fetch_shards dense [f 0; f 0; f 0; f 0; f 5]
                [[f 1; f 2]; [f 3; f 4]] H0 Hl dense_row_sizes) as [Hfit _].
    destruct (Hfit ltac:(closed)) as [Hf _]. rewrite Hf. closed.
  - destruct (dense_fetch_shards dense [f 0; f 0; f 0]
                [[f 1; f 2]; [f 3; f 4]] H0 Hl dense_row_sizes) as [_ Hshort].
    apply Hshort. closed.
Defined.

Lemma first_fetch_round_trip_witness :
  exists graph0 row,
    graphs_of [0; 1] dense_values !! 0%nat = Some graph0 /\
    params_ dense !! 0%nat = Some row /\
    fetchParams dense (vals graph0) row = Some (vals graph0).
Proof.
  destruct (first_fetch_round_trip _ _ _ _ dense_constructed dense_executed)
    as (graph0 & row & Hb & Hrow & H).
  exists graph0, row. split; [exact Hb|]. split; [exact Hrow|].
  cbv zeta in H. apply H.
  assert (E : graphs_of [0; 1] dense_values !! 0%nat
              = Some (mkGraph dense_values (set_zero dense_values)))
    by reflexivity.
  rewrite E in Hb. injection Hb as <-. closed.
Defined.

(** ** Pushes *)

Lemma dense1_defined :
  pushGradients_shard ones 1 0 0%nat 0 dense = Some dense1.
Proof. unfold dense1. run. Qed.

Lemma sparse1_defined :
  sparsePush_shard sparse_grad 1 0 0%nat 0 bound = Some sparse1.
Proof. unfold sparse1, pushed0. run. Qed.

Lemma push_touches_one_shard_witness :
  pushGradients_shard ones 1 0 0%nat 0 dense = Some dense1 /\
  param_at (params_ dense1) 0 1 = param_at (params_ dense) 0 1 /\
  graphs_ dense1 = graphs_ dense.
Proof.
  split; [exact dense1_defined|].
  destruct (push_touches_one_shard 0%nat 0 1 0 dense dense1
              (or_introl (ex_intro _ ones dense1_defined)))
    as (Hshard & Hgraphs & _).
  destruct (Hshard 1%nat ltac:(discriminate)) as (_ & Hp & _).
  split; [apply Hp|exact Hgraphs].
Defined.

Lemma versioned_push_keeps_previous_witness :
  globalVersionNumber bound !! 0%nat = Some 0 /\
  1 < history_size_ bound /\
  globalVersionNumber sparse1 !! 0%nat = Some (0 + 1) /\
  param_at (params_ sparse1) (0 mod history_size_ bound) 0
  = param_at (params_ bound) (0 mod history_size_ bound) 0.
Proof.
  assert (Hgv : globalVersionNumber bound !! 0%nat = Some 0) by closed.
  assert (Hh : 1 < history_size_ bound) by closed.
  split; [exact Hgv|]. split; [exact Hh|].
  destruct (versioned_push_keeps_previous 0%nat 0 1 0 bound sparse1 0 Hgv
              ltac:(lia) Hh
              (or_intror (ex_intro _ sparse_grad sparse1_defined)))
    as (Hne & Hv & Hslots & _).
  split; [exact Hv|]. apply Hslots; [closed|exact Hne].
Defined.

(** ** Invariants *)

Lemma reachable_state_invariant_witness :
  reachable sparse3 tags3 /\
  (1 <= length (devices_ sparse3))%nat /\
  1 <= history_size_ sparse3.
Proof.
  split; [exact reachable_sparse3|].
  destruct (reachable_state_invariant sparse3 tags3 reachable_sparse3)
    as (Hn & _ & Hh & _).
  split; assumption.
Defined.

Lemma history_ring_holds_recent_versions_witness :
  reachable sparse3 tags3 /\
  globalVersionNumber sparse3 !! 0%nat = Some 3 /\
  tag_at tags3 (2 mod history_size_ sparse3) 0 = Some 2.
Proof.
  assert (Hgv : globalVersionNumber sparse3 !! 0%nat = Some 3) by closed.
  split; [exact reachable_sparse3|]. split; [exact Hgv|].
  destruct (history_ring_holds_recent_versions sparse3 tags3 0%nat 3
              reachable_sparse3 Hgv) as (_ & Hring & _).
  apply Hring. closed || (split; closed).
Defined.

Lemma fetched3_defined :
  sparseFetchParams sparse3 sparse_values 0 = Some (fetched3.1, fetched3.2).
Proof. unfold fetched3. run. Qed.

Lemma sparse_fetch_makes_current_witness :
  reachable sparse3 tags3 /\
  (2 <= length (graphs_ sparse3))%nat /\
  sparseFetchParams sparse3 sparse_values 0 = Some (fetched3.1, fetched3.2) /\
  sparseFetchParams fetched3.1 fetched3.2 0 = Some (fetched3.1, fetched3.2).
Proof.
  assert (Hn : (2 <= length (graphs_ sparse3))%nat) by closed.
  split; [exact reachable_sparse3|]. split; [exact Hn|].
  split; [exact fetched3_defined|].
  apply (sparse_fetch_makes_current sparse3 tags3 sparse_values 0
           fetched3.1 fetched3.2 reachable_sparse3 Hn fetched3_defined).
Defined.

(** ** Threads and the scheduler *)


Lemma dense_shadow_sizes :
  Forall (fun p : Tensor => Z.of_nat (length p) = shardSize_ dense)
    (paramsAvg_ dense).
Proof.
  assert (E : paramsAvg_ dense = [[f 1; f 2]; [f 3; f 4]]) by closed.
  rewrite E. repeat constructor.
Qed.

Lemma pulled_defined :
  task_scheduler 0%nat (Some (true, false)) dense = Some pulled.
Proof. unfold pulled. run. Qed.

Lemma scheduler_pulls_shadow_witness :
  task_scheduler 0%nat (Some (true, false)) dense = Some pulled /\
  paramsAvg_ pulled = paramsAvg_ dense /\
  params_ pulled = params_ dense.
Proof.
  split; [exact pulled_defined|].
  destruct (scheduler_pulls_shadow 0%nat (Some (true, false)) dense pulled
              ltac:(closed) ltac:(closed) dense_shadow_sizes pulled_defined)
    as (Ha & Hp & _).
  split; assumption.
Defined.

(** ** Files *)

Lemma save_names_files_witness :
  Z.of_nat (String.length "model.npz") < CInt.size_t_range /\
  save_names false "model.npz" false "12"
  = Some ["model.iter12.npz"; "model.npz"] /\
  save_names false "npz" false "12" = None.
Proof.
  assert (H : Z.of_nat (String.length "model.npz") < CInt.size_t_range)
    by closed.
  split; [exact H|]. split.
  - destruct (save_names_files false "model.npz" false "12" H)
      as (_ & _ & Hstem).
    apply (Hstem "model" ".npz"); reflexivity.
  - closed.
Defined.

(** ** The single graph *)

Lemma single_run1_defined :
  Singleton.execute single_step1 single_graph
  = Some (single_run1.1, single_run1.2).
Proof. unfold single_run1. run. Qed.

Lemma single_run2_defined :
  Singleton.execute single_step2 single_run1.1
  = Some (single_run2.1, single_run2.2).
Proof. unfold single_run2. run. Qed.

Lemma singleton_shadow_bootstrap_witness :
  Singleton.mvAvg_ single_graph = true /\
  Singleton.mvAvgGraph_ single_graph = None /\
  Singleton.execute single_step1 single_graph
  = Some (single_run1.1, single_run1.2) /\
  Singleton.mvAvgGraph_ single_run1.1
  = Some (vals (Singleton.graph_ single_run1.1)) /\
  is_Some (scheduler single_step2).
Proof.
  split; [reflexivity|]. split; [reflexivity|].
  split; [exact single_run1_defined|].
  destruct (singleton_shadow_bootstrap single_step1 single_step2
              single_graph single_run1.1 single_run1.2 eq_refl eq_refl
              single_run1_defined) as (Hcopy & _ & Hblend).
  split; [exact Hcopy|].
  apply (Hblend _ _ single_run2_defined).
Defined.

Lemma singleton_saves_live_parameters_witness :
  Singleton.execute single_step1 single_graph
  = Some (single_run1.1, single_run1.2) /\
  Forall (fun file : string * Tensor =>
            file.2 = vals (Singleton.graph_ single_run1.1))
    (Singleton.tr_saved single_run1.2) /\
  Singleton.tr_validated single_run1.2
  = Singleton.mvAvgGraph_ single_run1.1.
Proof.
  split; [exact single_run1_defined|].
  destruct (singleton_saves_live_parameters single_step1 single_graph
              single_run1.1 single_run1.2 true true single_run1_defined
              eq_refl) as (Hsaved & _ & Hval).
  split; [exact Hsaved|exact Hval].
Defined.

(** ** The first execution *)


Lemma nodevices_constructed :
  AsyncGraphGroup_new (options [] false d_0_5 FP.f64_zero 1)
  = Some (the (AsyncGraphGroup_new (options [] false d_0_5 FP.f64_zero 1))).
Proof. run. Qed.

Lemma first_execution_needs_graphs_witness :
  AsyncGraphGroup_new (options [] false d_0_5 FP.f64_zero 1)
  = Some (the (AsyncGraphGroup_new (options [] false d_0_5 FP.f64_zero 1))) /\
  execute_first []
    (the (AsyncGraphGroup_new (options [] false d_0_5 FP.f64_zero 1)))
  = None.
Proof.
  split; [exact nodevices_constructed|].
  apply (first_execution_needs_graphs _ _ _ nodevices_constructed).
  right. reflexivity.
Defined.

End Examples.
(** * Runs of the regularisers on the symbolic engine *)

Section RegulariserExamples.
Import Regulariser Symbolic.

Lemma l1_calls :
  calculatePenalties l1 [call encoder_W; call decoder_W; call decoder_W']
  = Some (after_calls l1 [call encoder_W; call decoder_W; call decoder_W']).
Proof. unfold after_calls. apply default_Some. vm_compute. reflexivity. Qed.

Lemma penalties_keep_first_witness :
  partialPenalties_ l1 = [] /\
  Forall (fun c => call_name c <> Some (name decoder_W)) [call encoder_W] /\
  calculatePenalties l1 [call encoder_W; call decoder_W; call decoder_W']
  = Some (after_calls l1 [call encoder_W; call decoder_W; call decoder_W']) /\
  exists p, penalty l1 decoder_W None true = Some p /\
    find (name decoder_W)
      (getPartialPenalties
         (after_calls l1 [call encoder_W; call decoder_W; call decoder_W']))
    = Some p.
Proof.
  assert (Forall (fun c => call_name c <> Some (name decoder_W))
            [call encoder_W]) as Hb.
  { constructor; [discriminate|constructor]. }
  split_and!; [reflexivity|exact Hb|exact l1_calls|].
  exact (penalties_keep_first l1 [call encoder_W] decoder_W None true
           [call decoder_W'] _ eq_refl Hb l1_calls).
Defined.

Lemma penalties_call_order_witness :
  NoDup (call_name <$> [call encoder_W; call decoder_W]) /\
  [call encoder_W; call decoder_W] ≡ₚ [call decoder_W; call encoder_W] /\
  calculatePenalties l1 [call decoder_W; call encoder_W]
  = calculatePenalties l1 [call encoder_W; call decoder_W] /\
  (calculatePenalties l1 [call decoder_W; call encoder_W] ≫= getTotalPenalty)
  = (calculatePenalties l1 [call encoder_W; call decoder_W]
     ≫= getTotalPenalty).
Proof.
  assert (NoDup (call_name <$> [call encoder_W; call decoder_W])) as Hnd.
  { repeat constructor; rewrite ?elem_of_cons, ?elem_of_nil; cbn;
      intuition discriminate. }
  assert ([call encoder_W; call decoder_W]
          ≡ₚ [call decoder_W; call encoder_W]) as Hp by apply perm_swap.
  split; [exact Hnd|]. split; [exact Hp|].
  exact (penalties_call_order l1 _ _ Hnd Hp).
Defined.

Lemma l1_two_penalties :
  getPartialPenalties (after_calls l1 [call encoder_W; call decoder_W])
  = [] ++ ("decoder_W",
           Some (Sum (Sum (Abs decoder_W) (-1)) (-2)))
       :: ((fun e => (e.1, Some e.2))
           <$> [("encoder_W", Sum (Sum (Abs encoder_W) (-1)) (-2))]).
Proof. vm_compute. reflexivity. Qed.

Lemma total_penalty_weights_witness :
  getPartialPenalties (after_calls l1 [call encoder_W; call decoder_W])
  = [] ++ ("decoder_W", Some (Sum (Sum (Abs decoder_W) (-1)) (-2)))
       :: ((fun e => (e.1, Some e.2))
           <$> [("encoder_W", Sum (Sum (Abs encoder_W) (-1)) (-2))]) /\
  getTotalPenalty (after_calls l1 [call encoder_W; call decoder_W])
  = Some (Scaled lambda
            (Plus (Sum (Sum (Abs decoder_W) (-1)) (-2))
               (Scaled lambda (Sum (Sum (Abs encoder_W) (-1)) (-2))))).
Proof.
  split; [exact l1_two_penalties|].
  exact (total_penalty_weights _ [] _ _ _ (Forall_nil_2 _) l1_two_penalties).
Defined.

Lemma total_penalty_defined_witness :
  getTotalPenalty (after_calls l1 [call encoder_W])
  = Some (Scaled lambda (Sum (Sum (Abs encoder_W) (-1)) (-2))) /\
  exists nulls k p (rest : list (string * Term)),
    Forall (fun e => e.2 = None) nulls /\
    getPartialPenalties (after_calls l1 [call encoder_W])
    = nulls ++ (k, Some p) :: ((fun e => (e.1, Some e.2)) <$> rest).
Proof.
  assert (getTotalPenalty (after_calls l1 [call encoder_W])
          = Some (Scaled lambda (Sum (Sum (Abs encoder_W) (-1)) (-2)))) as H
    by (vm_compute; reflexivity).
  split; [exact H|].
  exact (total_penalty_defined _ _ H).
Defined.

Lemma factory_l1 : construct None lambda "l1" = Some l1.
Proof. reflexivity. Qed.

Lemma factory_penalties_not_null_witness :
  construct None lambda "l1" = Some l1 /\
  calculatePenalties l1 [call encoder_W; call decoder_W; call decoder_W']
  = Some (after_calls l1 [call encoder_W; call decoder_W; call decoder_W']) /\
  getLambda (after_calls l1 [call encoder_W; call decoder_W; call decoder_W'])
  = lambda /\
  getType (after_calls l1 [call encoder_W; call decoder_W; call decoder_W'])
  = "l1" /\
  Forall (fun e => e.2 <> None)
    (getPartialPenalties
       (after_calls l1 [call encoder_W; call decoder_W; call decoder_W'])).
Proof.
  split; [exact factory_l1|]. split; [exact l1_calls|].
  exact (factory_penalties_not_null _ _ _ _ _ _ factory_l1 l1_calls).
Defined.

Lemma lasso_calls :
  calculatePenalties lasso [call encoder_W; call decoder_W]
  = Some (after_calls lasso [call encoder_W; call decoder_W]).
Proof. unfold after_calls. apply default_Some. vm_compute. reflexivity. Qed.

Lemma lasso_type :
  getType lasso ∉ ["rowcol"; "heads"; "rowcol-root"; "layer"].
Proof.
  rewrite !elem_of_cons, elem_of_nil. cbn. intuition discriminate.
Qed.

Lemma group_lasso_unknown_type_witness :
  kind lasso = GroupLassoRegulariser /\
  (getType lasso ∉ ["rowcol"; "heads"; "rowcol-root"; "layer"]) /\
  getPartialPenalties lasso = [] /\
  calculatePenalties lasso [call encoder_W; call decoder_W]
  = Some (after_calls lasso [call encoder_W; call decoder_W]) /\
  Forall (fun e => e.2 = None)
    (getPartialPenalties (after_calls lasso [call encoder_W; call decoder_W]))
  /\ getTotalPenalty (after_calls lasso [call encoder_W; call decoder_W])
     = None.
Proof.
  split; [reflexivity|]. split; [exact lasso_type|]. split; [reflexivity|].
  split; [exact lasso_calls|].
  exact (group_lasso_unknown_type lasso _ _ eq_refl lasso_type eq_refl lasso_calls).
Defined.

Lemma heads_call_defined :
  calculatePenalty heads (Some encoder_W) None true
  = Some (heads_call.1, heads_call.2).
Proof. unfold heads_call. apply default_Some2. vm_compute. reflexivity. Qed.

Lemma heads_penalty_defined_witness :
  kind heads = GroupLassoRegulariser /\
  getType heads = "heads" /\
  calculatePenalty heads (Some encoder_W) None true
  = Some (heads_call.1, heads_call.2) /\
  exists W' blockW h,
    Some encoder_W = Some W' /\
    transformer_head_dim heads = Some blockW /\ blockW <> 0 /\
    shape W' 0 = Some h /\ h <> 0 /\ (true = false -> (None : Expr engine) <> None).
Proof.
  split; [reflexivity|]. split; [reflexivity|].
  split; [exact heads_call_defined|].
  exact (heads_penalty_defined heads _ _ _ _ _ eq_refl eq_refl
           heads_call_defined).
Defined.

End RegulariserExamples.
